(** * StoryWeaver: the realtime audio/session core, embedded in Rocq

    The development follows the TypeScript sources

    - [src/services/geminiService.ts] : [encode], [decode], [decodeAudioData],
      [createBlob];
    - the sound service ([preloadSounds], [playSound]);
    - [src/hooks/useStoryteller.ts] : [cleanup], [stopSession],
      [handleMessage], [startSession] and the session callbacks.

    Conventions of the embedding.

    - A JavaScript number is an exact rational ([Q]).  Every value the codec
      handles (a 32-bit float sample, its product with 32768, a 16-bit
      integer divided by 32768) is a dyadic rational, and those operations
      are exact on floats, so the codec is modelled without loss.  Rounding
      of sums of clock times is not modelled.
    - A JavaScript string is a [string]: a sequence of code units below 256.
      This is exactly the "binary string" of [btoa]/[atob]; for transcripts
      it is the Latin-1 part of the strings the handler can receive.
    - A [Uint8Array] that the code reads element by element is the
      [list byte] of its elements; this is also what [decode] returns, a
      fresh array on a buffer of its own.  [decodeAudioData] reaches for the
      [ArrayBuffer] behind its argument, so that it takes a [Uint8Array]
      with its buffer, its offset and its length.
    - The mutable refs and React state cells of the hook are the fields of
      one record, [State]; calls into the browser (audio graph, microphone,
      session) are recorded, in order, in its [trace].
    - A React state updater ([setConversation (prev => ...)]) is applied where
      it is called; handlers run to completion one at a time. *)

From Stdlib Require Import String Ascii Strings.Byte Bool Arith ZArith QArith Qminmax Qabs Lia List.
Import ListNotations.

Local Open Scope string_scope.
Local Open Scope list_scope.

(** ** Transport text: [btoa] and [atob]

    The two browser built-ins the codec calls.  [btoa] is RFC 4648 base64
    with padding; [atob] is the WHATWG "forgiving-base64 decode". *)

Module Base64.

(** Six bits, most significant first. *)
Inductive sextet : Type :=
| Sextet (x5 x4 x3 x2 x1 x0 : bool).

Definition N_of_sextet (s : sextet) : N :=
  let 'Sextet x5 x4 x3 x2 x1 x0 := s in
  N_of_digits [x0; x1; x2; x3; x4; x5].

Definition sextet_of_N (n : N) : sextet :=
  Sextet (N.testbit n 5) (N.testbit n 4) (N.testbit n 3)
         (N.testbit n 2) (N.testbit n 1) (N.testbit n 0).

Definition alphabet : list ascii :=
  list_ascii_of_string
    "ABCDEFGHIJKLMNOPQRSTUVWXYZabcdefghijklmnopqrstuvwxyz0123456789+/".

Definition b64char (s : sextet) : ascii :=
  nth (N.to_nat (N_of_sextet s)) alphabet "="%char.

(** The index of a code point in the alphabet, if it has one. *)
Definition b64val (c : ascii) : option sextet :=
  let n := N_of_ascii c in
  if ((65 <=? n) && (n <=? 90))%N then Some (sextet_of_N (n - 65))
  else if ((97 <=? n) && (n <=? 122))%N then Some (sextet_of_N (n - 71))
  else if ((48 <=? n) && (n <=? 57))%N then Some (sextet_of_N (n + 4))
  else if (n =? 43)%N then Some (sextet_of_N 62)
  else if (n =? 47)%N then Some (sextet_of_N 63)
  else None.

(** 24 bits as four sextets; a short final group is completed with zero
    bits. *)
Fixpoint sextets_of_bytes (l : list ascii) : list sextet :=
  match l with
  | [] => []
  | [Ascii a0 a1 a2 a3 a4 a5 a6 a7] =>
      [Sextet a7 a6 a5 a4 a3 a2; Sextet a1 a0 false false false false]
  | [Ascii a0 a1 a2 a3 a4 a5 a6 a7; Ascii b0 b1 b2 b3 b4 b5 b6 b7] =>
      [Sextet a7 a6 a5 a4 a3 a2; Sextet a1 a0 b7 b6 b5 b4;
       Sextet b3 b2 b1 b0 false false]
  | Ascii a0 a1 a2 a3 a4 a5 a6 a7 :: Ascii b0 b1 b2 b3 b4 b5 b6 b7
      :: Ascii c0 c1 c2 c3 c4 c5 c6 c7 :: rest =>
      Sextet a7 a6 a5 a4 a3 a2 :: Sextet a1 a0 b7 b6 b5 b4
        :: Sextet b3 b2 b1 b0 c7 c6 :: Sextet c5 c4 c3 c2 c1 c0
        :: sextets_of_bytes rest
  end.

Definition padding (len : nat) : list ascii :=
  match (len mod 3)%nat with
  | 1%nat => ["="%char; "="%char]
  | 2%nat => ["="%char]
  | _ => []
  end.

Definition btoa_list (l : list ascii) : list ascii :=
  map b64char (sextets_of_bytes l) ++ padding (length l).

Definition btoa (binary : string) : string :=
  string_of_list_ascii (btoa_list (list_ascii_of_string binary)).

(** TAB, LF, FF, CR and SPACE. *)
Definition is_ascii_whitespace (c : ascii) : bool :=
  let n := N_of_ascii c in
  ((n =? 9) || (n =? 10) || (n =? 12) || (n =? 13) || (n =? 32))%N.

Definition is_pad (c : ascii) : bool := (c =? "=")%char.

(** Step 2 of the forgiving decode: when the length is a multiple of four,
    one or two trailing [=] are removed. *)
Definition strip_padding (l : list ascii) : list ascii :=
  if (length l mod 4 =? 0)%nat then
    match rev l with
    | c1 :: c2 :: r =>
        if is_pad c1 then (if is_pad c2 then rev r else rev (c2 :: r))
        else l
    | [c1] => if is_pad c1 then [] else l
    | [] => l
    end
  else l.

Fixpoint sextets_of_text (l : list ascii) : option (list sextet) :=
  match l with
  | [] => Some []
  | c :: rest =>
      match b64val c, sextets_of_text rest with
      | Some s, Some ss => Some (s :: ss)
      | _, _ => None
      end
  end.

(** 24 bits give three bytes; a remainder of 12 bits gives one byte and
    one of 18 bits gives two, the last bits being dropped. *)
Fixpoint bytes_of_sextets (l : list sextet) : list ascii :=
  match l with
  | Sextet a7 a6 a5 a4 a3 a2 :: Sextet a1 a0 b7 b6 b5 b4
      :: Sextet b3 b2 b1 b0 c7 c6 :: Sextet c5 c4 c3 c2 c1 c0 :: rest =>
      Ascii a0 a1 a2 a3 a4 a5 a6 a7 :: Ascii b0 b1 b2 b3 b4 b5 b6 b7
        :: Ascii c0 c1 c2 c3 c4 c5 c6 c7 :: bytes_of_sextets rest
  | [Sextet a7 a6 a5 a4 a3 a2; Sextet a1 a0 b7 b6 b5 b4;
     Sextet b3 b2 b1 b0 _ _] =>
      [Ascii a0 a1 a2 a3 a4 a5 a6 a7; Ascii b0 b1 b2 b3 b4 b5 b6 b7]
  | [Sextet a7 a6 a5 a4 a3 a2; Sextet a1 a0 _ _ _ _] =>
      [Ascii a0 a1 a2 a3 a4 a5 a6 a7]
  | _ => []
  end.

(** [None] stands for the [InvalidCharacterError] that [atob] throws. *)
Definition atob_list (l : list ascii) : option (list ascii) :=
  let data := strip_padding (filter (fun c => negb (is_ascii_whitespace c)) l) in
  if (length data mod 4 =? 1)%nat then None
  else option_map bytes_of_sextets (sextets_of_text data).

Definition atob (text : string) : option string :=
  option_map string_of_list_ascii (atob_list (list_ascii_of_string text)).

End Base64.

(** ** Exceptions

    A call that can throw returns a [Result]. *)

Inductive JsError : Type :=
| TypeError | RangeError | InvalidCharacterError | NotSupportedError.

Inductive Result (A : Type) : Type :=
| Ok (a : A)
| Raise (e : JsError).

Arguments Ok {A} a.
Arguments Raise {A} e.

(** ** geminiService.ts: [encode] and [decode] *)

(** [String.fromCharCode] on a byte, [charCodeAt] stored into a
    [Uint8Array]. *)
Definition fromCharCode (b : byte) : string := String (ascii_of_byte b) EmptyString.

Definition encode (bytes : list byte) : string :=
  let binary := fold_left (fun binary b => (binary ++ fromCharCode b)%string) bytes "" in
  Base64.btoa binary.

Definition decode (base64 : string) : Result (list byte) :=
  match Base64.atob base64 with
  | None => Raise InvalidCharacterError
  | Some binaryString => Ok (map byte_of_ascii (list_ascii_of_string binaryString))
  end.

(** ** geminiService.ts: the PCM codec *)

(** The value an [Int16Array] element takes when a number is stored in it:
    the number is truncated toward zero and wrapped into the signed 16-bit
    range. *)
Definition truncate (x : Q) : Z := Z.quot (Qnum x) (Zpos (Qden x)).

Definition toInt16 (z : Z) : Z := (z + 32768) mod 65536 - 32768.

Definition byte_of_Z (z : Z) : byte :=
  byte_of_ascii (ascii_of_N (Z.to_N (z mod 256))).

Definition Z_of_byte (b : byte) : Z := Z.of_N (Byte.to_N b).

(** [new Uint8Array(int16.buffer)]: each element as two bytes, low byte
    first. *)
Definition uint8View (int16 : list Z) : list byte :=
  flat_map (fun v => [byte_of_Z v; byte_of_Z (v / 256)]) int16.

(** [new Int16Array(buffer)] on an [ArrayBuffer], given by its bytes: the
    view spans the whole buffer, two bytes to an element, low byte first; a
    buffer of odd length is refused. *)
Fixpoint int16View (buffer : list byte) : Result (list Z) :=
  match buffer with
  | [] => Ok []
  | [_] => Raise RangeError
  | lo :: hi :: rest =>
      match int16View rest with
      | Ok tail => Ok (toInt16 (Z_of_byte lo + 256 * Z_of_byte hi) :: tail)
      | Raise e => Raise e
      end
  end.

(** The inline-data object of the message contract; [createBlob] fills both
    fields. *)
Record Blob : Type := mkBlob {
  data : option string;
  mimeType : option string
}.

Record AudioBuffer : Type := mkAudioBuffer {
  numberOfChannels : nat;
  frameLength : nat;
  sampleRate : Q;
  channels : list (list Q)
}.

Definition duration (buffer : AudioBuffer) : Q :=
  inject_Z (Z.of_nat (frameLength buffer)) / sampleRate buffer.

(** The inner loop of [decodeAudioData] for one channel. *)
Definition getChannelData (dataInt16 : list Z) (numChannels frameCount channel : nat)
  : list Q :=
  map (fun i => inject_Z (nth (i * numChannels + channel) dataInt16 0%Z) / 32768)
      (seq 0 frameCount).

(** A [Uint8Array]: a window of [u8_length] bytes that begins
    [u8_byteOffset] bytes into the [ArrayBuffer] [u8_buffer]. *)
Record Uint8Array : Type := mkUint8Array {
  u8_buffer : list byte;
  u8_byteOffset : nat;
  u8_length : nat
}.

Definition elements (array : Uint8Array) : list byte :=
  firstn (u8_length array) (skipn (u8_byteOffset array) (u8_buffer array)).

(** [new Uint8Array(len)] once filled, as [decode] returns it: the window is
    the whole of a buffer of its own. *)
Definition freshArray (bytes : list byte) : Uint8Array :=
  {| u8_buffer := bytes; u8_byteOffset := 0; u8_length := length bytes |}.

(** What a browser's [createBuffer] accepts: up to [maxChannels] channels and
    rates from [minRate] to [maxRate].  The Web Audio standard leaves these
    to the browser, which must accept at least 32 channels and the rates from
    8000 to 96000. *)
Record Engine : Type := mkEngine {
  maxChannels : nat;
  minRate : Q;
  maxRate : Q
}.

Definition conforming (ctx : Engine) : Prop :=
  (32 <= maxChannels ctx)%nat /\ minRate ctx <= 8000 /\ 96000 <= maxRate ctx.

(** The browser that accepts no more than it must. *)
Definition leastEngine : Engine :=
  {| maxChannels := 32; minRate := 8000; maxRate := 96000 |}.

(** [ctx.createBuffer]: a [NotSupportedError] for a number of channels, a
    length or a rate that is zero or outside what the browser accepts;
    otherwise a silent buffer. *)
Definition createBuffer (ctx : Engine) (numChannels frameCount : nat) (rate : Q)
  : Result AudioBuffer :=
  if ((numChannels =? 0) || (frameCount =? 0) || (maxChannels ctx <? numChannels))%nat
     || Qle_bool rate 0
     || negb (Qle_bool (minRate ctx) rate && Qle_bool rate (maxRate ctx))
  then Raise NotSupportedError
  else Ok {| numberOfChannels := numChannels;
             frameLength := frameCount;
             sampleRate := rate;
             channels := repeat (repeat 0 frameCount) numChannels |}.

(** The 16-bit view is taken on [data.buffer], the whole buffer behind the
    array, whatever the window of the array.  The call throws when the view
    does and when [createBuffer] does.  [createBuffer] takes the whole part
    of [frameCount]; writes past the end of a channel are dropped by the
    typed array.  [ctx] is the context as far as the function uses it: the
    browser behind its [createBuffer]. *)
Definition decodeAudioData (data : Uint8Array) (ctx : Engine) (rate : Q)
           (numChannels : nat) : Result AudioBuffer :=
  match int16View (u8_buffer data) with
  | Raise e => Raise e
  | Ok dataInt16 =>
      let frameCount := (length dataInt16 / numChannels)%nat in
      match createBuffer ctx numChannels frameCount rate with
      | Raise e => Raise e
      | Ok buffer =>
          Ok {| numberOfChannels := numberOfChannels buffer;
                frameLength := frameLength buffer;
                sampleRate := sampleRate buffer;
                channels := map (getChannelData dataInt16 numChannels frameCount)
                                (seq 0 numChannels) |}
      end
  end.

Definition createBlob (samples : list Q) : Blob :=
  let int16 := map (fun x => toInt16 (truncate (x * 32768))) samples in
  {| data := Some (encode (uint8View int16));
     mimeType := Some "audio/pcm;rate=16000" |}.

(** ** types.ts *)

Inductive StorytellerStatus : Type :=
| IDLE | LISTENING | THINKING | SPEAKING | ERROR.

Inductive Speaker : Type := user | ai.

Record Turn : Type := mkTurn {
  speaker : Speaker;
  text : string
}.

Definition is_user (sp : Speaker) : bool :=
  match sp with user => true | ai => false end.

(** ** The inbound message, as far as the handler reads it

    Every field is optional, as in the declarations of the client library. *)

Record FunctionArgs : Type := mkArgs { sound : option string }.

Record FunctionCall : Type := mkFunctionCall {
  fc_id : option string;
  fc_name : option string;
  fc_args : option FunctionArgs
}.

Record LiveServerToolCall : Type := mkToolCall {
  functionCalls : option (list FunctionCall)
}.

Record Transcription : Type := mkTranscription { tr_text : option string }.

Record Part : Type := mkPart { inlineData : option Blob }.

Record Content : Type := mkContent { parts : option (list Part) }.

Record LiveServerContent : Type := mkServerContent {
  outputTranscription : option Transcription;
  inputTranscription : option Transcription;
  turnComplete : option bool;
  modelTurn : option Content;
  interrupted : option bool
}.

Record LiveServerMessage : Type := mkMessage {
  toolCall : option LiveServerToolCall;
  serverContent : option LiveServerContent
}.

(** ** Browser objects and the calls made on them *)

Inductive AudioContextState : Type := suspended | running | closed.

Record AudioContext : Type := mkContext {
  ctx_state : AudioContextState;
  ctx_rate : Q
}.

Inductive Sink : Type := InputSink | OutputSink.

(** Calls on the session, made from a [then] on the session promise: they
    run once that promise is fulfilled. *)
Inductive SessionCall : Type :=
| Close
| SendToolResponse (id name : option string) (result : string)
| SendRealtimeInput (media : Blob).

Inductive Effect : Type :=
| TrackStop
| ProcessorDisconnect
| ContextClose (which : Sink)
| SourceStart (source : nat) (when : Q) (buffer : AudioBuffer)
| SourceStop (source : nat)
| PlaySound (soundName : string)
| SessionThen (session : nat) (call : SessionCall).

Inductive MediaStream : Type := Microphone.
Inductive ScriptProcessorNode : Type := ScriptProcessor.

(** ** The state of the hook *)

Record State : Type := mkState {
  status : StorytellerStatus;
  conversation : list Turn;
  error : option string;
  sessionPromiseRef : option nat;
  inputAudioContextRef : option AudioContext;
  outputAudioContextRef : option AudioContext;
  microphoneStreamRef : option MediaStream;
  scriptProcessorRef : option ScriptProcessorNode;
  currentInputTranscriptionRef : string;
  currentOutputTranscriptionRef : string;
  nextStartTimeRef : Q;
  audioSourcesRef : list nat;
  (** the cache of the sound service: the names already decoded *)
  audioBuffers : list string;
  (** identity of the next [AudioBufferSourceNode] *)
  nextSource : nat;
  trace : list Effect
}.

Definition initialState : State :=
  {| status := IDLE; conversation := []; error := None;
     sessionPromiseRef := None; inputAudioContextRef := None;
     outputAudioContextRef := None; microphoneStreamRef := None;
     scriptProcessorRef := None;
     currentInputTranscriptionRef := ""; currentOutputTranscriptionRef := "";
     nextStartTimeRef := 0; audioSourcesRef := [];
     audioBuffers := []; nextSource := 0%nat; trace := [] |}.

(** Assignment to one cell; the others are kept. *)

Definition setStatus v (s : State) : State :=
  {| status := v; conversation := conversation s; error := error s;
     sessionPromiseRef := sessionPromiseRef s;
     inputAudioContextRef := inputAudioContextRef s;
     outputAudioContextRef := outputAudioContextRef s;
     microphoneStreamRef := microphoneStreamRef s;
     scriptProcessorRef := scriptProcessorRef s;
     currentInputTranscriptionRef := currentInputTranscriptionRef s;
     currentOutputTranscriptionRef := currentOutputTranscriptionRef s;
     nextStartTimeRef := nextStartTimeRef s;
     audioSourcesRef := audioSourcesRef s; audioBuffers := audioBuffers s;
     nextSource := nextSource s; trace := trace s |}.

Definition putConversation v (s : State) : State :=
  {| status := status s; conversation := v; error := error s;
     sessionPromiseRef := sessionPromiseRef s;
     inputAudioContextRef := inputAudioContextRef s;
     outputAudioContextRef := outputAudioContextRef s;
     microphoneStreamRef := microphoneStreamRef s;
     scriptProcessorRef := scriptProcessorRef s;
     currentInputTranscriptionRef := currentInputTranscriptionRef s;
     currentOutputTranscriptionRef := currentOutputTranscriptionRef s;
     nextStartTimeRef := nextStartTimeRef s;
     audioSourcesRef := audioSourcesRef s; audioBuffers := audioBuffers s;
     nextSource := nextSource s; trace := trace s |}.

Definition setError v (s : State) : State :=
  {| status := status s; conversation := conversation s; error := v;
     sessionPromiseRef := sessionPromiseRef s;
     inputAudioContextRef := inputAudioContextRef s;
     outputAudioContextRef := outputAudioContextRef s;
     microphoneStreamRef := microphoneStreamRef s;
     scriptProcessorRef := scriptProcessorRef s;
     currentInputTranscriptionRef := currentInputTranscriptionRef s;
     currentOutputTranscriptionRef := currentOutputTranscriptionRef s;
     nextStartTimeRef := nextStartTimeRef s;
     audioSourcesRef := audioSourcesRef s; audioBuffers := audioBuffers s;
     nextSource := nextSource s; trace := trace s |}.

Definition setSessionPromiseRef v (s : State) : State :=
  {| status := status s; conversation := conversation s; error := error s;
     sessionPromiseRef := v; inputAudioContextRef := inputAudioContextRef s;
     outputAudioContextRef := outputAudioContextRef s;
     microphoneStreamRef := microphoneStreamRef s;
     scriptProcessorRef := scriptProcessorRef s;
     currentInputTranscriptionRef := currentInputTranscriptionRef s;
     currentOutputTranscriptionRef := currentOutputTranscriptionRef s;
     nextStartTimeRef := nextStartTimeRef s;
     audioSourcesRef := audioSourcesRef s; audioBuffers := audioBuffers s;
     nextSource := nextSource s; trace := trace s |}.

Definition setInputAudioContextRef v (s : State) : State :=
  {| status := status s; conversation := conversation s; error := error s;
     sessionPromiseRef := sessionPromiseRef s; inputAudioContextRef := v;
     outputAudioContextRef := outputAudioContextRef s;
     microphoneStreamRef := microphoneStreamRef s;
     scriptProcessorRef := scriptProcessorRef s;
     currentInputTranscriptionRef := currentInputTranscriptionRef s;
     currentOutputTranscriptionRef := currentOutputTranscriptionRef s;
     nextStartTimeRef := nextStartTimeRef s;
     audioSourcesRef := audioSourcesRef s; audioBuffers := audioBuffers s;
     nextSource := nextSource s; trace := trace s |}.

Definition setOutputAudioContextRef v (s : State) : State :=
  {| status := status s; conversation := conversation s; error := error s;
     sessionPromiseRef := sessionPromiseRef s;
     inputAudioContextRef := inputAudioContextRef s;
     outputAudioContextRef := v;
     microphoneStreamRef := microphoneStreamRef s;
     scriptProcessorRef := scriptProcessorRef s;
     currentInputTranscriptionRef := currentInputTranscriptionRef s;
     currentOutputTranscriptionRef := currentOutputTranscriptionRef s;
     nextStartTimeRef := nextStartTimeRef s;
     audioSourcesRef := audioSourcesRef s; audioBuffers := audioBuffers s;
     nextSource := nextSource s; trace := trace s |}.

Definition setMicrophoneStreamRef v (s : State) : State :=
  {| status := status s; conversation := conversation s; error := error s;
     sessionPromiseRef := sessionPromiseRef s;
     inputAudioContextRef := inputAudioContextRef s;
     outputAudioContextRef := outputAudioContextRef s;
     microphoneStreamRef := v; scriptProcessorRef := scriptProcessorRef s;
     currentInputTranscriptionRef := currentInputTranscriptionRef s;
     currentOutputTranscriptionRef := currentOutputTranscriptionRef s;
     nextStartTimeRef := nextStartTimeRef s;
     audioSourcesRef := audioSourcesRef s; audioBuffers := audioBuffers s;
     nextSource := nextSource s; trace := trace s |}.

Definition setScriptProcessorRef v (s : State) : State :=
  {| status := status s; conversation := conversation s; error := error s;
     sessionPromiseRef := sessionPromiseRef s;
     inputAudioContextRef := inputAudioContextRef s;
     outputAudioContextRef := outputAudioContextRef s;
     microphoneStreamRef := microphoneStreamRef s; scriptProcessorRef := v;
     currentInputTranscriptionRef := currentInputTranscriptionRef s;
     currentOutputTranscriptionRef := currentOutputTranscriptionRef s;
     nextStartTimeRef := nextStartTimeRef s;
     audioSourcesRef := audioSourcesRef s; audioBuffers := audioBuffers s;
     nextSource := nextSource s; trace := trace s |}.

Definition setCurrentInputTranscriptionRef v (s : State) : State :=
  {| status := status s; conversation := conversation s; error := error s;
     sessionPromiseRef := sessionPromiseRef s;
     inputAudioContextRef := inputAudioContextRef s;
     outputAudioContextRef := outputAudioContextRef s;
     microphoneStreamRef := microphoneStreamRef s;
     scriptProcessorRef := scriptProcessorRef s;
     currentInputTranscriptionRef := v;
     currentOutputTranscriptionRef := currentOutputTranscriptionRef s;
     nextStartTimeRef := nextStartTimeRef s;
     audioSourcesRef := audioSourcesRef s; audioBuffers := audioBuffers s;
     nextSource := nextSource s; trace := trace s |}.

Definition setCurrentOutputTranscriptionRef v (s : State) : State :=
  {| status := status s; conversation := conversation s; error := error s;
     sessionPromiseRef := sessionPromiseRef s;
     inputAudioContextRef := inputAudioContextRef s;
     outputAudioContextRef := outputAudioContextRef s;
     microphoneStreamRef := microphoneStreamRef s;
     scriptProcessorRef := scriptProcessorRef s;
     currentInputTranscriptionRef := currentInputTranscriptionRef s;
     currentOutputTranscriptionRef := v;
     nextStartTimeRef := nextStartTimeRef s;
     audioSourcesRef := audioSourcesRef s; audioBuffers := audioBuffers s;
     nextSource := nextSource s; trace := trace s |}.

Definition setNextStartTimeRef v (s : State) : State :=
  {| status := status s; conversation := conversation s; error := error s;
     sessionPromiseRef := sessionPromiseRef s;
     inputAudioContextRef := inputAudioContextRef s;
     outputAudioContextRef := outputAudioContextRef s;
     microphoneStreamRef := microphoneStreamRef s;
     scriptProcessorRef := scriptProcessorRef s;
     currentInputTranscriptionRef := currentInputTranscriptionRef s;
     currentOutputTranscriptionRef := currentOutputTranscriptionRef s;
     nextStartTimeRef := v; audioSourcesRef := audioSourcesRef s;
     audioBuffers := audioBuffers s; nextSource := nextSource s;
     trace := trace s |}.

Definition setAudioSourcesRef v (s : State) : State :=
  {| status := status s; conversation := conversation s; error := error s;
     sessionPromiseRef := sessionPromiseRef s;
     inputAudioContextRef := inputAudioContextRef s;
     outputAudioContextRef := outputAudioContextRef s;
     microphoneStreamRef := microphoneStreamRef s;
     scriptProcessorRef := scriptProcessorRef s;
     currentInputTranscriptionRef := currentInputTranscriptionRef s;
     currentOutputTranscriptionRef := currentOutputTranscriptionRef s;
     nextStartTimeRef := nextStartTimeRef s; audioSourcesRef := v;
     audioBuffers := audioBuffers s; nextSource := nextSource s;
     trace := trace s |}.

Definition setAudioBuffers v (s : State) : State :=
  {| status := status s; conversation := conversation s; error := error s;
     sessionPromiseRef := sessionPromiseRef s;
     inputAudioContextRef := inputAudioContextRef s;
     outputAudioContextRef := outputAudioContextRef s;
     microphoneStreamRef := microphoneStreamRef s;
     scriptProcessorRef := scriptProcessorRef s;
     currentInputTranscriptionRef := currentInputTranscriptionRef s;
     currentOutputTranscriptionRef := currentOutputTranscriptionRef s;
     nextStartTimeRef := nextStartTimeRef s;
     audioSourcesRef := audioSourcesRef s; audioBuffers := v;
     nextSource := nextSource s; trace := trace s |}.

Definition setNextSource v (s : State) : State :=
  {| status := status s; conversation := conversation s; error := error s;
     sessionPromiseRef := sessionPromiseRef s;
     inputAudioContextRef := inputAudioContextRef s;
     outputAudioContextRef := outputAudioContextRef s;
     microphoneStreamRef := microphoneStreamRef s;
     scriptProcessorRef := scriptProcessorRef s;
     currentInputTranscriptionRef := currentInputTranscriptionRef s;
     currentOutputTranscriptionRef := currentOutputTranscriptionRef s;
     nextStartTimeRef := nextStartTimeRef s;
     audioSourcesRef := audioSourcesRef s; audioBuffers := audioBuffers s;
     nextSource := v; trace := trace s |}.

Definition setTrace v (s : State) : State :=
  {| status := status s; conversation := conversation s; error := error s;
     sessionPromiseRef := sessionPromiseRef s;
     inputAudioContextRef := inputAudioContextRef s;
     outputAudioContextRef := outputAudioContextRef s;
     microphoneStreamRef := microphoneStreamRef s;
     scriptProcessorRef := scriptProcessorRef s;
     currentInputTranscriptionRef := currentInputTranscriptionRef s;
     currentOutputTranscriptionRef := currentOutputTranscriptionRef s;
     nextStartTimeRef := nextStartTimeRef s;
     audioSourcesRef := audioSourcesRef s; audioBuffers := audioBuffers s;
     nextSource := nextSource s; trace := v |}.

Definition emit (e : Effect) (s : State) : State := setTrace (trace s ++ [e]) s.

(** ** Control flow of a handler body

    A statement runs on the state and completes normally, by [return], or by
    throwing; what it did to the state before stays done. *)

Inductive Completion (A : Type) : Type :=
| Normal (a : A)
| Return
| Throw (e : JsError).

Arguments Normal {A} a.
Arguments Return {A}.
Arguments Throw {A} e.

Definition M (A : Type) : Type := State -> State * Completion A.

Definition ret {A} (a : A) : M A := fun s => (s, Normal a).

Definition bind {A B} (m : M A) (k : A -> M B) : M B :=
  fun s =>
    match m s with
    | (s', Normal a) => k a s'
    | (s', Return) => (s', Return)
    | (s', Throw e) => (s', Throw e)
    end.

Definition throw {A} (e : JsError) : M A := fun s => (s, Throw e).
Definition return_ {A} : M A := fun s => (s, Return).
Definition get : M State := fun s => (s, Normal s).
Definition modify (f : State -> State) : M unit := fun s => (f s, Normal tt).

Notation "x <- m ;; k" := (bind m (fun x => k))
  (at level 61, m at next level, right associativity).
Notation "m ;; k" := (bind m (fun _ => k))
  (at level 61, right associativity).

Definition when (b : bool) (m : M unit) : M unit := if b then m else ret tt.

Definition lift {A} (r : Result A) : M A :=
  match r with Ok a => ret a | Raise e => throw e end.

(** A [for ... of] loop over an array. *)
Fixpoint forOf {A} (l : list A) (body : A -> M unit) : M unit :=
  match l with
  | [] => ret tt
  | a :: rest => body a ;; forOf rest body
  end.

(** ** JavaScript values *)

(** A string is truthy when it is not empty; an absent value is falsy. *)
Definition truthy (s : string) : bool :=
  match s with EmptyString => false | String _ _ => true end.

Definition truthyOpt (o : option string) : bool :=
  match o with Some s => truthy s | None => false end.

Definition isTrue (o : option bool) : bool :=
  match o with Some b => b | None => false end.

(** [acc += text]: an absent text is appended as the word [undefined]. *)
Definition textOf (t : Transcription) : string :=
  match tr_text t with Some s => s | None => "undefined" end.

(** White space and line terminators below 256: TAB, LF, VT, FF, CR, SPACE
    and NBSP. *)
Definition isWhiteSpace (c : ascii) : bool :=
  let n := N_of_ascii c in
  ((n =? 9) || (n =? 10) || (n =? 11) || (n =? 12) || (n =? 13)
   || (n =? 32) || (n =? 160))%N.

Fixpoint trimStart (s : string) : string :=
  match s with
  | EmptyString => EmptyString
  | String c rest => if isWhiteSpace c then trimStart rest else s
  end.

Fixpoint trimEnd (s : string) : string :=
  match s with
  | EmptyString => EmptyString
  | String c rest =>
      match trimEnd rest with
      | EmptyString => if isWhiteSpace c then EmptyString else String c EmptyString
      | kept => String c kept
      end
  end.

Definition trim (s : string) : string := trimEnd (trimStart s).

Definition eqOptString (o : option string) (s : string) : bool :=
  match o with Some x => String.eqb x s | None => false end.

(** [array[i] = v] for an index inside the array. *)
Fixpoint assignAt {A} (i : nat) (v : A) (l : list A) : list A :=
  match l, i with
  | [], _ => []
  | _ :: rest, O => v :: rest
  | a :: rest, S j => a :: assignAt j v rest
  end.

(** A [Set] of source nodes, in insertion order (the order [forEach]
    visits). *)
Definition setAdd (x : nat) (l : list nat) : list nat :=
  if existsb (Nat.eqb x) l then l else l ++ [x].

Definition setDelete (x : nat) (l : list nat) : list nat :=
  filter (fun y => negb (Nat.eqb x y)) l.

(** ** The sound service *)

Definition soundLibrary : list string := ["sparkle"; "thump"; "whoosh"].

Definition isPreloaded (soundName : string) (s : State) : bool :=
  existsb (String.eqb soundName) (audioBuffers s).

(** [decodable] tells which assets the browser manages to decode; a failure
    is logged and the loop goes on. *)
Definition preloadSounds (decodable : list string) (s : State) : State :=
  fold_left
    (fun s soundName =>
       if isPreloaded soundName s then s
       else if existsb (String.eqb soundName) decodable
            then setAudioBuffers (audioBuffers s ++ [soundName]) s
            else s)
    soundLibrary s.

Definition isRunning (ctx : AudioContext) : bool :=
  match ctx_state ctx with running => true | _ => false end.

Definition isClosed (ctx : AudioContext) : bool :=
  match ctx_state ctx with closed => true | _ => false end.

(** The cache is a plain object: a name it has not stored can still name a
    property every object inherits, and reading that gives a value that is
    truthy and is no audio buffer. *)
Definition inheritedKeys : list string :=
  ["constructor"; "hasOwnProperty"; "isPrototypeOf"; "propertyIsEnumerable";
   "toLocaleString"; "toString"; "valueOf"; "__proto__";
   "__defineGetter__"; "__defineSetter__"; "__lookupGetter__"; "__lookupSetter__"].

Definition isInherited (soundName : string) : bool :=
  existsb (String.eqb soundName) inheritedKeys.

(** One one-shot source when the buffer is there and the sink runs; a
    warning when the sink does not run or nothing is found.  Assigning what
    is not an audio buffer to [source.buffer] throws. *)
Definition playSound (soundName : string) (ctx : AudioContext) : M unit :=
  s <- get ;;
  if isPreloaded soundName s then
    (if isRunning ctx then modify (emit (PlaySound soundName)) else ret tt)
  else if isInherited soundName then
    (if isRunning ctx then throw TypeError else ret tt)
  else ret tt.

(** ** useStoryteller.ts *)

Definition setConversation (updater : list Turn -> list Turn) (s : State) : State :=
  putConversation (updater (conversation s)) s.

(** [close()] is recorded in the trace, and the sink counts as closed from
    then on. *)
Definition closeContext (ctx : AudioContext) : AudioContext :=
  {| ctx_state := closed; ctx_rate := ctx_rate ctx |}.

(** Lines 24-49.  None of the calls made here throws on what the refs can
    hold: tracks and nodes can always be stopped and disconnected, [close]
    and [then] answer with promises, and every source in the playback set
    has been started (line 146 comes before line 148), so that [stop] is
    allowed on it. *)
Definition cleanup (s : State) : State :=
  let s := match microphoneStreamRef s with
           | Some _ => setMicrophoneStreamRef None (emit TrackStop s)
           | None => s
           end in
  let s := match scriptProcessorRef s with
           | Some _ => setScriptProcessorRef None (emit ProcessorDisconnect s)
           | None => s
           end in
  let s := match inputAudioContextRef s with
           | Some ctx =>
               if isClosed ctx then s
               else setInputAudioContextRef (Some (closeContext ctx))
                                            (emit (ContextClose InputSink) s)
           | None => s
           end in
  let s := match outputAudioContextRef s with
           | Some ctx =>
               if isClosed ctx then s
               else setOutputAudioContextRef (Some (closeContext ctx))
                                             (emit (ContextClose OutputSink) s)
           | None => s
           end in
  let s := fold_left (fun s source => emit (SourceStop source) s)
                     (audioSourcesRef s) s in
  let s := setAudioSourcesRef [] s in
  let s := setNextStartTimeRef 0 s in
  let s := match sessionPromiseRef s with
           | Some session => emit (SessionThen session Close) s
           | None => s
           end in
  let s := setSessionPromiseRef None s in
  let s := setStatus IDLE s in
  setError None s.

Definition stopSession (s : State) : State := cleanup s.

(** Lines 58-77: tool calls for sound effects. *)
Definition handleFunctionCall (fc : FunctionCall) : M unit :=
  s <- get ;;
  match outputAudioContextRef s with
  | Some outputAudioContext =>
      if eqOptString (fc_name fc) "playSoundEffect" then
        match fc_args fc with
        | None => throw TypeError
        | Some args =>
            match sound args with
            | Some soundName =>
                when (truthy soundName) (playSound soundName outputAudioContext)
            | None => ret tt
            end ;;
            s <- get ;;
            match sessionPromiseRef s with
            | Some session =>
                modify (emit (SessionThen session
                                (SendToolResponse (fc_id fc) (fc_name fc) "ok")))
            | None => ret tt
            end
        end
      else ret tt
  | None => ret tt
  end.

Definition handleToolCall (message : LiveServerMessage) : M unit :=
  match toolCall message with
  | None => ret tt
  | Some tc =>
      match functionCalls tc with
      | None => throw TypeError
      | Some calls => forOf calls handleFunctionCall
      end
  end.

(** The updater of line 86. *)
Definition showUserSpeech (transcript : string) (prev : list Turn) : list Turn :=
  match nth_error prev (length prev - 1) with
  | Some lastTurn =>
      if is_user (speaker lastTurn)
      then removelast prev ++ [{| speaker := user; text := transcript |}]
      else prev ++ [{| speaker := user; text := transcript |}]
  | None => prev ++ [{| speaker := user; text := transcript |}]
  end.

(** Lines 79-93: transcription deltas. *)
Definition handleTranscription (message : LiveServerMessage) : M unit :=
  match serverContent message with
  | None => ret tt
  | Some content =>
      match outputTranscription content with
      | Some transcription =>
          modify (fun s =>
            setCurrentOutputTranscriptionRef
              (currentOutputTranscriptionRef s ++ textOf transcription)%string s)
      | None =>
          match inputTranscription content with
          | Some transcription =>
              modify (fun s =>
                setCurrentInputTranscriptionRef
                  (currentInputTranscriptionRef s ++ textOf transcription)%string s) ;;
              modify (fun s =>
                setConversation (showUserSpeech (currentInputTranscriptionRef s)) s)
          | None => ret tt
          end
      end
  end.

(** The updater of line 100. *)
Definition finishTurn (userInput aiResponse : string) (prev : list Turn) : list Turn :=
  let updatedConversation := prev in
  let updatedConversation :=
    if truthy userInput && (0 <? length updatedConversation)%nat then
      let lastTurnIndex := (length updatedConversation - 1)%nat in
      match nth_error updatedConversation lastTurnIndex with
      | Some lastTurn =>
          if is_user (speaker lastTurn)
          then assignAt lastTurnIndex
                        {| speaker := speaker lastTurn; text := userInput |}
                        updatedConversation
          else updatedConversation
      | None => updatedConversation
      end
    else updatedConversation in
  if truthy aiResponse
  then updatedConversation ++ [{| speaker := ai; text := aiResponse |}]
  else updatedConversation.

(** Lines 95-122: the turn is complete. *)
Definition handleTurnComplete (message : LiveServerMessage) : M unit :=
  match serverContent message with
  | None => ret tt
  | Some content =>
      when (isTrue (turnComplete content))
        (s <- get ;;
         let userInput := trim (currentInputTranscriptionRef s) in
         let aiResponse := trim (currentOutputTranscriptionRef s) in
         modify (setConversation (finishTurn userInput aiResponse)) ;;
         modify (setCurrentInputTranscriptionRef "") ;;
         modify (setCurrentOutputTranscriptionRef "") ;;
         modify (setStatus LISTENING))
  end.

(** [message.serverContent?.modelTurn?.parts[0]?.inlineData?.data]: only the
    index into [parts] is unguarded. *)
Definition base64AudioOf (message : LiveServerMessage) : M (option string) :=
  match serverContent message with
  | None => ret None
  | Some content =>
      match modelTurn content with
      | None => ret None
      | Some turn =>
          match parts turn with
          | None => throw TypeError
          | Some [] => ret None
          | Some (part :: _) =>
              match inlineData part with
              | None => ret None
              | Some blob => ret (data blob)
              end
          end
      end
  end.

(** Lines 133-148: the fragment starts at the cursor or now, whichever is
    later, and the cursor moves past it. *)
Definition scheduleNext (now : Q) (audioBuffer : AudioBuffer) : M unit :=
  modify (fun s => setNextStartTimeRef (Qmax (nextStartTimeRef s) now) s) ;;
  s <- get ;;
  let source := nextSource s in
  modify (setNextSource (S source)) ;;
  modify (emit (SourceStart source (nextStartTimeRef s) audioBuffer)) ;;
  modify (fun s => setNextStartTimeRef (nextStartTimeRef s + duration audioBuffer) s) ;;
  modify (fun s => setAudioSourcesRef (setAdd source (audioSourcesRef s)) s).

(** Lines 124-149: an audio fragment.  [now] is the reading of the output
    clock.  The buffer asked of the sink has one channel at 24000 Hz, which
    every browser accepts: the outcome is the one on [leastEngine] whatever
    the browser ([decodeAudioData_on_every_engine]). *)
Definition handleAudio (now : Q) (message : LiveServerMessage) : M unit :=
  base64Audio <- base64AudioOf message ;;
  match base64Audio with
  | Some base64 =>
      when (truthy base64)
        (modify (setStatus SPEAKING) ;;
         s <- get ;;
         match outputAudioContextRef s with
         | None => return_
         | Some outputAudioContext =>
             bytes <- lift (decode base64) ;;
             audioBuffer <- lift (decodeAudioData (freshArray bytes) leastEngine 24000 1) ;;
             scheduleNext now audioBuffer
         end)
  | None => ret tt
  end.

(** Lines 151-155: barge-in. *)
Definition interrupt (s : State) : State :=
  let s := fold_left (fun s source => emit (SourceStop source) s)
                     (audioSourcesRef s) s in
  let s := setAudioSourcesRef [] s in
  setNextStartTimeRef 0 s.

Definition handleInterrupted (message : LiveServerMessage) : M unit :=
  match serverContent message with
  | None => ret tt
  | Some content => when (isTrue (interrupted content)) (modify interrupt)
  end.

Definition processingError : string :=
  "An error occurred while processing the AI's response. Please try again.".

Definition tryBlock (now : Q) (message : LiveServerMessage) : M unit :=
  handleToolCall message ;;
  handleTranscription message ;;
  handleTurnComplete message ;;
  handleAudio now message ;;
  handleInterrupted message.

Definition catchBlock (s : State) : State :=
  let s := setError (Some processingError) s in
  let s := setStatus ERROR s in
  cleanup s.

Definition handleMessage (now : Q) (message : LiveServerMessage) (s : State) : State :=
  match tryBlock now message s with
  | (s', Throw _) => catchBlock s'
  | (s', _) => s'
  end.

(** The listener of line 139, for the source that ended. *)
Definition sourceEnded (source : nat) (s : State) : State :=
  let s := setAudioSourcesRef (setDelete source (audioSourcesRef s)) s in
  match audioSourcesRef s with
  | [] => setStatus LISTENING s
  | _ => s
  end.

(** *** Starting a session

    What the browser and the network do during one [startSession]: the
    first call that fails, if any, with the [name] of the error it raises;
    the state in which the new output sink comes up; the assets that decode;
    the identity of the session promise. *)

Inductive StartStage : Type :=
| GetUserMedia | NewInputContext | NewOutputContext | Resume | CreateSession.

Record StartEnv : Type := mkStartEnv {
  failsAt : option (StartStage * string);
  outputInitially : AudioContextState;
  decodable : list string;
  newSession : nat
}.

Definition stage_eqb (a b : StartStage) : bool :=
  match a, b with
  | GetUserMedia, GetUserMedia | NewInputContext, NewInputContext
  | NewOutputContext, NewOutputContext | Resume, Resume
  | CreateSession, CreateSession => true
  | _, _ => false
  end.

Definition failure (env : StartEnv) (stage : StartStage) : option string :=
  match failsAt env with
  | Some (st, name) => if stage_eqb st stage then Some name else None
  | None => None
  end.

Definition microphoneError : string :=
  "Could not access microphone. Please grant permission and try again.".
Definition setupError : string :=
  "Something went wrong while setting up the storyteller. Please try again.".
Definition sessionError : string :=
  "An error occurred with the AI storyteller. Please try again.".
Definition connectionError : string :=
  "Could not connect to the storyteller. Please check your internet connection and try again.".

(** The [catch] of [startSession]: no teardown here. *)
Definition startFailed (name : string) (s : State) : State :=
  let s := if String.eqb name "NotAllowedError" || String.eqb name "NotFoundError"
           then setError (Some microphoneError) s
           else setError (Some setupError) s in
  setStatus ERROR s.

Definition startSession (env : StartEnv) (s : State) : State :=
  let s := setError None s in
  match status s with
  | IDLE | ERROR =>
      match failure env GetUserMedia with
      | Some name => startFailed name s
      | None =>
      let s := setMicrophoneStreamRef (Some Microphone) s in
      match failure env NewInputContext with
      | Some name => startFailed name s
      | None =>
      let s := setInputAudioContextRef
                 (Some {| ctx_state := running; ctx_rate := 16000 |}) s in
      match failure env NewOutputContext with
      | Some name => startFailed name s
      | None =>
      let s := setOutputAudioContextRef
                 (Some {| ctx_state := outputInitially env; ctx_rate := 24000 |}) s in
      match (match outputInitially env with
             | suspended => failure env Resume
             | _ => None
             end) with
      | Some name => startFailed name s
      | None =>
      let s := match outputInitially env with
               | suspended =>
                   setOutputAudioContextRef
                     (Some {| ctx_state := running; ctx_rate := 24000 |}) s
               | _ => s
               end in
      let s := preloadSounds (decodable env) s in
      let s := setConversation (fun _ => []) s in
      match failure env CreateSession with
      | Some name => startFailed name s
      | None => setSessionPromiseRef (Some (newSession env)) s
      end end end end end
  | _ => s
  end.

(** *** The callbacks given to the session *)

Definition onOpen (s : State) : State :=
  match inputAudioContextRef s, microphoneStreamRef s with
  | Some _, Some _ =>
      let s := setScriptProcessorRef (Some ScriptProcessor) s in
      setStatus LISTENING s
  | _, _ => s
  end.

(** [onaudioprocess]: one captured frame. *)
Definition onAudioProcess (inputData : list Q) (s : State) : State :=
  let pcmBlob := createBlob inputData in
  match sessionPromiseRef s with
  | Some session => emit (SessionThen session (SendRealtimeInput pcmBlob)) s
  | None => s
  end.

Definition onError (s : State) : State :=
  let s := setError (Some sessionError) s in
  let s := setStatus ERROR s in
  cleanup s.

Definition onClose (s : State) : State := cleanup s.

(** The [catch] on the session promise. *)
Definition onConnectionError (s : State) : State :=
  let s := setError (Some connectionError) s in
  let s := setStatus ERROR s in
  cleanup s.

(** ** The orchestrator as a transition system *)

Inductive Event : Type :=
| Start (env : StartEnv)
| Stop
| Open
| Message (now : Q) (message : LiveServerMessage)
| AudioFrame (inputData : list Q)
| SessionError
| SessionClosed
| ConnectionFailed
| Ended (source : nat).

Definition step (e : Event) (s : State) : State :=
  match e with
  | Start env => startSession env s
  | Stop => stopSession s
  | Open => onOpen s
  | Message now message => handleMessage now message s
  | AudioFrame inputData => onAudioProcess inputData s
  | SessionError => onError s
  | SessionClosed => onClose s
  | ConnectionFailed => onConnectionError s
  | Ended source => sourceEnded source s
  end.

Definition run (events : list Event) (s : State) : State :=
  fold_left (fun s e => step e s) events s.

(** The messages of the channel contract. *)

Definition contentMessage (content : LiveServerContent) : LiveServerMessage :=
  {| toolCall := None; serverContent := Some content |}.

Definition inputDelta (delta : string) : LiveServerMessage :=
  contentMessage
    {| outputTranscription := None;
       inputTranscription := Some {| tr_text := Some delta |};
       turnComplete := None; modelTurn := None; interrupted := None |}.

Definition outputDelta (delta : string) : LiveServerMessage :=
  contentMessage
    {| outputTranscription := Some {| tr_text := Some delta |};
       inputTranscription := None;
       turnComplete := None; modelTurn := None; interrupted := None |}.

Definition turnCompleteSignal : LiveServerMessage :=
  contentMessage
    {| outputTranscription := None; inputTranscription := None;
       turnComplete := Some true; modelTurn := None; interrupted := None |}.

Definition interruptedSignal : LiveServerMessage :=
  contentMessage
    {| outputTranscription := None; inputTranscription := None;
       turnComplete := None; modelTurn := None; interrupted := Some true |}.

Definition audioFragment (base64 : string) : LiveServerMessage :=
  contentMessage
    {| outputTranscription := None; inputTranscription := None;
       turnComplete := None;
       modelTurn := Some {| parts := Some [ {| inlineData :=
                       Some {| data := Some base64; mimeType := None |} |} ] |};
       interrupted := None |}.

Definition playSoundEffectCall (id soundName : string) : LiveServerMessage :=
  {| toolCall := Some {| functionCalls := Some
       [ {| fc_id := Some id; fc_name := Some "playSoundEffect";
            fc_args := Some {| sound := Some soundName |} |} ] |};
     serverContent := None |}.

(** ** Composites the properties speak of *)

(** Channel 0 of what [decodeAudioData] makes of the bytes [decode] finds in
    the blob of [createBlob], as the hook calls them (24000 Hz, one
    channel). *)
Definition pcmRoundTrip (samples : list Q) : Result (list Q) :=
  match data (createBlob samples) with
  | None => Raise TypeError
  | Some base64 =>
      match decode base64 with
      | Raise e => Raise e
      | Ok bytes =>
          match decodeAudioData (freshArray bytes) leastEngine 24000 1 with
          | Raise e => Raise e
          | Ok buffer => Ok (nth 0 (channels buffer) [])
          end
      end
  end.

(** The calls one teardown makes, in order. *)
Definition closeEffect (which : Sink) (ref : option AudioContext) : list Effect :=
  match ref with
  | Some ctx => if isClosed ctx then [] else [ContextClose which]
  | None => []
  end.

Definition cleanupEffects (s : State) : list Effect :=
  (match microphoneStreamRef s with Some _ => [TrackStop] | None => [] end)
  ++ (match scriptProcessorRef s with Some _ => [ProcessorDisconnect] | None => [] end)
  ++ closeEffect InputSink (inputAudioContextRef s)
  ++ closeEffect OutputSink (outputAudioContextRef s)
  ++ map SourceStop (audioSourcesRef s)
  ++ (match sessionPromiseRef s with
      | Some session => [SessionThen session Close]
      | None => []
      end).

(** What teardown leaves in a sink ref: the same object, closed. *)
Definition afterClose (ref : option AudioContext) : option AudioContext :=
  match ref with
  | Some ctx => Some (if isClosed ctx then ctx else closeContext ctx)
  | None => None
  end.

(** A sink ref after teardown: still set if it was, and closed. *)
Definition sinkClosed (ref : option AudioContext) : Prop :=
  match ref with Some ctx => ctx_state ctx = closed | None => True end.

(** Full teardown has been performed on [s]: microphone and processing node
    released, both sinks closed, playback set cleared, cursor reset, session
    handle discarded. *)
Definition tornDown (s : State) : Prop :=
  microphoneStreamRef s = None
  /\ scriptProcessorRef s = None
  /\ sinkClosed (inputAudioContextRef s)
  /\ sinkClosed (outputAudioContextRef s)
  /\ audioSourcesRef s = []
  /\ nextStartTimeRef s = 0
  /\ sessionPromiseRef s = None.

(** The acknowledgments and the playbacks among some calls. *)
Definition acknowledgments (effects : list Effect) : list (nat * SessionCall) :=
  flat_map (fun e => match e with
                     | SessionThen session (SendToolResponse id name result) =>
                         [(session, SendToolResponse id name result)]
                     | _ => []
                     end) effects.

Definition playbacks (effects : list Effect) : list string :=
  flat_map (fun e => match e with PlaySound soundName => [soundName] | _ => [] end)
           effects.

(** The entry a completed turn appends for the AI, if any. *)
Definition aiEntry (transcript : string) : list Turn :=
  if truthy (trim transcript)
  then [{| speaker := ai; text := trim transcript |}]
  else [].

(** A message without its user delta. *)
Definition withoutInputTranscription (message : LiveServerMessage) : LiveServerMessage :=
  {| toolCall := toolCall message;
     serverContent :=
       match serverContent message with
       | Some content =>
           Some {| outputTranscription := outputTranscription content;
                   inputTranscription := None;
                   turnComplete := turnComplete content;
                   modelTurn := modelTurn content;
                   interrupted := interrupted content |}
       | None => None
       end |}.

(** Successive [scheduleNext] calls, each with the clock reading at the
    call. *)
Definition scheduleAll (calls : list (Q * AudioBuffer)) (s : State) : State :=
  fold_left (fun s call => fst (scheduleNext (fst call) (snd call) s)) calls s.

(** A statement changes the state only along [R]. *)
Definition keeps (R : State -> State -> Prop) {A} (m : M A) : Prop :=
  forall s, R s (fst (m s)).

(** The status/error pairing of the data model. *)
Definition consistent (s : State) : Prop :=
  status s = ERROR <-> error s <> None.

(** States at rest: some handlers have run, one after the other, from the
    initial state. *)
Definition atRest (s : State) : Prop :=
  exists events, s = run events initialState.

(** A start in which some call fails: the resume of the output sink is only
    called on a sink that comes up suspended. *)
Definition startFails (env : StartEnv) : bool :=
  match failsAt env with
  | Some (Resume, _) =>
      match outputInitially env with suspended => true | _ => false end
  | Some _ => true
  | None => false
  end.

Definition isError (st : StorytellerStatus) : bool :=
  match st with ERROR => true | _ => false end.

(** The handlers that write one of the two cells, status and message, and
    not the other: a start in which nothing fails (it clears the message and
    sets no status); the open signal when the microphone and the input sink
    are held, a message whose handling does not throw and sets a status, the
    end of the last source of the playback set (they set a status and leave
    the message). *)
Definition unsettles (e : Event) (s : State) : bool :=
  match e with
  | Start env => negb (startFails env)
  | Open =>
      match inputAudioContextRef s, microphoneStreamRef s with
      | Some _, Some _ => true
      | _, _ => false
      end
  | Message now message =>
      match tryBlock now message s with
      | (_, Throw _) => false
      | (s', _) => negb (isError (status s'))
      end
  | Ended source =>
      match setDelete source (audioSourcesRef s) with [] => true | _ => false end
  | _ => false
  end.

(** States at rest when no such handler has run while the status was
    [ERROR]. *)
Inductive atRestGuarded : State -> Prop :=
| guarded_initial : atRestGuarded initialState
| guarded_step (e : Event) (s : State) :
    atRestGuarded s ->
    (status s = ERROR -> unsettles e s = false) ->
    atRestGuarded (step e s).

(** Environments and states used in examples. *)
Definition allGood : StartEnv :=
  {| failsAt := None; outputInitially := running;
     decodable := soundLibrary; newSession := 1%nat |}.

Definition microphoneDenied : StartEnv :=
  {| failsAt := Some (GetUserMedia, "NotAllowedError"); outputInitially := running;
     decodable := soundLibrary; newSession := 1%nat |}.

Definition liveState : State := run [Start allGood; Open] initialState.

(** Three ways a statement can be confined: it only adds calls to the trace;
    it leaves the transcripts and the log alone; it leaves the error message
    alone and moves the status, if at all, to [LISTENING] or [SPEAKING]. *)
Definition onlyTrace (s s' : State) : Prop :=
  exists calls, s' = setTrace (trace s ++ calls) s.

Definition sameTranscripts (s s' : State) : Prop :=
  currentInputTranscriptionRef s' = currentInputTranscriptionRef s
  /\ currentOutputTranscriptionRef s' = currentOutputTranscriptionRef s
  /\ conversation s' = conversation s.

Definition sameError (s s' : State) : Prop :=
  error s' = error s
  /\ (status s' = status s \/ status s' = LISTENING \/ status s' = SPEAKING).

(** The user turn and the AI deltas of the specification's example. *)
Definition dragonEvents : list Event :=
  [Message 0 (inputDelta "Once "); Message 0 (inputDelta "upon ");
   Message 0 (inputDelta "a time"); Message 0 turnCompleteSignal;
   Message 0 (outputDelta "The dragon"); Message 0 (outputDelta " smiled.")].

Definition bothDeltas (aiText userText : string) : LiveServerMessage :=
  contentMessage
    {| outputTranscription := Some {| tr_text := Some aiText |};
       inputTranscription := Some {| tr_text := Some userText |};
       turnComplete := None; modelTurn := None; interrupted := None |}.

(** The same message at the end of a turn. *)
Definition bothDeltasAtTurnEnd (aiText userText : string) : LiveServerMessage :=
  contentMessage
    {| outputTranscription := Some {| tr_text := Some aiText |};
       inputTranscription := Some {| tr_text := Some userText |};
       turnComplete := Some true; modelTurn := None; interrupted := None |}.

(** The calls one [playSoundEffect] call leads to when a sink and a session
    handle are there. *)
Definition soundCallEffects (id soundName : string) (ctx : AudioContext)
           (session : nat) (s : State) : list Effect :=
  (if truthy soundName && (isPreloaded soundName s && isRunning ctx)
   then [PlaySound soundName] else [])
  ++ [SessionThen session (SendToolResponse (Some id) (Some "playSoundEffect") "ok")].

(** Buffers of 100 and 50 frames at 24000 Hz, for examples. *)
Definition bufferOf (frames : nat) : AudioBuffer :=
  {| numberOfChannels := 1; frameLength := frames; sampleRate := 24000;
     channels := [repeat 0 frames] |}.



(** A model turn that carries no [parts]. *)
Definition emptyModelTurn : LiveServerMessage :=
  contentMessage
    {| outputTranscription := None; inputTranscription := None;
       turnComplete := None; modelTurn := Some {| parts := None |};
       interrupted := None |}.

(** ** The interface (App)

    The control button starts a session when the status is [IDLE] or
    [ERROR] and stops it otherwise, and is disabled in [ERROR]; the error
    dialog, whose only button resets through [stopSession], is shown when
    the status is [ERROR] and there is a message. *)

Definition isIdle (st : StorytellerStatus) : bool :=
  match st with IDLE | ERROR => true | _ => false end.

Definition handleClick (env : StartEnv) (s : State) : State :=
  if isIdle (status s) then startSession env s else stopSession s.

Definition buttonDisabled (s : State) : bool :=
  match status s with ERROR => true | _ => false end.

Definition errorModalShown (s : State) : bool :=
  match status s with ERROR => truthyOpt (error s) | _ => false end.

(** What can happen to the mounted application: a press on the control
    button (nothing if it is disabled), a press on the reset of the dialog
    (if it is shown), or one of the callbacks of the session and of the audio
    graph. *)
Inductive Happening : Type :=
| PressButton (env : StartEnv)
| PressReset
| Incoming (e : Event).

Definition isCallback (e : Event) : bool :=
  match e with Start _ | Stop => false | _ => true end.

Definition happen (h : Happening) (s : State) : State :=
  match h with
  | PressButton env => if buttonDisabled s then s else handleClick env s
  | PressReset => if errorModalShown s then stopSession s else s
  | Incoming e => if isCallback e then step e s else s
  end.

Definition appRun (happenings : list Happening) (s : State) : State :=
  fold_left (fun s h => happen h s) happenings s.

(** ** More composites the properties speak of *)

(** The message the [catch] of [startSession] shows for an error name. *)
Definition startErrorMessage (name : string) : string :=
  if String.eqb name "NotAllowedError" || String.eqb name "NotFoundError"
  then microphoneError else setupError.

(** The log of [s'] keeps every entry of the log of [s] but the last, in
    place, and is not shorter. *)
Definition extendsLog (s s' : State) : Prop :=
  exists tail,
    conversation s' = removelast (conversation s) ++ tail
    /\ (conversation s <> [] -> tail <> []).

(** The sources in the playback set are distinct, and older than the next
    one to be created. *)
Definition playbackSetFresh (s : State) : Prop :=
  NoDup (audioSourcesRef s)
  /\ Forall (fun source => (source < nextSource s)%nat) (audioSourcesRef s).

Definition preserves (P : State -> Prop) (s s' : State) : Prop := P s -> P s'.

(** A tool-call message with any calls, and one call for a sound. *)
Definition toolCallMessage (calls : list FunctionCall) : LiveServerMessage :=
  {| toolCall := Some {| functionCalls := Some calls |}; serverContent := None |}.

Definition soundCall (id soundName : string) : FunctionCall :=
  {| fc_id := Some id; fc_name := Some "playSoundEffect";
     fc_args := Some {| sound := Some soundName |} |}.

(** Input deltas, each with the clock reading at its handling. *)
Definition inputDeltas (deltas : list (Q * string)) : list Event :=
  map (fun d => Message (fst d) (inputDelta (snd d))) deltas.

Definition userTurn (transcript : string) : Turn :=
  {| speaker := user; text := transcript |}.

(** The deltas of a run, put end to end. *)
Definition joined (deltas : list (Q * string)) : string :=
  fold_right (fun d rest => (snd d ++ rest)%string) "" deltas.

(** A log whose last entry, if any, is not a user turn. *)
Definition noOpenUserTurn (log : list Turn) : Prop :=
  log = [] \/ exists pre lastTurn, log = pre ++ [lastTurn] /\ speaker lastTurn = ai.

(** In [ERROR] there is a message to show. *)
Definition errorIsShown (s : State) : Prop :=
  status s = ERROR -> exists message, error s = Some message /\ truthy message = true.

(** The [ended] events of some sources, in the order they fire. *)
Definition endedEvents (sources : list nat) : list Event := map Ended sources.

Definition notAmong (ended : list nat) (source : nat) : bool :=
  negb (existsb (Nat.eqb source) ended).

(** * Properties *)

(** ** Transport text *)

Module Base64Facts.
Import Base64.

(** Lists are taken three elements at a time. *)
Lemma list_ind3 {A} (P : list A -> Prop) :
  P [] ->
  (forall a, P [a]) ->
  (forall a b, P [a; b]) ->
  (forall a b c l, P l -> P (a :: b :: c :: l)) ->
  forall l, P l.
Proof.
  intros H0 H1 H2 H3.
  assert (H : forall l, P l /\ (forall a, P (a :: l)) /\ (forall a b, P (a :: b :: l))).
  { induction l as [|x l (IH0 & IH1 & IH2)].
    - repeat split; auto.
    - repeat split; auto. }
  intro l. apply H.
Qed.

Lemma b64val_b64char (s : sextet) : b64val (b64char s) = Some s.
Proof.
  destruct s as [[] [] [] [] [] []]; reflexivity.
Qed.

Lemma b64char_not_whitespace (s : sextet) : is_ascii_whitespace (b64char s) = false.
Proof.
  destruct s as [[] [] [] [] [] []]; reflexivity.
Qed.

Lemma b64char_not_pad (s : sextet) : is_pad (b64char s) = false.
Proof.
  destruct s as [[] [] [] [] [] []]; reflexivity.
Qed.

Lemma bytes_of_sextets_of_bytes (l : list ascii) :
  bytes_of_sextets (sextets_of_bytes l) = l.
Proof.
  induction l as [| a | a b | a b c l IH] using list_ind3.
  - reflexivity.
  - destruct a; reflexivity.
  - destruct a, b; reflexivity.
  - destruct a, b, c. cbn [sextets_of_bytes bytes_of_sextets].
    rewrite IH. reflexivity.
Qed.

Lemma sextets_of_text_chars (ss : list sextet) :
  sextets_of_text (map b64char ss) = Some ss.
Proof.
  induction ss as [|s ss IH]; cbn [map sextets_of_text].
  - reflexivity.
  - rewrite b64val_b64char, IH. reflexivity.
Qed.

Lemma padding_step (n : nat) : padding (S (S (S n))) = padding n.
Proof.
  unfold padding.
  replace (S (S (S n))) with (n + 1 * 3)%nat by lia.
  rewrite Nat.Div0.mod_add. reflexivity.
Qed.

(** The text is made of whole groups of four, of which the last carries
    the padding. *)
Lemma btoa_lengths (l : list ascii) :
  ((length (sextets_of_bytes l) + length (padding (length l))) mod 4 = 0
   /\ length (sextets_of_bytes l) mod 4 <> 1
   /\ (padding (length l) <> [] -> sextets_of_bytes l <> []))%nat.
Proof.
  induction l as [| a | a b | a b c l (IH1 & IH2 & IH3)] using list_ind3.
  - repeat split; cbn; try lia. intros H; now elim H.
  - destruct a. repeat split; cbn; try lia. discriminate.
  - destruct a, b. repeat split; cbn; try lia. discriminate.
  - destruct a, b, c. cbn [sextets_of_bytes length].
    rewrite padding_step.
    repeat split.
    + replace (S (S (S (S (length (sextets_of_bytes l)))))
               + length (padding (length l)))%nat
        with ((length (sextets_of_bytes l) + length (padding (length l))) + 1 * 4)%nat
        by lia.
      rewrite Nat.Div0.mod_add. exact IH1.
    + replace (S (S (S (S (length (sextets_of_bytes l))))))
        with (length (sextets_of_bytes l) + 1 * 4)%nat by lia.
      rewrite Nat.Div0.mod_add. exact IH2.
    + discriminate.
Qed.

Lemma padding_cases (n : nat) :
  padding n = [] \/ padding n = ["="%char] \/ padding n = ["="%char; "="%char].
Proof.
  unfold padding. destruct (n mod 3)%nat as [|[|[|k]]]; auto.
Qed.

Lemma filter_all {A} (f : A -> bool) (l : list A) :
  (forall x, In x l -> f x = true) -> filter f l = l.
Proof.
  induction l as [|a l IH]; intros H; cbn [filter].
  - reflexivity.
  - rewrite (H a (or_introl eq_refl)), IH; auto.
    intros x Hx. apply H. now right.
Qed.

Lemma strip_padding_chars (core pad : list ascii) :
  (forall c, In c core -> is_pad c = false) ->
  pad = [] \/ pad = ["="%char] \/ pad = ["="%char; "="%char] ->
  (pad <> [] -> core <> []) ->
  (length (core ++ pad) mod 4 = 0)%nat ->
  strip_padding (core ++ pad) = core.
Proof.
  intros Hcore Hpad Hne Hlen. unfold strip_padding.
  rewrite Hlen. cbn [Nat.eqb].
  destruct Hpad as [-> | [-> | ->]].
  - rewrite app_nil_r.
    destruct (rev core) as [|c1 r] eqn:E; [reflexivity|].
    assert (Hc1 : is_pad c1 = false).
    { apply Hcore. apply in_rev. rewrite E. now left. }
    destruct r; rewrite Hc1; reflexivity.
  - rewrite rev_app_distr. cbn [rev app].
    destruct (rev core) as [|c2 r] eqn:E.
    + exfalso. apply Hne; [discriminate|].
      rewrite <- (rev_involutive core), E. reflexivity.
    + assert (Hc2 : is_pad c2 = false).
      { apply Hcore. apply in_rev. rewrite E. now left. }
      change (is_pad "="%char) with true. cbv iota.
      rewrite Hc2. change (rev (c2 :: r) = core).
      rewrite <- E. apply rev_involutive.
  - rewrite rev_app_distr. cbn [rev app].
    change (is_pad "="%char) with true. cbv iota.
    apply rev_involutive.
Qed.

Lemma atob_btoa_list (l : list ascii) : atob_list (btoa_list l) = Some l.
Proof.
  unfold atob_list, btoa_list.
  destruct (btoa_lengths l) as (Hlen & Hcore & Hne).
  rewrite filter_all.
  2:{ intros x Hx. apply in_app_or in Hx. destruct Hx as [Hx | Hx].
      - apply in_map_iff in Hx. destruct Hx as (s & <- & _).
        now rewrite b64char_not_whitespace.
      - destruct (padding_cases (length l)) as [E | [E | E]];
          rewrite E in Hx; cbn in Hx; intuition (subst; reflexivity). }
  rewrite strip_padding_chars.
  - rewrite length_map.
    destruct (Nat.eqb_spec (length (sextets_of_bytes l) mod 4) 1) as [E | _];
      [contradiction|].
    rewrite sextets_of_text_chars. cbn [option_map].
    now rewrite bytes_of_sextets_of_bytes.
  - intros c Hc. apply in_map_iff in Hc. destruct Hc as (s & <- & _).
    apply b64char_not_pad.
  - apply padding_cases.
  - intros Hp E. apply Hne; [exact Hp|].
    destruct (sextets_of_bytes l); [reflexivity | discriminate].
  - now rewrite length_app, length_map.
Qed.

Lemma atob_btoa (binary : string) : atob (btoa binary) = Some binary.
Proof.
  unfold atob, btoa.
  rewrite list_ascii_of_string_of_list_ascii, atob_btoa_list.
  cbn [option_map]. now rewrite string_of_list_ascii_of_string.
Qed.

End Base64Facts.

(** The loop of [encode] builds the string of the bytes. *)
Lemma binary_of_bytes (bytes : list byte) (acc : string) :
  fold_left (fun binary b => (binary ++ fromCharCode b)%string) bytes acc
  = (acc ++ string_of_list_ascii (map ascii_of_byte bytes))%string.
Proof.
  revert acc. induction bytes as [|b bytes IH]; intros acc; cbn [fold_left map string_of_list_ascii].
  - induction acc as [|c acc IHacc]; cbn; [reflexivity | now rewrite <- IHacc].
  - rewrite IH. unfold fromCharCode.
    induction acc as [|c acc IHacc]; cbn; [reflexivity | now rewrite IHacc].
Qed.

Lemma decode_encode_bytes (bytes : list byte) : decode (encode bytes) = Ok bytes.
Proof.
  unfold decode, encode. rewrite binary_of_bytes. cbn [String.append].
  rewrite Base64Facts.atob_btoa, list_ascii_of_string_of_list_ascii, map_map.
  f_equal. rewrite <- (map_id bytes) at 2. apply map_ext.
  intro b. apply byte_of_ascii_of_byte.
Qed.

Example encode_hello :
  encode [x48; x65; x6c; x6c; x6f]%byte = "SGVsbG8=".
Proof. reflexivity. Qed.

Example decode_forgiving :
  decode "SGVs bG8=" = Ok [x48; x65; x6c; x6c; x6f]%byte
  /\ decode "SGV" = Ok [x48; x65]%byte
  /\ decode "S" = Raise InvalidCharacterError
  /\ decode "S*==" = Raise InvalidCharacterError.
Proof. repeat split; reflexivity. Qed.

(** C8. For every byte sequence, decoding its transport text gives the
    byte sequence back: [decode (encode b)] returns [b]. *)
Theorem transport_text_round_trip (b : list byte) : decode (encode b) = Ok b.
Proof. exact (decode_encode_bytes b). Qed.

(** ** The PCM codec *)

Lemma Z_of_byte_of_Z (z : Z) : Z_of_byte (byte_of_Z z) = (z mod 256)%Z.
Proof.
  unfold Z_of_byte, byte_of_Z.
  assert (Hlt : (Z.to_N (z mod 256) < 256)%N).
  { pose proof (Z.mod_pos_bound z 256 eq_refl). lia. }
  rewrite (Byte.to_of_N (N_of_ascii (ascii_of_N (Z.to_N (z mod 256)))))
    by (symmetry; apply byte_of_ascii_via_N).
  rewrite N_ascii_embedding by exact Hlt.
  pose proof (Z.mod_pos_bound z 256 eq_refl). lia.
Qed.

Lemma toInt16_bytes (v : Z) :
  toInt16 (v mod 256 + 256 * ((v / 256) mod 256)) = toInt16 v.
Proof.
  unfold toInt16. Z.to_euclidean_division_equations. lia.
Qed.

Lemma toInt16_range (z : Z) : (-32768 <= toInt16 z <= 32767)%Z.
Proof.
  unfold toInt16. pose proof (Z.mod_pos_bound (z + 32768) 65536 eq_refl). lia.
Qed.

Lemma toInt16_id (z : Z) : (-32768 <= z <= 32767)%Z -> toInt16 z = z.
Proof.
  intros H. unfold toInt16. rewrite Z.mod_small; lia.
Qed.

(** Reading the byte view of 16-bit elements gives the elements back. *)
Lemma int16View_uint8View (int16 : list Z) :
  int16View (uint8View int16) = Ok (map toInt16 int16).
Proof.
  induction int16 as [|v l IH].
  - reflexivity.
  - cbn [uint8View flat_map app map int16View].
    change (flat_map (fun v => [byte_of_Z v; byte_of_Z (v / 256)]) l)
      with (uint8View l).
    rewrite IH, !Z_of_byte_of_Z, toInt16_bytes. reflexivity.
Qed.

Lemma getChannelData_mono (dataInt16 : list Z) :
  getChannelData dataInt16 1 (length dataInt16) 0
  = map (fun v => inject_Z v / 32768) dataInt16.
Proof.
  unfold getChannelData.
  induction dataInt16 as [|v l IH].
  - reflexivity.
  - cbn [length seq map]. rewrite <- seq_shift, map_map.
    f_equal. rewrite <- IH. apply map_ext. intro i.
    replace (S i * 1 + 0)%nat with (S (i * 1 + 0)) by lia. reflexivity.
Qed.

(** Truncation of a scaled sample of [[-1, 1)]. *)
Lemma truncate_scaled (x : Q) :
  -1 <= x -> x < 1 ->
  (-32768 <= truncate (x * 32768) <= 32767)%Z
  /\ Qabs (inject_Z (truncate (x * 32768)) / 32768 - x) < 1 # 32768.
Proof.
  destruct x as [p d]. intros Hlo Hhi.
  unfold Qle in Hlo. unfold Qlt in Hhi. cbn [Qnum Qden Qopp] in Hlo, Hhi.
  unfold truncate. cbn [Qnum Qden Qmult].
  rewrite Pos.mul_1_r.
  set (n := (p * 32768 ÷ Z.pos d)%Z).
  assert (Hn : (Z.abs (n * Z.pos d - p * 32768) < Z.pos d)%Z
               /\ (-32768 <= n <= 32767)%Z).
  { subst n. Z.to_euclidean_division_equations. nia. }
  destruct Hn as (Hq & Hr). split; [exact Hr|].
  apply Qabs_Qlt_condition.
  unfold Qlt, Qminus, Qplus, Qopp, Qdiv, Qmult, Qinv, inject_Z.
  cbn [Qnum Qden]. cbn [Qnum Qden Z.mul Pos.mul].
  split; nia.
Qed.

(** What [createBlob] stores, and what the receiving side reads in it. *)
Lemma createBlob_read (samples : list Q) :
  let int16 := map (fun x => toInt16 (truncate (x * 32768))) samples in
  data (createBlob samples) = Some (encode (uint8View int16))
  /\ decode (encode (uint8View int16)) = Ok (uint8View int16)
  /\ int16View (uint8View int16) = Ok int16.
Proof.
  cbv zeta. repeat split.
  - apply decode_encode_bytes.
  - rewrite int16View_uint8View, map_map. f_equal.
    apply map_ext. intro x. apply toInt16_id, toInt16_range.
Qed.

(** One channel at 24000 Hz is within what every browser accepts. *)
Lemma createBuffer_on_every_engine (ctx : Engine) (frameCount : nat) :
  conforming ctx ->
  createBuffer ctx 1 frameCount 24000 = createBuffer leastEngine 1 frameCount 24000.
Proof.
  intros (Hc & Hmin & Hmax). unfold createBuffer.
  assert (H1 : (maxChannels ctx <? 1)%nat = false) by (apply Nat.ltb_ge; lia).
  assert (H2 : Qle_bool (minRate ctx) 24000 = true).
  { apply Qle_bool_iff. eapply Qle_trans; [exact Hmin | discriminate]. }
  assert (H3 : Qle_bool 24000 (maxRate ctx) = true).
  { apply Qle_bool_iff. eapply Qle_trans; [|exact Hmax]. discriminate. }
  rewrite H1, H2, H3. reflexivity.
Qed.

Lemma decodeAudioData_on_every_engine (array : Uint8Array) (ctx : Engine) :
  conforming ctx ->
  decodeAudioData array ctx 24000 1 = decodeAudioData array leastEngine 24000 1.
Proof.
  intro Hc. unfold decodeAudioData.
  destruct (int16View (u8_buffer array)); [|reflexivity].
  cbv zeta. now rewrite (createBuffer_on_every_engine ctx _ Hc).
Qed.

Lemma decodeAudioData_mono (int16 : list Z) :
  int16 <> [] ->
  int16View (uint8View int16) = Ok int16 ->
  decodeAudioData (freshArray (uint8View int16)) leastEngine 24000 1
  = Ok {| numberOfChannels := 1; frameLength := length int16;
          sampleRate := 24000;
          channels := [getChannelData int16 1 (length int16) 0] |}.
Proof.
  intros Hne Hview. unfold decodeAudioData. cbn [freshArray u8_buffer].
  rewrite Hview. rewrite Nat.div_1_r.
  destruct int16 as [|v l]; [contradiction|]. reflexivity.
Qed.

(** C6, at the sample 1.  The sample [1] is stored as [-32768] and comes back
    as [-1]: the distance is 2. *)
Lemma pcm_round_trip_wraps_at_one :
  (-1 <= 1 /\ 1 <= 1)
  /\ pcmRoundTrip [1] = Ok [inject_Z (-32768) / 32768]
  /\ inject_Z (-32768) / 32768 == -1
  /\ ~ Qabs (inject_Z (-32768) / 32768 - 1) <= 1 # 32768.
Proof.
  split; [split; discriminate|].
  split; [vm_compute; reflexivity|].
  split; [reflexivity|].
  intro H. vm_compute in H. apply H. reflexivity.
Qed.

(** C6, amended.  For every sample sequence with all values in [[-1, 1)]
    (1 itself left out), the blob of [createBlob] decodes to bytes whose
    16-bit view, normalised as [decodeAudioData] does for one channel, has
    the length of the input and is within 1/32768 of it at every index; for
    a sequence that is not empty this is channel 0 of the buffer
    [decodeAudioData] returns. *)
Theorem pcm_round_trip_below_one (samples : list Q) :
  (forall x, In x samples -> -1 <= x /\ x < 1) ->
  exists base64 bytes dataInt16,
    data (createBlob samples) = Some base64
    /\ decode base64 = Ok bytes
    /\ int16View bytes = Ok dataInt16
    /\ let out := getChannelData dataInt16 1 (length dataInt16) 0 in
       length out = length samples
       /\ (forall i, (i < length samples)%nat ->
             Qabs (nth i out 0 - nth i samples 0) < 1 # 32768)
       /\ (samples <> [] -> pcmRoundTrip samples = Ok out).
Proof.
  intros Hrange.
  destruct (createBlob_read samples) as (Hblob & Hdecode & Hview).
  cbv zeta in Hblob, Hdecode, Hview.
  set (int16 := map (fun x => toInt16 (truncate (x * 32768))) samples) in *.
  exists (encode (uint8View int16)), (uint8View int16), int16.
  repeat split; try assumption.
  - rewrite getChannelData_mono. unfold int16. now rewrite !length_map.
  - intros i Hi. rewrite getChannelData_mono. unfold int16. rewrite map_map.
    set (g := fun x => inject_Z (toInt16 (truncate (x * 32768))) / 32768).
    rewrite (nth_indep (map g samples) 0 (g 0)) by now rewrite length_map.
    rewrite map_nth. unfold g.
    destruct (Hrange (nth i samples 0) (nth_In samples 0 Hi)) as (Hlo & Hhi).
    destruct (truncate_scaled _ Hlo Hhi) as (Hr & Hq).
    rewrite toInt16_id by exact Hr. exact Hq.
  - intros Hne. unfold pcmRoundTrip. rewrite Hblob, Hdecode.
    rewrite decodeAudioData_mono; [reflexivity | | exact Hview].
    unfold int16. destruct samples; [contradiction | discriminate].
Qed.

Lemma pcm_round_trip_below_one_witness :
  exists base64 bytes dataInt16,
    data (createBlob [1 # 2; -1; 0]) = Some base64
    /\ decode base64 = Ok bytes
    /\ int16View bytes = Ok dataInt16
    /\ let out := getChannelData dataInt16 1 (length dataInt16) 0 in
       length out = length [1 # 2; -1; 0]
       /\ (forall i, (i < length [1 # 2; -1; 0]%Q)%nat ->
             Qabs (nth i out 0 - nth i [1 # 2; -1; 0] 0) < 1 # 32768)
       /\ ([1 # 2; -1; 0] <> [] -> pcmRoundTrip [1 # 2; -1; 0] = Ok out).
Proof.
  apply (pcm_round_trip_below_one [1 # 2; -1; 0]).
  intros x [<- | [<- | [<- | []]]]; split; unfold Qle, Qlt; simpl; lia.
Defined.

Example createBlob_half :
  createBlob [1 # 2; -1] = {| data := Some "AEAAgA=="; mimeType := Some "audio/pcm;rate=16000" |}.
Proof. vm_compute. reflexivity. Qed.

(** ** Teardown *)

(** Assignments are unfolded down to the record. *)
Ltac assignments :=
  lazy beta iota zeta delta
    [emit setConversation setStatus putConversation setError
     setSessionPromiseRef setInputAudioContextRef setOutputAudioContextRef
     setMicrophoneStreamRef setScriptProcessorRef
     setCurrentInputTranscriptionRef setCurrentOutputTranscriptionRef
     setNextStartTimeRef setAudioSourcesRef setAudioBuffers setNextSource
     setTrace
     status conversation error sessionPromiseRef inputAudioContextRef
     outputAudioContextRef microphoneStreamRef scriptProcessorRef
     currentInputTranscriptionRef currentOutputTranscriptionRef
     nextStartTimeRef audioSourcesRef audioBuffers nextSource trace] in *.

(** The same, through the control flow of a handler body. *)
Ltac running :=
  lazy beta iota zeta delta
    [bind ret throw return_ get modify when forOf lift
     toolCall serverContent functionCalls fc_id fc_name fc_args sound
     outputTranscription inputTranscription turnComplete modelTurn interrupted
     parts inlineData data isTrue fst snd
     emit setConversation setStatus putConversation setError
     setSessionPromiseRef setInputAudioContextRef setOutputAudioContextRef
     setMicrophoneStreamRef setScriptProcessorRef
     setCurrentInputTranscriptionRef setCurrentOutputTranscriptionRef
     setNextStartTimeRef setAudioSourcesRef setAudioBuffers setNextSource
     setTrace
     status conversation error sessionPromiseRef inputAudioContextRef
     outputAudioContextRef microphoneStreamRef scriptProcessorRef
     currentInputTranscriptionRef currentOutputTranscriptionRef
     nextStartTimeRef audioSourcesRef audioBuffers nextSource trace] in *.

Lemma setTrace_same (s : State) : setTrace (trace s) s = s.
Proof. destruct s; reflexivity. Qed.

Lemma stop_sources (sources : list nat) (s : State) :
  fold_left (fun s source => emit (SourceStop source) s) sources s
  = setTrace (trace s ++ map SourceStop sources) s.
Proof.
  revert s. induction sources as [|source rest IH]; intro s; cbn [fold_left map].
  - rewrite app_nil_r. symmetry. apply setTrace_same.
  - rewrite IH. destruct s. assignments.
    now rewrite <- app_assoc.
Qed.

(** Each guarded step of [cleanup] as an assignment and some calls. *)
Lemma release_microphone (s : State) :
  match microphoneStreamRef s with
  | Some _ => setMicrophoneStreamRef None (emit TrackStop s)
  | None => s
  end
  = setMicrophoneStreamRef None
      (setTrace (trace s ++ match microphoneStreamRef s with
                            | Some _ => [TrackStop]
                            | None => []
                            end) s).
Proof.
  destruct s as [st conv err session inCtx outCtx [mic|] proc inAcc outAcc cursor
                   sources buffers fresh tr];
    assignments; rewrite ?app_nil_r; reflexivity.
Qed.

Lemma release_processor (s : State) :
  match scriptProcessorRef s with
  | Some _ => setScriptProcessorRef None (emit ProcessorDisconnect s)
  | None => s
  end
  = setScriptProcessorRef None
      (setTrace (trace s ++ match scriptProcessorRef s with
                            | Some _ => [ProcessorDisconnect]
                            | None => []
                            end) s).
Proof.
  destruct s as [st conv err session inCtx outCtx mic [proc|] inAcc outAcc cursor
                   sources buffers fresh tr];
    assignments; rewrite ?app_nil_r; reflexivity.
Qed.

Lemma close_input (s : State) :
  match inputAudioContextRef s with
  | Some ctx =>
      if isClosed ctx then s
      else setInputAudioContextRef (Some (closeContext ctx))
                                   (emit (ContextClose InputSink) s)
  | None => s
  end
  = setInputAudioContextRef (afterClose (inputAudioContextRef s))
      (setTrace (trace s ++ closeEffect InputSink (inputAudioContextRef s)) s).
Proof.
  destruct s as [st conv err session [[[] rate]|] outCtx mic proc inAcc outAcc cursor
                   sources buffers fresh tr];
    assignments; cbn; rewrite ?app_nil_r; reflexivity.
Qed.

Lemma close_output (s : State) :
  match outputAudioContextRef s with
  | Some ctx =>
      if isClosed ctx then s
      else setOutputAudioContextRef (Some (closeContext ctx))
                                    (emit (ContextClose OutputSink) s)
  | None => s
  end
  = setOutputAudioContextRef (afterClose (outputAudioContextRef s))
      (setTrace (trace s ++ closeEffect OutputSink (outputAudioContextRef s)) s).
Proof.
  destruct s as [st conv err session inCtx [[[] rate]|] mic proc inAcc outAcc cursor
                   sources buffers fresh tr];
    assignments; cbn; rewrite ?app_nil_r; reflexivity.
Qed.

Lemma close_session (s : State) :
  match sessionPromiseRef s with
  | Some session => emit (SessionThen session Close) s
  | None => s
  end
  = setTrace (trace s ++ match sessionPromiseRef s with
                         | Some session => [SessionThen session Close]
                         | None => []
                         end) s.
Proof.
  destruct s as [st conv err [session|] inCtx outCtx mic proc inAcc outAcc cursor
                   sources buffers fresh tr];
    assignments; rewrite ?app_nil_r; reflexivity.
Qed.

(** [cleanup], field by field. *)
Lemma cleanup_spec (s : State) :
  cleanup s
  = {| status := IDLE; conversation := conversation s; error := None;
       sessionPromiseRef := None;
       inputAudioContextRef := afterClose (inputAudioContextRef s);
       outputAudioContextRef := afterClose (outputAudioContextRef s);
       microphoneStreamRef := None; scriptProcessorRef := None;
       currentInputTranscriptionRef := currentInputTranscriptionRef s;
       currentOutputTranscriptionRef := currentOutputTranscriptionRef s;
       nextStartTimeRef := 0; audioSourcesRef := [];
       audioBuffers := audioBuffers s; nextSource := nextSource s;
       trace := trace s ++ cleanupEffects s |}.
Proof.
  unfold cleanup. cbv zeta.
  rewrite release_microphone, release_processor, close_input, close_output,
    stop_sources, close_session.
  destruct s as [st conv err session inCtx outCtx mic proc inAcc outAcc cursor
                   sources buffers fresh tr].
  unfold cleanupEffects. assignments.
  rewrite <- !app_assoc. reflexivity.
Qed.

(** ** Confinement of statements *)

Section Frames.

Variable R : State -> State -> Prop.
Hypothesis R_refl : forall s, R s s.
Hypothesis R_trans : forall a b c, R a b -> R b c -> R a c.

Lemma keeps_ret {A} (a : A) : keeps R (ret a).
Proof. intro s. apply R_refl. Qed.

Lemma keeps_throw {A} (e : JsError) : keeps R (@throw A e).
Proof. intro s. apply R_refl. Qed.

Lemma keeps_return {A} : keeps R (@return_ A).
Proof. intro s. apply R_refl. Qed.

Lemma keeps_get : keeps R get.
Proof. intro s. apply R_refl. Qed.

Lemma keeps_lift {A} (r : Result A) : keeps R (lift r).
Proof. destruct r; [apply keeps_ret | apply keeps_throw]. Qed.

Lemma keeps_modify (f : State -> State) :
  (forall s, R s (f s)) -> keeps R (modify f).
Proof. intros H s. apply H. Qed.

Lemma keeps_bind {A B} (m : M A) (k : A -> M B) :
  keeps R m -> (forall a, keeps R (k a)) -> keeps R (bind m k).
Proof.
  intros Hm Hk s. unfold bind. specialize (Hm s).
  destruct (m s) as [s' [a | | e]]; cbn [fst] in *; try assumption.
  eapply R_trans; [exact Hm | apply Hk].
Qed.

Lemma keeps_when (b : bool) (m : M unit) : keeps R m -> keeps R (when b m).
Proof. intro Hm. destruct b; [exact Hm | apply keeps_ret]. Qed.

Lemma keeps_forOf {A} (l : list A) (body : A -> M unit) :
  (forall a, keeps R (body a)) -> keeps R (forOf l body).
Proof.
  intro Hbody. induction l as [|a l IH]; cbn [forOf].
  - apply keeps_ret.
  - apply keeps_bind; [apply Hbody | intros _; exact IH].
Qed.

End Frames.

(** Walks down a statement; [tac] settles the assignments. *)
Ltac confine Hrefl Htrans tac :=
  repeat match goal with
    | |- forall _, _ => intro
    | |- keeps _ (ret _) => apply (keeps_ret _ Hrefl)
    | |- keeps _ (throw _) => apply (keeps_throw _ Hrefl)
    | |- keeps _ return_ => apply (keeps_return _ Hrefl)
    | |- keeps _ get => apply (keeps_get _ Hrefl)
    | |- keeps _ (lift _) => apply (keeps_lift _ Hrefl)
    | |- keeps _ (when _ _) => apply (keeps_when _ Hrefl)
    | |- keeps _ (forOf _ _) => apply (keeps_forOf _ Hrefl Htrans)
    | |- keeps _ (modify _) => apply keeps_modify; intro; tac
    | |- keeps _ (bind _ _) => apply (keeps_bind _ Htrans)
    | |- keeps _ (match ?x with _ => _ end) => destruct x
    end.

Lemma onlyTrace_refl (s : State) : onlyTrace s s.
Proof. exists []. rewrite app_nil_r. symmetry. apply setTrace_same. Qed.

Lemma onlyTrace_trans (a b c : State) : onlyTrace a b -> onlyTrace b c -> onlyTrace a c.
Proof.
  intros [x ->] [y ->]. exists (x ++ y). destruct a. assignments.
  now rewrite app_assoc.
Qed.

Lemma sameTranscripts_refl (s : State) : sameTranscripts s s.
Proof. repeat split. Qed.

Lemma sameTranscripts_trans (a b c : State) :
  sameTranscripts a b -> sameTranscripts b c -> sameTranscripts a c.
Proof.
  intros (H1 & H2 & H3) (H4 & H5 & H6).
  repeat split; congruence.
Qed.

Lemma sameError_refl (s : State) : sameError s s.
Proof. split; auto. Qed.

Lemma sameError_trans (a b c : State) : sameError a b -> sameError b c -> sameError a c.
Proof.
  intros (H1 & H2) (H3 & H4). split; [congruence|].
  destruct H4 as [H4 | [H4 | H4]]; rewrite H4; auto.
Qed.

Lemma emit_onlyTrace (e : Effect) (s : State) : onlyTrace s (emit e s).
Proof. exists [e]. reflexivity. Qed.

(** *** The blocks of [handleMessage] *)

Lemma handleToolCall_onlyTrace (message : LiveServerMessage) :
  keeps onlyTrace (handleToolCall message).
Proof.
  unfold handleToolCall, handleFunctionCall, playSound.
  confine onlyTrace_refl onlyTrace_trans ltac:(apply emit_onlyTrace).
Qed.

Lemma stop_sources_transcripts (s : State) :
  sameTranscripts s (interrupt s).
Proof.
  unfold interrupt. cbv zeta. rewrite stop_sources. repeat split.
Qed.

Lemma cleanup_transcripts (s : State) : sameTranscripts s (cleanup s).
Proof. rewrite cleanup_spec. repeat split. Qed.

Lemma handleAudio_transcripts (now : Q) (message : LiveServerMessage) :
  keeps sameTranscripts (handleAudio now message).
Proof.
  unfold handleAudio, base64AudioOf, scheduleNext.
  confine sameTranscripts_refl sameTranscripts_trans ltac:(repeat split).
Qed.

Lemma handleInterrupted_transcripts (message : LiveServerMessage) :
  keeps sameTranscripts (handleInterrupted message).
Proof.
  unfold handleInterrupted.
  confine sameTranscripts_refl sameTranscripts_trans ltac:(apply stop_sources_transcripts).
Qed.

Lemma onlyTrace_transcripts (s s' : State) : onlyTrace s s' -> sameTranscripts s s'.
Proof. intros [calls ->]. repeat split. Qed.

Lemma onlyTrace_error (s s' : State) : onlyTrace s s' -> sameError s s'.
Proof. intros [calls ->]. split; auto. Qed.

Lemma interrupt_error (s : State) : sameError s (interrupt s).
Proof.
  unfold interrupt. cbv zeta. rewrite stop_sources. split; auto.
Qed.

Lemma tryBlock_error (now : Q) (message : LiveServerMessage) :
  keeps sameError (tryBlock now message).
Proof.
  unfold tryBlock.
  apply (keeps_bind _ sameError_trans).
  { intro s. apply onlyTrace_error, handleToolCall_onlyTrace. }
  intros _.
  unfold handleTranscription, handleTurnComplete, handleAudio, base64AudioOf,
    scheduleNext, handleInterrupted.
  confine sameError_refl sameError_trans
    ltac:(first [apply interrupt_error | split; cbn; auto]).
Qed.

(** ** Stop and teardown *)

Lemma afterClose_closed (ref : option AudioContext) : sinkClosed (afterClose ref).
Proof. destruct ref as [[[] rate]|]; cbn; auto. Qed.

Lemma afterClose_idempotent (ref : option AudioContext) :
  afterClose (afterClose ref) = afterClose ref.
Proof. destruct ref as [[[] rate]|]; reflexivity. Qed.

Lemma closeEffect_afterClose (which : Sink) (ref : option AudioContext) :
  closeEffect which (afterClose ref) = [].
Proof. destruct ref as [[[] rate]|]; reflexivity. Qed.

Lemma cleanup_tornDown (s : State) : tornDown (cleanup s).
Proof.
  rewrite cleanup_spec. unfold tornDown. cbn.
  repeat split; apply afterClose_closed.
Qed.

(** With a sink counted as closed from the call of [close] on, a second
    teardown in a row finds nothing left to do. *)
Lemma cleanup_idempotent (s : State) : cleanup (cleanup s) = cleanup s.
Proof.
  rewrite (cleanup_spec (cleanup s)). rewrite !cleanup_spec. cbn.
  unfold cleanupEffects. cbn.
  rewrite !afterClose_idempotent, !closeEffect_afterClose. cbn.
  now rewrite app_nil_r.
Qed.

(** C9. [stop] is a total function of the state (none of its calls can throw
    on what the refs hold); after one call and after a second one in a row
    the status is [IDLE], the error message is null, the playback set is
    empty and the cursor is 0; and on the state in which nothing was ever
    acquired it makes no call at all, once or twice. *)
Theorem stop_is_idempotent (s : State) :
  let once := stopSession s in
  let twice := stopSession once in
  (status once = IDLE /\ error once = None
   /\ audioSourcesRef once = [] /\ nextStartTimeRef once = 0)
  /\ (status twice = IDLE /\ error twice = None
      /\ audioSourcesRef twice = [] /\ nextStartTimeRef twice = 0)
  /\ stopSession initialState = initialState
  /\ stopSession (stopSession initialState) = initialState.
Proof.
  cbv zeta. unfold stopSession. rewrite (cleanup_spec (cleanup s)), cleanup_spec.
  cbn. repeat split.
Qed.

(** ** Interruption *)

Lemma interrupt_spec (s : State) :
  interrupt s
  = setNextStartTimeRef 0
      (setAudioSourcesRef []
         (setTrace (trace s ++ map SourceStop (audioSourcesRef s)) s)).
Proof. unfold interrupt. cbv zeta. now rewrite stop_sources. Qed.

(** Whatever else the message carries, the block of lines 151-155 is
    [interrupt]. *)
Lemma handleInterrupted_set (content : LiveServerContent) (toolCalls : option LiveServerToolCall)
      (s : State) :
  isTrue (interrupted content) = true ->
  handleInterrupted {| toolCall := toolCalls; serverContent := Some content |} s
  = (interrupt s, Normal tt).
Proof. intro H. unfold handleInterrupted. cbn. rewrite H. reflexivity. Qed.

(** C7. For every prior state and clock reading, handling the interrupted
    signal empties the playback set (each member is stopped) and puts the
    cursor at 0; status, error message, conversation log and both transcript
    accumulators are what they were. *)
Theorem interrupted_clears_playback (now : Q) (s : State) :
  let s' := handleMessage now interruptedSignal s in
  audioSourcesRef s' = []
  /\ nextStartTimeRef s' = 0
  /\ trace s' = trace s ++ map SourceStop (audioSourcesRef s)
  /\ status s' = status s
  /\ error s' = error s
  /\ conversation s' = conversation s
  /\ currentInputTranscriptionRef s' = currentInputTranscriptionRef s
  /\ currentOutputTranscriptionRef s' = currentOutputTranscriptionRef s
  /\ sessionPromiseRef s' = sessionPromiseRef s.
Proof.
  cbv zeta.
  change (handleMessage now interruptedSignal s) with (interrupt s).
  rewrite interrupt_spec. repeat split.
Qed.

(** ** An exception in the handler *)

Lemma handleMessage_throw (now : Q) (message : LiveServerMessage) (s : State) (e : JsError) :
  snd (tryBlock now message s) = Throw e ->
  handleMessage now message s = catchBlock (fst (tryBlock now message s)).
Proof.
  unfold handleMessage. destruct (tryBlock now message s) as [s' c].
  cbn. now intros ->.
Qed.

Lemma catchBlock_outcome (s : State) :
  status (catchBlock s) = IDLE /\ error (catchBlock s) = None /\ tornDown (catchBlock s).
Proof.
  unfold catchBlock. cbv zeta. split; [|split].
  - now rewrite cleanup_spec.
  - now rewrite cleanup_spec.
  - apply cleanup_tornDown.
Qed.

(** Every message whose handling throws ends torn down, in [IDLE], with no
    message. *)
Lemma handler_exception_outcome (now : Q) (message : LiveServerMessage) (s : State)
      (e : JsError) :
  snd (tryBlock now message s) = Throw e ->
  let s' := handleMessage now message s in
  status s' = IDLE /\ error s' = None /\ tornDown s'.
Proof.
  intro H. cbv zeta. rewrite (handleMessage_throw _ _ _ _ H).
  apply catchBlock_outcome.
Qed.

(** C3, evaluated.  In a live session an audio fragment of one byte makes
    the 16-bit view throw, and a model turn without [parts] makes the index
    into [parts] throw; the handler catches either, and ends in [IDLE] with a
    null message (the teardown is done): not in [ERROR] with the
    processing-error message. *)
Theorem processing_error_is_cleared :
  let oddFragment := audioFragment "AA==" in
  let s' := handleMessage 0 oddFragment liveState in
  let s'' := handleMessage 0 emptyModelTurn liveState in
  status liveState = LISTENING
  /\ (snd (tryBlock 0 oddFragment liveState) = Throw RangeError
      /\ status s' = IDLE /\ error s' = None /\ tornDown s')
  /\ (snd (tryBlock 0 emptyModelTurn liveState) = Throw TypeError
      /\ status s'' = IDLE /\ error s'' = None /\ tornDown s'').
Proof.
  cbv zeta. split; [reflexivity|]. split.
  - split; [vm_compute; reflexivity|].
    apply (handler_exception_outcome 0 (audioFragment "AA==") liveState RangeError).
    vm_compute. reflexivity.
  - split; [vm_compute; reflexivity|].
    apply (handler_exception_outcome 0 emptyModelTurn liveState TypeError).
    vm_compute. reflexivity.
Qed.

(** ** The end of a turn *)

Lemma nth_error_last {A} (pre : list A) (t : A) :
  nth_error (pre ++ [t]) (length (pre ++ [t]) - 1) = Some t.
Proof.
  rewrite length_app. cbn [length].
  replace (length pre + 1 - 1)%nat with (length pre) by lia.
  rewrite nth_error_app2 by lia. now rewrite Nat.sub_diag.
Qed.

Lemma assignAt_last {A} (pre : list A) (t v : A) :
  assignAt (length (pre ++ [t]) - 1) v (pre ++ [t]) = pre ++ [v].
Proof.
  rewrite length_app. cbn [length].
  replace (length pre + 1 - 1)%nat with (length pre) by lia.
  induction pre as [|a pre IH]; cbn; [reflexivity | now rewrite IH].
Qed.

Lemma truthy_iff (s : string) : truthy s = true <-> s <> "".
Proof. destruct s; cbn; split; congruence. Qed.

Lemma truthy_false_iff (s : string) : truthy s = false <-> s = "".
Proof. destruct s; cbn; split; congruence. Qed.

(** The updater amends an open user turn ... *)
Lemma finishTurn_user (userInput aiResponse : string) (pre : list Turn) (lastTurn : Turn) :
  speaker lastTurn = user -> userInput <> "" ->
  finishTurn userInput aiResponse (pre ++ [lastTurn])
  = pre ++ [{| speaker := user; text := userInput |}]
        ++ (if truthy aiResponse then [{| speaker := ai; text := aiResponse |}] else []).
Proof.
  intros Hsp Hin. unfold finishTurn. cbv zeta.
  apply truthy_iff in Hin. rewrite Hin.
  assert (Hlen : (0 <? length (pre ++ [lastTurn]))%nat = true).
  { apply Nat.ltb_lt. rewrite length_app. cbn. lia. }
  rewrite Hlen. cbn [andb].
  rewrite nth_error_last, Hsp. cbn [is_user].
  rewrite assignAt_last.
  destruct (truthy aiResponse); [now rewrite <- app_assoc | now rewrite app_nil_r].
Qed.

(** ... and leaves anything else in place. *)
Lemma finishTurn_other (userInput aiResponse : string) (prev : list Turn) :
  userInput = "" \/ prev = []
  \/ (exists pre lastTurn, prev = pre ++ [lastTurn] /\ speaker lastTurn = ai) ->
  finishTurn userInput aiResponse prev
  = prev ++ (if truthy aiResponse then [{| speaker := ai; text := aiResponse |}] else []).
Proof.
  intros H. unfold finishTurn. cbv zeta.
  assert (E : (if truthy userInput && (0 <? length prev)%nat
               then match nth_error prev (length prev - 1) with
                    | Some lastTurn =>
                        if is_user (speaker lastTurn)
                        then assignAt (length prev - 1)
                               {| speaker := speaker lastTurn; text := userInput |} prev
                        else prev
                    | None => prev
                    end
               else prev) = prev).
  { destruct H as [-> | [-> | (pre & lastTurn & -> & Hsp)]].
    - reflexivity.
    - now rewrite andb_false_r.
    - destruct (truthy userInput && _); [|reflexivity].
      now rewrite nth_error_last, Hsp. }
  rewrite E. destruct (truthy aiResponse); [reflexivity | now rewrite app_nil_r].
Qed.

Lemma handleMessage_turnComplete (now : Q) (s : State) :
  handleMessage now turnCompleteSignal s
  = setStatus LISTENING
      (setCurrentOutputTranscriptionRef ""
         (setCurrentInputTranscriptionRef ""
            (setConversation
               (finishTurn (trim (currentInputTranscriptionRef s))
                           (trim (currentOutputTranscriptionRef s))) s))).
Proof. reflexivity. Qed.

(** C1, on a whitespace accumulator.  After the user delta "Once " and the AI
    delta " ", both accumulators are non-empty; the turn-complete signal
    sets the user entry to "Once", which is not the accumulated "Once ", and
    appends no AI entry. *)
Lemma turn_complete_trims :
  let s := run [Message 0 (inputDelta "Once "); Message 0 (outputDelta " ")] initialState in
  let s' := handleMessage 0 turnCompleteSignal s in
  currentInputTranscriptionRef s = "Once "
  /\ currentOutputTranscriptionRef s = " "
  /\ conversation s = [{| speaker := user; text := "Once " |}]
  /\ conversation s' = [{| speaker := user; text := "Once" |}]
  /\ "Once" <> "Once "
  /\ " " <> "".
Proof. cbv zeta. repeat split; try reflexivity; discriminate. Qed.

(** C1, amended.  For every state, handling the turn-complete signal sets
    the text of the last log entry to the trimmed user transcript when that
    entry is a user turn and the trimmed user transcript is not empty, and
    leaves the entries in place otherwise; it appends one AI entry, carrying
    the trimmed AI transcript, exactly when that trimmed transcript is not
    empty; both accumulators are empty afterwards and the status is
    [LISTENING]. *)
Theorem turn_complete_finalizes (now : Q) (s : State) :
  let s' := handleMessage now turnCompleteSignal s in
  let userInput := trim (currentInputTranscriptionRef s) in
  let aiResponse := trim (currentOutputTranscriptionRef s) in
  (forall pre lastTurn,
      conversation s = pre ++ [lastTurn] -> speaker lastTurn = user ->
      userInput <> "" ->
      conversation s'
      = pre ++ [{| speaker := user; text := userInput |}]
            ++ aiEntry (currentOutputTranscriptionRef s))
  /\ (userInput = "" \/ conversation s = []
      \/ (exists pre lastTurn, conversation s = pre ++ [lastTurn] /\ speaker lastTurn = ai) ->
      conversation s' = conversation s ++ aiEntry (currentOutputTranscriptionRef s))
  /\ (aiResponse <> "" ->
      aiEntry (currentOutputTranscriptionRef s) = [{| speaker := ai; text := aiResponse |}])
  /\ (aiResponse = "" -> aiEntry (currentOutputTranscriptionRef s) = [])
  /\ currentInputTranscriptionRef s' = ""
  /\ currentOutputTranscriptionRef s' = ""
  /\ status s' = LISTENING
  /\ error s' = error s
  /\ trace s' = trace s.
Proof.
  cbv zeta. rewrite handleMessage_turnComplete. unfold aiEntry.
  split; [|split; [|split; [|split]]].
  - intros pre lastTurn Hconv Hsp Hin. assignments. rewrite Hconv.
    now apply finishTurn_user.
  - intros H. assignments. now apply finishTurn_other.
  - intros H. apply truthy_iff in H. now rewrite H.
  - intros H. apply truthy_false_iff in H. now rewrite H.
  - repeat split.
Qed.

Example once_upon_a_time :
  conversation (run dragonEvents initialState)
  = [{| speaker := user; text := "Once upon a time" |}]
  /\ currentOutputTranscriptionRef (run dragonEvents initialState) = "The dragon smiled.".
Proof. split; reflexivity. Qed.

Lemma turn_complete_finalizes_witness :
  conversation (handleMessage 0 turnCompleteSignal (run dragonEvents initialState))
  = [{| speaker := user; text := "Once upon a time" |}]
      ++ [{| speaker := ai; text := "The dragon smiled." |}]
  /\ currentInputTranscriptionRef
       (handleMessage 0 turnCompleteSignal (run dragonEvents initialState)) = ""
  /\ currentOutputTranscriptionRef
       (handleMessage 0 turnCompleteSignal (run dragonEvents initialState)) = "".
Proof.
  destruct (turn_complete_finalizes 0 (run dragonEvents initialState))
    as (_ & Hother & Hai & _ & Hin & Hout & _).
  split; [|split; [exact Hin | exact Hout]].
  rewrite Hother.
  - rewrite Hai; [reflexivity | discriminate].
  - left. reflexivity.
Defined.

(** ** A message with both transcription deltas *)

Lemma catchBlock_transcripts (s : State) : sameTranscripts s (catchBlock s).
Proof.
  unfold catchBlock. cbv zeta.
  eapply sameTranscripts_trans; [|apply cleanup_transcripts]. repeat split.
Qed.

(** With an AI delta on board, the user delta plays no part in any block. *)
Lemma tryBlock_without_input (now : Q) (message : LiveServerMessage)
      (content : LiveServerContent) (out : Transcription) :
  serverContent message = Some content ->
  outputTranscription content = Some out ->
  tryBlock now message = tryBlock now (withoutInputTranscription message).
Proof.
  destruct message as [calls sc]. cbn. intros -> Hout.
  destruct content as [o i tc mt intr]. cbn in Hout. subst o.
  reflexivity.
Qed.

Lemma handleTranscription_output (message : LiveServerMessage)
      (content : LiveServerContent) (out : Transcription) (s : State) :
  serverContent message = Some content ->
  outputTranscription content = Some out ->
  handleTranscription message s
  = (setCurrentOutputTranscriptionRef
       (currentOutputTranscriptionRef s ++ textOf out)%string s, Normal tt).
Proof.
  intros Hsc Hout. unfold handleTranscription. now rewrite Hsc, Hout.
Qed.

Lemma handleTurnComplete_unset (message : LiveServerMessage)
      (content : LiveServerContent) (s : State) :
  serverContent message = Some content ->
  isTrue (turnComplete content) = false ->
  handleTurnComplete message s = (s, Normal tt).
Proof.
  intros Hsc Htc. unfold handleTurnComplete. now rewrite Hsc, Htc.
Qed.

(** What follows the turn-complete block leaves transcripts and log alone. *)
Lemma audio_then_interrupted (now : Q) (message : LiveServerMessage) :
  keeps sameTranscripts (handleAudio now message ;; handleInterrupted message).
Proof.
  apply (keeps_bind _ sameTranscripts_trans).
  - apply handleAudio_transcripts.
  - intros _. apply handleInterrupted_transcripts.
Qed.

Lemma bind_normal {A B} (m : M A) (k : A -> M B) (s s1 : State) (a : A) :
  m s = (s1, Normal a) -> bind m k s = k a s1.
Proof. intro H. unfold bind. now rewrite H. Qed.

Lemma bind_return {A B} (m : M A) (k : A -> M B) (s s1 : State) :
  m s = (s1, Return) -> bind m k s = (s1, Return).
Proof. intro H. unfold bind. now rewrite H. Qed.

Lemma bind_throw {A B} (m : M A) (k : A -> M B) (s s1 : State) (e : JsError) :
  m s = (s1, Throw e) -> bind m k s = (s1, Throw e).
Proof. intro H. unfold bind. now rewrite H. Qed.

(** A [try] whose body and whose [catch] both stay within [R]. *)
Lemma try_keeps (R : State -> State -> Prop) (m : M unit) (s : State) :
  (forall a b c, R a b -> R b c -> R a c) ->
  (forall s, R s (catchBlock s)) ->
  keeps R m ->
  R s (match m s with
       | (s', Throw _) => catchBlock s'
       | (s', _) => s'
       end).
Proof.
  intros Htrans Hcatch Hm. specialize (Hm s).
  destruct (m s) as [s' [[] | | e]]; cbn [fst] in Hm; try exact Hm.
  eapply Htrans; [exact Hm | apply Hcatch].
Qed.

Lemma after_transcription (now : Q) (message : LiveServerMessage)
      (content : LiveServerContent) :
  serverContent message = Some content ->
  isTrue (turnComplete content) = false ->
  keeps sameTranscripts
    (handleTurnComplete message ;; handleAudio now message ;; handleInterrupted message).
Proof.
  intros Hsc Htc. apply (keeps_bind _ sameTranscripts_trans).
  - intro s. rewrite (handleTurnComplete_unset _ _ _ Hsc Htc).
    apply sameTranscripts_refl.
  - intros _. apply audio_then_interrupted.
Qed.

Lemma handleTurnComplete_set (message : LiveServerMessage)
      (content : LiveServerContent) (s : State) :
  serverContent message = Some content ->
  isTrue (turnComplete content) = true ->
  handleTurnComplete message s
  = (setStatus LISTENING
       (setCurrentOutputTranscriptionRef ""
          (setCurrentInputTranscriptionRef ""
             (setConversation
                (finishTurn (trim (currentInputTranscriptionRef s))
                            (trim (currentOutputTranscriptionRef s))) s))),
     Normal tt).
Proof.
  intros Hsc Htc. unfold handleTurnComplete. rewrite Hsc, Htc. destruct s. reflexivity.
Qed.

(** C10, at the end of a turn.  A message that carries both deltas and the
    turn-complete flag, handled after the user delta "Once ": the inbound
    accumulator does not stay "Once " but is emptied, and the log does not
    stay as it was: its user entry is rewritten and an AI entry is added. *)
Lemma both_deltas_at_turn_end :
  let s := handleMessage 0 (inputDelta "Once ") initialState in
  let s' := handleMessage 0 (bothDeltasAtTurnEnd "The dragon" "upon a time") s in
  currentInputTranscriptionRef s = "Once "
  /\ conversation s = [{| speaker := user; text := "Once " |}]
  /\ currentInputTranscriptionRef s' = ""
  /\ currentOutputTranscriptionRef s' = ""
  /\ conversation s' = [{| speaker := user; text := "Once" |};
                        {| speaker := ai; text := "The dragon" |}]
  /\ currentInputTranscriptionRef s' <> currentInputTranscriptionRef s
  /\ conversation s' <> conversation s.
Proof.
  cbv zeta. repeat split; try (vm_compute; reflexivity); vm_compute; discriminate.
Qed.

(** C10, amended.  For every state and every message that carries both an
    AI delta and a user delta: the message is handled exactly as the same
    message without the user delta; the transcription block appends the AI
    text to the outbound accumulator and changes neither the inbound
    accumulator nor the log.  When the message carries no turn-complete
    flag, the inbound accumulator and the log are unchanged by the whole
    handler, the AI text being appended whenever the tool-call block has
    not thrown.  When it carries the turn-complete flag and the tool-call
    block has not thrown, the turn is finished in the same handling: both
    accumulators are emptied and the log is finished with the user
    transcript of before and the AI transcript with this delta. *)
Theorem ai_delta_shadows_user_delta (now : Q) (message : LiveServerMessage)
        (content : LiveServerContent) (out inp : Transcription) (s : State) :
  serverContent message = Some content ->
  outputTranscription content = Some out ->
  inputTranscription content = Some inp ->
  handleMessage now message s = handleMessage now (withoutInputTranscription message) s
  /\ (let s1 := fst (handleTranscription message s) in
      currentOutputTranscriptionRef s1
      = (currentOutputTranscriptionRef s ++ textOf out)%string
      /\ currentInputTranscriptionRef s1 = currentInputTranscriptionRef s
      /\ conversation s1 = conversation s)
  /\ (isTrue (turnComplete content) = false ->
      let s' := handleMessage now message s in
      currentInputTranscriptionRef s' = currentInputTranscriptionRef s
      /\ conversation s' = conversation s
      /\ (snd (handleToolCall message s) = Normal tt ->
          currentOutputTranscriptionRef s'
          = (currentOutputTranscriptionRef s ++ textOf out)%string))
  /\ (isTrue (turnComplete content) = true ->
      snd (handleToolCall message s) = Normal tt ->
      let s' := handleMessage now message s in
      currentInputTranscriptionRef s' = ""
      /\ currentOutputTranscriptionRef s' = ""
      /\ conversation s'
         = finishTurn (trim (currentInputTranscriptionRef s))
                      (trim (currentOutputTranscriptionRef s ++ textOf out))
                      (conversation s)).
Proof.
  intros Hsc Hout Hinp. split; [|split; [|split]].
  - unfold handleMessage.
    now rewrite (tryBlock_without_input now message content out Hsc Hout).
  - cbv zeta. rewrite (handleTranscription_output _ _ _ _ Hsc Hout).
    repeat split.
  - intros Htc. cbv zeta.
    pose proof (handleToolCall_onlyTrace message s) as Htool.
    unfold handleMessage, tryBlock.
    destruct (handleToolCall message s) as [s1 c1] eqn:Etool. cbn [fst snd] in *.
    apply onlyTrace_transcripts in Htool. destruct Htool as (T1 & T2 & T3).
    destruct c1 as [[] | | e].
    + rewrite (bind_normal _ _ _ _ _ Etool).
      rewrite (bind_normal _ _ _ _ _ (handleTranscription_output _ _ _ s1 Hsc Hout)).
      pose proof (try_keeps sameTranscripts _
                    (setCurrentOutputTranscriptionRef
                       (currentOutputTranscriptionRef s1 ++ textOf out)%string s1)
                    sameTranscripts_trans catchBlock_transcripts
                    (after_transcription now message content Hsc Htc))
        as (A1 & A2 & A3).
      assignments. repeat split; congruence.
    + rewrite (bind_return _ _ _ _ Etool).
      repeat split; congruence.
    + rewrite (bind_throw _ _ _ _ _ Etool).
      destruct (catchBlock_transcripts s1) as (A1 & A2 & A3).
      repeat split; congruence.
  - intros Htc Hnormal. cbv zeta.
    pose proof (handleToolCall_onlyTrace message s) as Htool.
    unfold handleMessage, tryBlock.
    destruct (handleToolCall message s) as [s1 c1] eqn:Etool. cbn [fst snd] in *.
    subst c1.
    apply onlyTrace_transcripts in Htool. destruct Htool as (T1 & T2 & T3).
    rewrite (bind_normal _ _ _ _ _ Etool).
    rewrite (bind_normal _ _ _ _ _ (handleTranscription_output _ _ _ s1 Hsc Hout)).
    rewrite (bind_normal _ _ _ _ _ (handleTurnComplete_set _ _ _ Hsc Htc)).
    match goal with
    | |- context [bind (handleAudio now message) _ ?st] =>
        pose proof (try_keeps sameTranscripts
                      (handleAudio now message ;; handleInterrupted message) st
                      sameTranscripts_trans catchBlock_transcripts
                      (audio_then_interrupted now message))
          as (A1 & A2 & A3)
    end.
    rewrite A1, A2, A3. destruct s1. cbn in T1, T2, T3. subst.
    repeat split.
Qed.

Lemma ai_delta_shadows_user_delta_witness :
  handleMessage 0 (bothDeltas "The dragon" "Once ") initialState
  = handleMessage 0 (outputDelta "The dragon") initialState
  /\ currentInputTranscriptionRef
       (handleMessage 0 (bothDeltas "The dragon" "Once ") initialState) = ""
  /\ conversation (handleMessage 0 (bothDeltas "The dragon" "Once ") initialState) = []
  /\ currentOutputTranscriptionRef
       (handleMessage 0 (bothDeltas "The dragon" "Once ") initialState) = "The dragon".
Proof.
  destruct (ai_delta_shadows_user_delta 0 (bothDeltas "The dragon" "Once ")
              {| outputTranscription := Some {| tr_text := Some "The dragon" |};
                 inputTranscription := Some {| tr_text := Some "Once " |};
                 turnComplete := None; modelTurn := None; interrupted := None |}
              {| tr_text := Some "The dragon" |} {| tr_text := Some "Once " |}
              initialState eq_refl eq_refl eq_refl)
    as (Hsame & _ & Hwhole & _).
  destruct (Hwhole eq_refl) as (Hin & Hlog & Hout).
  split; [exact Hsame|]. split; [exact Hin|]. split; [exact Hlog|].
  exact (Hout eq_refl).
Defined.

(** ** Tool calls *)

Lemma declared_sounds_are_own_keys :
  forall soundName, In soundName soundLibrary -> isInherited soundName = false.
Proof.
  intros soundName [<- | [<- | [<- | []]]]; reflexivity.
Qed.

Lemma handleMessage_soundCall (now : Q) (id soundName : string) (s : State)
      (ctx : AudioContext) (session : nat) :
  outputAudioContextRef s = Some ctx ->
  sessionPromiseRef s = Some session ->
  isInherited soundName = false ->
  handleMessage now (playSoundEffectCall id soundName) s
  = setTrace (trace s ++ soundCallEffects id soundName ctx session s) s.
Proof.
  intros Hctx Hsession Hname.
  destruct s as [st conv err sess inCtx outCtx mic proc inAcc outAcc cursor
                   sources buffers fresh tr].
  cbn in Hctx, Hsession. subst outCtx sess.
  unfold soundCallEffects, handleMessage, tryBlock, handleToolCall,
    handleFunctionCall, playSound, isPreloaded, playSoundEffectCall.
  running.
  change (eqOptString (Some "playSoundEffect") "playSoundEffect") with true.
  running.
  rewrite Hname.
  destruct (truthy soundName); cbn [andb]; running;
    [destruct (existsb (String.eqb soundName) buffers); cbn [andb]; running;
     destruct (isRunning ctx); running|];
    rewrite <- ?app_assoc; reflexivity.
Qed.

(** C2, where no acknowledgment follows.  After [stop] the output sink is
    still referenced but the session handle is gone: the call is handled
    without any acknowledgment.  In the state where no sink was ever created
    the call changes nothing at all.  And in a live session a call whose
    sound is [constructor] makes [playSound] throw before the acknowledgment
    is handed over: the session is torn down. *)
Lemma tool_call_without_acknowledgment :
  let s := stopSession liveState in
  let s' := handleMessage 0 (playSoundEffectCall "call-1" "sparkle") s in
  let s'' := handleMessage 0 (playSoundEffectCall "call-1" "constructor") liveState in
  (outputAudioContextRef s <> None
   /\ sessionPromiseRef s = None
   /\ s' = s
   /\ acknowledgments (trace s') = [])
  /\ handleMessage 0 (playSoundEffectCall "call-1" "sparkle") initialState = initialState
  /\ (snd (tryBlock 0 (playSoundEffectCall "call-1" "constructor") liveState)
      = Throw TypeError
      /\ acknowledgments (trace s'') = []
      /\ sessionPromiseRef s'' = None).
Proof.
  cbv zeta. split; [|split].
  - split; [vm_compute; discriminate|].
    repeat (split; [vm_compute; reflexivity|]).
    vm_compute; reflexivity.
  - vm_compute; reflexivity.
  - repeat (split; [vm_compute; reflexivity|]).
    vm_compute; reflexivity.
Qed.

(** C2, amended.  For every [playSoundEffect] call with an id and a sound
    argument that names no inherited property of the cache (every declared
    sound is such a name), handled while an output sink is referenced and a
    session handle is held: exactly one acknowledgment is handed to the
    session, carrying the id of the call, its name and the result [ok]; at
    most one playback is triggered, of the named sound, and one is exactly
    when the name is not empty, its buffer is preloaded and the sink is
    running; nothing but the trace of calls changes. *)
Theorem tool_call_is_acknowledged (now : Q) (id soundName : string) (s : State)
        (ctx : AudioContext) (session : nat) :
  outputAudioContextRef s = Some ctx ->
  sessionPromiseRef s = Some session ->
  isInherited soundName = false ->
  exists calls,
    handleMessage now (playSoundEffectCall id soundName) s
    = setTrace (trace s ++ calls) s
    /\ acknowledgments calls
       = [(session, SendToolResponse (Some id) (Some "playSoundEffect") "ok")]
    /\ (playbacks calls = [] \/ playbacks calls = [soundName])
    /\ (playbacks calls = [soundName] <->
        truthy soundName && (isPreloaded soundName s && isRunning ctx) = true).
Proof.
  intros Hctx Hsession Hname.
  exists (soundCallEffects id soundName ctx session s).
  split; [now apply handleMessage_soundCall|].
  unfold soundCallEffects.
  destruct (truthy soundName && (isPreloaded soundName s && isRunning ctx));
    cbn; repeat split; auto; discriminate.
Qed.

Lemma tool_call_is_acknowledged_witness :
  exists calls,
    handleMessage 0 (playSoundEffectCall "call-1" "sparkle") liveState
    = setTrace (trace liveState ++ calls) liveState
    /\ acknowledgments calls
       = [(1%nat, SendToolResponse (Some "call-1") (Some "playSoundEffect") "ok")]
    /\ (playbacks calls = [] \/ playbacks calls = ["sparkle"])
    /\ (playbacks calls = ["sparkle"] <->
        truthy "sparkle"
        && (isPreloaded "sparkle" liveState
            && isRunning {| ctx_state := running; ctx_rate := 24000 |}) = true).
Proof.
  apply (tool_call_is_acknowledged 0 "call-1" "sparkle" liveState
           {| ctx_state := running; ctx_rate := 24000 |} 1%nat);
    reflexivity.
Defined.

Example sparkle_is_played_and_acknowledged :
  trace (handleMessage 0 (playSoundEffectCall "call-1" "sparkle") liveState)
  = trace liveState
    ++ [PlaySound "sparkle";
        SessionThen 1 (SendToolResponse (Some "call-1") (Some "playSoundEffect") "ok")].
Proof. vm_compute. reflexivity. Qed.

(** ** Scheduling *)

Lemma scheduleNext_spec (now : Q) (audioBuffer : AudioBuffer) (s : State) :
  let start := Qmax (nextStartTimeRef s) now in
  scheduleNext now audioBuffer s
  = (setAudioSourcesRef (setAdd (nextSource s) (audioSourcesRef s))
       (setNextStartTimeRef (start + duration audioBuffer)
          (setTrace (trace s ++ [SourceStart (nextSource s) start audioBuffer])
             (setNextSource (S (nextSource s)) s))),
     Normal tt).
Proof. destruct s. reflexivity. Qed.









(** Two fragments of 100 ms and 50 ms arriving at 0.10 s and 0.15 s: the
    second one is started at 0.20 s, when the first one ends. *)
Example back_to_back :
  let s := scheduleAll [(1 # 10, bufferOf 2400); (3 # 20, bufferOf 1200)] initialState in
  exists t1 t2,
    trace s = [SourceStart 0 t1 (bufferOf 2400); SourceStart 1 t2 (bufferOf 1200)]
    /\ t1 == 1 # 10 /\ t2 == 2 # 10 /\ nextStartTimeRef s == 1 # 4
    /\ audioSourcesRef s = [0%nat; 1%nat].
Proof.
  cbv zeta. eexists. eexists. split; [vm_compute; reflexivity|].
  repeat split; reflexivity.
Qed.

(** ** Status and error message *)

Lemma consistent_no_error (s : State) :
  status s <> ERROR -> error s = None -> consistent s.
Proof. intros Hs He. unfold consistent. rewrite He. split; congruence. Qed.

Lemma consistent_in_error (s : State) :
  status s = ERROR -> error s <> None -> consistent s.
Proof. intros Hs He. unfold consistent. split; auto. Qed.

Lemma not_error_no_message (s : State) :
  consistent s -> status s <> ERROR -> error s = None.
Proof.
  unfold consistent. intros [_ H] Hs.
  destruct (error s); [|reflexivity]. exfalso. apply Hs, H. discriminate.
Qed.

Lemma cleanup_consistent (s : State) : consistent (cleanup s).
Proof.
  apply consistent_no_error; rewrite cleanup_spec; cbn; congruence.
Qed.

Lemma preloadSounds_status (names : list string) (s : State) :
  status (preloadSounds names s) = status s
  /\ error (preloadSounds names s) = error s.
Proof.
  unfold preloadSounds. revert s.
  induction soundLibrary as [|soundName rest IH]; intro s; cbn [fold_left].
  - split; reflexivity.
  - destruct (isPreloaded soundName s); [apply IH|].
    destruct (existsb (String.eqb soundName) names); [|apply IH].
    destruct (IH (setAudioBuffers (audioBuffers s ++ [soundName]) s)) as (H1 & H2).
    split; [rewrite H1 | rewrite H2]; reflexivity.
Qed.

Lemma startFailed_outcome (name : string) (s : State) :
  status (startFailed name s) = ERROR /\ error (startFailed name s) <> None.
Proof.
  unfold startFailed. cbv zeta.
  destruct (String.eqb name "NotAllowedError" || String.eqb name "NotFoundError");
    split; cbn; congruence.
Qed.

(** A start either fails, in [ERROR] with a message, or keeps the status and
    has no message. *)
Lemma startSession_outcome (env : StartEnv) (s : State) :
  let s' := startSession env s in
  (status s' = ERROR /\ error s' <> None)
  \/ (status s' = status s /\ error s' = None).
Proof.
  cbv zeta. unfold startSession. cbv zeta.
  destruct s as [st conv err session inCtx outCtx mic proc inAcc outAcc cursor
                   sources buffers fresh tr].
  change (status (setError None _)) with st. cbn [status].
  destruct st eqn:Hst; try (right; split; reflexivity).
  all: destruct (failure env GetUserMedia); [left; apply startFailed_outcome|].
  all: destruct (failure env NewInputContext); [left; apply startFailed_outcome|].
  all: destruct (failure env NewOutputContext); [left; apply startFailed_outcome|].
  all: destruct (match outputInitially env with
                 | suspended => failure env Resume
                 | _ => None
                 end); [left; apply startFailed_outcome|].
  all: destruct (failure env CreateSession); [left; apply startFailed_outcome|].
  all: right; unfold setSessionPromiseRef, setConversation, putConversation;
    cbn [status error].
  all: match goal with
       | |- context [preloadSounds ?names ?x] =>
           destruct (preloadSounds_status names x) as (H1 & H2);
           rewrite H1, H2
       end.
  all: destruct (outputInitially env); split; reflexivity.
Qed.

Lemma handleMessage_consistent (now : Q) (message : LiveServerMessage) (s : State) :
  status s <> ERROR -> error s = None -> consistent (handleMessage now message s).
Proof.
  intros Hst Herr. unfold handleMessage.
  pose proof (tryBlock_error now message s) as (He & Hs).
  destruct (tryBlock now message s) as [s' [[] | | e]]; cbn [fst] in *.
  - apply consistent_no_error; [|congruence].
    destruct Hs as [Hs | [Hs | Hs]]; rewrite Hs; congruence.
  - apply consistent_no_error; [|congruence].
    destruct Hs as [Hs | [Hs | Hs]]; rewrite Hs; congruence.
  - destruct (catchBlock_outcome s') as (H1 & H2 & _).
    apply consistent_no_error; congruence.
Qed.

Lemma sourceEnded_error (source : nat) (s : State) : sameError s (sourceEnded source s).
Proof.
  destruct s as [st conv err session inCtx outCtx mic proc inAcc outAcc cursor
                   sources buffers fresh tr].
  unfold sourceEnded. cbv zeta. assignments.
  destruct (setDelete source sources); split; cbn; auto.
Qed.

(** [startFails] in terms of the calls of [startSession]. *)
Lemma startFails_spec (env : StartEnv) :
  startFails env = false
  <-> (failure env GetUserMedia = None
       /\ failure env NewInputContext = None
       /\ failure env NewOutputContext = None
       /\ match outputInitially env with
          | suspended => failure env Resume
          | _ => None
          end = None
       /\ failure env CreateSession = None).
Proof.
  unfold startFails, failure.
  destruct (failsAt env) as [[stage name]|];
    [|split; repeat split; destruct (outputInitially env); reflexivity].
  destruct stage; cbn [stage_eqb]; destruct (outputInitially env);
    (split; [try discriminate; intros _; repeat split
            | intros (? & ? & ? & ? & ?); try discriminate; reflexivity]).
Qed.

(** A start in which some call fails ends in [ERROR] with a message; a start
    in which none does keeps the status and has no message. *)
Lemma startSession_fails (env : StartEnv) (s : State) :
  status s = IDLE \/ status s = ERROR ->
  startFails env = true ->
  status (startSession env s) = ERROR /\ error (startSession env s) <> None.
Proof.
  intros Hst Hf. unfold startSession. cbv zeta.
  destruct s as [st conv err session inCtx outCtx mic proc inAcc outAcc cursor
                   sources buffers fresh tr].
  change (status (setError None _)) with st. cbn [status] in Hst.
  destruct Hst as [-> | ->].
  all: destruct (failure env GetUserMedia) eqn:E1; [apply startFailed_outcome|].
  all: destruct (failure env NewInputContext) eqn:E2; [apply startFailed_outcome|].
  all: destruct (failure env NewOutputContext) eqn:E3; [apply startFailed_outcome|].
  all: destruct (match outputInitially env with
                 | suspended => failure env Resume
                 | _ => None
                 end) eqn:E4; [apply startFailed_outcome|].
  all: destruct (failure env CreateSession) eqn:E5; [apply startFailed_outcome|].
  all: exfalso; assert (H : startFails env = false)
         by (apply startFails_spec; repeat split; assumption);
       congruence.
Qed.

Lemma startSession_acquires (env : StartEnv) (s : State) :
  status s = IDLE \/ status s = ERROR ->
  startFails env = false ->
  status (startSession env s) = status s /\ error (startSession env s) = None.
Proof.
  intros Hst Hf. apply startFails_spec in Hf.
  destruct Hf as (E1 & E2 & E3 & E4 & E5).
  unfold startSession. cbv zeta.
  destruct s as [st conv err session inCtx outCtx mic proc inAcc outAcc cursor
                   sources buffers fresh tr].
  change (status (setError None _)) with st. cbn [status] in Hst |- *.
  rewrite E1, E2, E3, E4, E5.
  destruct Hst as [-> | ->].
  all: unfold setSessionPromiseRef, setConversation, putConversation;
    cbn [status error].
  all: match goal with
       | |- context [preloadSounds ?names ?x] =>
           destruct (preloadSounds_status names x) as (H1 & H2);
           rewrite H1, H2
       end.
  all: destruct (outputInitially env); split; reflexivity.
Qed.

Lemma isError_spec (st : StorytellerStatus) : isError st = true <-> st = ERROR.
Proof. destruct st; cbn; split; congruence. Qed.

(** One handler, from a state in which status and message agree: they agree
    afterwards unless the status was [ERROR] and the handler is one of
    those that write a single cell. *)
Lemma step_consistent (e : Event) (s : State) :
  consistent s -> (status s = ERROR -> unsettles e s = false) -> consistent (step e s).
Proof.
  intros Hc Hguard.
  destruct (isError (status s)) eqn:Herr.
  - apply isError_spec in Herr. specialize (Hguard Herr).
    assert (Hmsg : error s <> None) by (apply Hc; exact Herr).
    destruct e as [env | | | now message | inputData | | | | source];
      cbn [step unsettles] in *.
    + apply negb_false_iff in Hguard.
      destruct (startSession_fails env s (or_intror Herr) Hguard).
      now apply consistent_in_error.
    + apply cleanup_consistent.
    + unfold onOpen.
      destruct (inputAudioContextRef s), (microphoneStreamRef s);
        try discriminate; exact Hc.
    + unfold handleMessage.
      pose proof (tryBlock_error now message s) as (He & _).
      destruct (tryBlock now message s) as [s' [[] | | e]]; cbn [fst] in *.
      * apply negb_false_iff, isError_spec in Hguard.
        apply consistent_in_error; congruence.
      * apply negb_false_iff, isError_spec in Hguard.
        apply consistent_in_error; congruence.
      * destruct (catchBlock_outcome s') as (H1 & H2 & _).
        apply consistent_no_error; congruence.
    + unfold onAudioProcess. destruct (sessionPromiseRef s); [|exact Hc].
      apply consistent_in_error; cbn; assumption.
    + apply cleanup_consistent.
    + apply cleanup_consistent.
    + apply cleanup_consistent.
    + destruct s as [st conv err session inCtx outCtx mic proc inAcc outAcc cursor
                       sources buffers fresh tr].
      unfold sourceEnded. cbv zeta. assignments.
      destruct (setDelete source sources); [discriminate|].
      apply consistent_in_error; assumption.
  - assert (Hst : status s <> ERROR).
    { intro H. apply isError_spec in H. congruence. }
    assert (Hnone : error s = None) by now apply not_error_no_message.
    destruct e as [env | | | now message | inputData | | | | source]; cbn [step].
    + destruct (startSession_outcome env s) as [(H1 & H2) | (H1 & H2)].
      * now apply consistent_in_error.
      * apply consistent_no_error; congruence.
    + apply cleanup_consistent.
    + unfold onOpen.
      destruct (inputAudioContextRef s), (microphoneStreamRef s);
        apply consistent_no_error; cbn; congruence.
    + now apply handleMessage_consistent.
    + unfold onAudioProcess. destruct (sessionPromiseRef s);
        apply consistent_no_error; cbn; congruence.
    + apply cleanup_consistent.
    + apply cleanup_consistent.
    + apply cleanup_consistent.
    + destruct (sourceEnded_error source s) as (He & Hs).
      apply consistent_no_error; [|congruence].
      destruct Hs as [Hs | [Hs | Hs]]; rewrite Hs; congruence.
Qed.

(** Run in [ERROR] with its message, each of those handlers leaves the two
    cells apart. *)
Lemma step_unsettles (e : Event) (s : State) :
  status s = ERROR -> error s <> None -> unsettles e s = true ->
  (status (step e s) = ERROR /\ error (step e s) = None)
  \/ (status (step e s) <> ERROR /\ error (step e s) <> None).
Proof.
  intros Hst Hmsg Hu.
  destruct e as [env | | | now message | inputData | | | | source];
    cbn [step unsettles] in *; try discriminate.
  - left. apply negb_true_iff in Hu.
    destruct (startSession_acquires env s (or_intror Hst) Hu) as (H1 & H2).
    split; congruence.
  - right. unfold onOpen.
    destruct (inputAudioContextRef s), (microphoneStreamRef s); try discriminate.
    split; cbn; [discriminate | assumption].
  - right. unfold handleMessage.
    pose proof (tryBlock_error now message s) as (He & _).
    destruct (tryBlock now message s) as [s' [[] | | e]]; cbn [fst] in *;
      try discriminate.
    + split; [|congruence]. intro H. apply isError_spec in H.
      rewrite H in Hu. discriminate.
    + split; [|congruence]. intro H. apply isError_spec in H.
      rewrite H in Hu. discriminate.
  - right.
    destruct s as [st conv err session inCtx outCtx mic proc inAcc outAcc cursor
                     sources buffers fresh tr].
    unfold sourceEnded. cbv zeta. assignments.
    destruct (setDelete source sources); [|discriminate].
    split; cbn; [discriminate | assumption].
Qed.

(** C4, on two runs.  A start that fails on the microphone followed by a
    start that succeeds leaves [ERROR] with a null message (until the open
    signal); a second start failing on the microphone while the first
    session connects, followed by the open signal, leaves the message set
    with the status [LISTENING]. *)
Lemma status_and_message_can_disagree :
  let s1 := run [Start microphoneDenied; Start allGood] initialState in
  let s2 := run [Start allGood; Start microphoneDenied; Open] initialState in
  (atRest s1 /\ status s1 = ERROR /\ error s1 = None /\ ~ consistent s1)
  /\ (atRest s2 /\ status s2 = LISTENING /\ error s2 = Some microphoneError
      /\ ~ consistent s2).
Proof.
  cbv zeta. split.
  - split; [eexists; reflexivity|].
    split; [vm_compute; reflexivity|]. split; [vm_compute; reflexivity|].
    intros [H _]. apply H; vm_compute; reflexivity.
  - split; [eexists; reflexivity|].
    split; [vm_compute; reflexivity|]. split; [vm_compute; reflexivity|].
    intros [_ H].
    assert (E : status (run [Start allGood; Start microphoneDenied; Open] initialState)
                = ERROR).
    { apply H. vm_compute. discriminate. }
    vm_compute in E. discriminate.
Qed.

(** C4, amended.  Call unsettling a start in which nothing fails, the open
    signal when the microphone and the input sink are held, a message whose
    handling does not throw and sets a status, and the end of the last
    source of the playback set.  In every state reached at rest by runs of
    start, stop and the inbound-event handlers in which no unsettling
    handler is run while the status is [ERROR], the status is [ERROR] if and
    only if the error message is set; and from any state in which the
    status is [ERROR] with its message, an unsettling handler leaves a state
    in which they disagree. *)
Theorem status_error_iff_message (s : State) (e : Event) :
  (atRestGuarded s -> consistent s)
  /\ (consistent s -> status s = ERROR -> unsettles e s = true ->
      ~ consistent (step e s)).
Proof.
  split.
  - induction 1 as [|e' s' Hreach IH Hguard].
    + apply consistent_no_error; [discriminate | reflexivity].
    + now apply step_consistent.
  - intros Hc Hst Hu (H1 & H2).
    assert (Hmsg : error s <> None) by (apply Hc; exact Hst).
    destruct (step_unsettles e s Hst Hmsg Hu) as [(A & B) | (A & B)].
    + exact (H1 A B).
    + exact (A (H2 B)).
Qed.

Lemma status_error_iff_message_witness :
  let s := run [Start microphoneDenied; Start microphoneDenied; SessionError;
                Start microphoneDenied; AudioFrame []] initialState in
  consistent s
  /\ status s = ERROR
  /\ error s = Some microphoneError
  /\ ~ consistent (step (Start allGood) s).
Proof.
  cbv zeta.
  destruct (status_error_iff_message
              (run [Start microphoneDenied; Start microphoneDenied; SessionError;
                    Start microphoneDenied; AudioFrame []] initialState)
              (Start allGood)) as (Hinv & Hbreak).
  assert (Hc : consistent
                 (run [Start microphoneDenied; Start microphoneDenied; SessionError;
                       Start microphoneDenied; AudioFrame []] initialState)).
  { apply Hinv.
    apply (guarded_step (AudioFrame [])); [|reflexivity].
    apply (guarded_step (Start microphoneDenied)); [|reflexivity].
    apply (guarded_step SessionError); [|reflexivity].
    apply (guarded_step (Start microphoneDenied)); [|reflexivity].
    apply (guarded_step (Start microphoneDenied)); [|reflexivity].
    apply guarded_initial. }
  split; [exact Hc|].
  split; [vm_compute; reflexivity|]. split; [vm_compute; reflexivity|].
  apply Hbreak; [exact Hc | vm_compute; reflexivity | reflexivity].
Defined.

(** An inbound message and the end of a source, handled in [ERROR], move the
    status and leave the message. *)
Example message_or_ended_source_in_error :
  let s := run [Start microphoneDenied] initialState in
  let s1 := run [Start microphoneDenied; Message 0 turnCompleteSignal] initialState in
  let s2 := run [Start microphoneDenied; Ended 0] initialState in
  (status s = ERROR /\ error s = Some microphoneError)
  /\ (status s1 = LISTENING /\ error s1 = Some microphoneError)
  /\ (status s2 = LISTENING /\ error s2 = Some microphoneError).
Proof. cbv zeta. repeat split; vm_compute; reflexivity. Qed.

(** * Further properties of the codec *)

Lemma length_string_of_list_ascii (l : list ascii) :
  String.length (string_of_list_ascii l) = length l.
Proof. induction l as [|c l IH]; cbn; [reflexivity | now rewrite IH]. Qed.

Lemma btoa_list_length (l : list ascii) :
  length (Base64.btoa_list l) = (4 * ((length l + 2) / 3))%nat.
Proof.
  unfold Base64.btoa_list. rewrite length_app, length_map.
  induction l as [| a | a b | a b c l IH] using Base64Facts.list_ind3.
  - reflexivity.
  - destruct a. reflexivity.
  - destruct a, b. reflexivity.
  - destruct a, b, c. cbn [Base64.sextets_of_bytes length].
    rewrite Base64Facts.padding_step.
    replace (S (S (S (length l))) + 2)%nat with ((length l + 2) + 1 * 3)%nat by lia.
    rewrite Nat.div_add by discriminate. lia.
Qed.

Lemma encode_as_btoa (bytes : list byte) :
  encode bytes
  = string_of_list_ascii (Base64.btoa_list (map ascii_of_byte bytes)).
Proof.
  unfold encode, Base64.btoa. rewrite binary_of_bytes. cbn [String.append].
  now rewrite list_ascii_of_string_of_list_ascii.
Qed.

(** The length of a transport text. *)
Lemma encode_length_core (bytes : list byte) :
  String.length (encode bytes) = (4 * ((length bytes + 2) / 3))%nat.
Proof.
  rewrite encode_as_btoa, length_string_of_list_ascii, btoa_list_length.
  now rewrite length_map.
Qed.

(** X1. The transport text of [n] bytes has [4 * ceil (n / 3)] characters. *)
Theorem encode_length (bytes : list byte) :
  String.length (encode bytes) = (4 * ((length bytes + 2) / 3))%nat.
Proof. exact (encode_length_core bytes). Qed.

(** X2. Every character of a transport text is a letter, a digit, [+], [/]
    or the padding [=]; none is white space. *)
Theorem encode_alphabet (bytes : list byte) :
  Forall (fun c => (Base64.is_pad c = true \/ Base64.b64val c <> None)
                   /\ Base64.is_ascii_whitespace c = false)
         (list_ascii_of_string (encode bytes)).
Proof.
  rewrite encode_as_btoa, list_ascii_of_string_of_list_ascii.
  unfold Base64.btoa_list. apply Forall_app. split.
  - apply Forall_forall. intros c Hc. apply in_map_iff in Hc.
    destruct Hc as (s & <- & _). split.
    + right. rewrite Base64Facts.b64val_b64char. discriminate.
    + apply Base64Facts.b64char_not_whitespace.
  - destruct (Base64Facts.padding_cases (length (map ascii_of_byte bytes)))
      as [-> | [-> | ->]]; repeat constructor.
Qed.

(** The 16-bit view of an even number of bytes has half as many elements,
    all in the signed 16-bit range; an odd number of bytes is refused. *)
Lemma int16View_outcome (bytes : list byte) :
  (Nat.even (length bytes) = true ->
   exists dataInt16,
     int16View bytes = Ok dataInt16
     /\ length dataInt16 = (length bytes / 2)%nat
     /\ Forall (fun v => (-32768 <= v <= 32767)%Z) dataInt16
     /\ uint8View dataInt16 = bytes)
  /\ (Nat.even (length bytes) = false -> int16View bytes = Raise RangeError).
Proof.
  assert (H : forall n (l : list byte), (length l <= n)%nat ->
              (Nat.even (length l) = true ->
               exists dataInt16,
                 int16View l = Ok dataInt16
                 /\ length dataInt16 = (length l / 2)%nat
                 /\ Forall (fun v => (-32768 <= v <= 32767)%Z) dataInt16
                 /\ uint8View dataInt16 = l)
              /\ (Nat.even (length l) = false -> int16View l = Raise RangeError)).
  { induction n as [|n IH]; intros l Hlen.
    - destruct l; [|cbn in Hlen; lia]. split; [|discriminate].
      intros _. exists []. repeat split. constructor.
    - destruct l as [|lo [|hi rest]].
      + split; [|discriminate]. intros _. exists []. repeat split. constructor.
      + split; [discriminate | reflexivity].
      + cbn [length] in Hlen.
        destruct (IH rest ltac:(lia)) as (Heven & Hodd).
        change (Nat.even (length (lo :: hi :: rest))) with (Nat.even (length rest)).
        cbn [int16View]. split.
        * intros E. destruct (Heven E) as (tail & -> & Hl & Hr & Hb).
          eexists. split; [reflexivity|]. split; [|split].
          -- cbn [length]. rewrite Hl.
             replace (S (S (length rest))) with (length rest + 1 * 2)%nat by lia.
             rewrite Nat.div_add by discriminate. lia.
          -- constructor; [apply toInt16_range | exact Hr].
          -- cbn [uint8View flat_map app].
             change (flat_map (fun v => [byte_of_Z v; byte_of_Z (v / 256)]) tail)
               with (uint8View tail).
             rewrite Hb. f_equal; [|f_equal].
             ++ unfold byte_of_Z.
                replace (toInt16 (Z_of_byte lo + 256 * Z_of_byte hi) mod 256)%Z
                  with (Z_of_byte lo).
                { unfold Z_of_byte. rewrite N2Z.id, <- ascii_of_byte_via_N.
                  apply byte_of_ascii_of_byte. }
                unfold toInt16, Z_of_byte.
                pose proof (Byte.to_N_bounded lo). pose proof (Byte.to_N_bounded hi).
                Z.to_euclidean_division_equations. lia.
             ++ unfold byte_of_Z.
                replace ((toInt16 (Z_of_byte lo + 256 * Z_of_byte hi) / 256) mod 256)%Z
                  with (Z_of_byte hi).
                { unfold Z_of_byte. rewrite N2Z.id, <- ascii_of_byte_via_N.
                  apply byte_of_ascii_of_byte. }
                unfold toInt16, Z_of_byte.
                pose proof (Byte.to_N_bounded lo). pose proof (Byte.to_N_bounded hi).
                Z.to_euclidean_division_equations. lia.
        * intros E. now rewrite (Hodd E). }
  apply (H (length bytes)). lia.
Qed.

Lemma elements_freshArray (bytes : list byte) : elements (freshArray bytes) = bytes.
Proof. unfold elements, freshArray. cbn [u8_length u8_byteOffset u8_buffer skipn]. apply firstn_all. Qed.

(** What [createBuffer] has checked when it returns, and what it returns. *)
Lemma createBuffer_inv (ctx : Engine) (numChannels frameCount : nat) (rate : Q)
      (buffer : AudioBuffer) :
  createBuffer ctx numChannels frameCount rate = Ok buffer ->
  (0 < numChannels)%nat /\ (0 < frameCount)%nat
  /\ numberOfChannels buffer = numChannels
  /\ frameLength buffer = frameCount
  /\ sampleRate buffer = rate.
Proof.
  unfold createBuffer. intro H.
  destruct (numChannels =? 0)%nat eqn:E0; [discriminate|].
  destruct (frameCount =? 0)%nat eqn:E1; [discriminate|].
  cbn [orb] in H.
  destruct ((maxChannels ctx <? numChannels)%nat || Qle_bool rate 0
            || negb (Qle_bool (minRate ctx) rate && Qle_bool rate (maxRate ctx)));
    [discriminate|].
  apply Nat.eqb_neq in E0, E1. inversion H. cbn. repeat split; lia.
Qed.

(** A conforming browser makes a buffer of at least one frame for up to 32
    channels at a rate from 8000 to 96000. *)
Lemma createBuffer_nominal (ctx : Engine) (numChannels frameCount : nat) (rate : Q) :
  conforming ctx ->
  (0 < numChannels <= 32)%nat -> (0 < frameCount)%nat ->
  8000 <= rate -> rate <= 96000 ->
  exists buffer, createBuffer ctx numChannels frameCount rate = Ok buffer.
Proof.
  intros (Hc & Hmin & Hmax) Hn Hf Hlo Hhi. unfold createBuffer.
  assert (H0 : (numChannels =? 0)%nat = false) by (apply Nat.eqb_neq; lia).
  assert (H1 : (frameCount =? 0)%nat = false) by (apply Nat.eqb_neq; lia).
  assert (H2 : (maxChannels ctx <? numChannels)%nat = false) by (apply Nat.ltb_ge; lia).
  assert (H3 : Qle_bool rate 0 = false).
  { destruct (Qle_bool rate 0) eqn:E; [|reflexivity].
    apply Qle_bool_iff in E. exfalso.
    apply (Qle_not_lt _ _ (Qle_trans _ _ _ Hlo E)). reflexivity. }
  assert (H4 : Qle_bool (minRate ctx) rate = true).
  { apply Qle_bool_iff. eapply Qle_trans; eassumption. }
  assert (H5 : Qle_bool rate (maxRate ctx) = true).
  { apply Qle_bool_iff. eapply Qle_trans; eassumption. }
  rewrite H0, H1, H2, H3, H4, H5. eexists. reflexivity.
Qed.

Lemma createBuffer_nothing (ctx : Engine) (numChannels frameCount : nat) (rate : Q) :
  (numChannels = 0 \/ frameCount = 0)%nat ->
  createBuffer ctx numChannels frameCount rate = Raise NotSupportedError.
Proof.
  unfold createBuffer. intros [-> | ->]; [reflexivity|].
  now rewrite Nat.eqb_refl, orb_true_r.
Qed.

(** X3. [decodeAudioData] looks at the buffer behind the array it is given,
    not at the window of the array.  It throws a [RangeError] when that
    buffer has an odd number of bytes, and a [NotSupportedError] when there
    is no channel or not one frame of the buffer for every channel; in every
    other case, on a conforming browser and for a rate and a number of
    channels that every browser accepts (8000 to 96000 Hz, up to 32
    channels), it returns a buffer. *)
Theorem decodeAudioData_outcome (array : Uint8Array) (ctx : Engine) (rate : Q)
        (numChannels : nat) :
  let bytes := u8_buffer array in
  (Nat.even (length bytes) = false ->
   decodeAudioData array ctx rate numChannels = Raise RangeError)
  /\ (Nat.even (length bytes) = true ->
      (numChannels = 0 \/ length bytes / 2 < numChannels)%nat ->
      decodeAudioData array ctx rate numChannels = Raise NotSupportedError)
  /\ (Nat.even (length bytes) = true ->
      (0 < numChannels <= length bytes / 2)%nat ->
      conforming ctx ->
      (numChannels <= 32)%nat -> 8000 <= rate -> rate <= 96000 ->
      exists buffer, decodeAudioData array ctx rate numChannels = Ok buffer).
Proof.
  cbv zeta. destruct (int16View_outcome (u8_buffer array)) as (Heven & Hodd).
  unfold decodeAudioData. split; [|split].
  - intros E. now rewrite (Hodd E).
  - intros E Hn. destruct (Heven E) as (ints & -> & Hl & _). cbv zeta. rewrite Hl.
    rewrite createBuffer_nothing; [reflexivity|].
    destruct Hn as [-> | Hn]; [now left | right].
    now apply Nat.div_small.
  - intros E Hn Hc H32 Hlo Hhi. destruct (Heven E) as (ints & -> & Hl & _).
    cbv zeta. rewrite Hl.
    destruct (createBuffer_nominal ctx numChannels
                (length (u8_buffer array) / 2 / numChannels) rate Hc)
      as (buffer & ->); try assumption; try lia.
    + apply Nat.div_str_pos. lia.
    + eexists. reflexivity.
Qed.

Lemma decodeAudioData_outcome_witness :
  exists buffer,
    decodeAudioData {| u8_buffer := [x00; x40]%byte; u8_byteOffset := 0; u8_length := 1 |}
                    leastEngine 24000 1 = Ok buffer.
Proof.
  destruct (decodeAudioData_outcome
              {| u8_buffer := [x00; x40]%byte; u8_byteOffset := 0; u8_length := 1 |}
              leastEngine 24000 1) as (_ & _ & H).
  apply H.
  - reflexivity.
  - cbn. lia.
  - unfold conforming, leastEngine. cbn. split; [lia|]. split; apply Qle_refl.
  - lia.
  - discriminate.
  - discriminate.
Defined.

Lemma decodeAudioData_inv (array : Uint8Array) (ctx : Engine) (rate : Q)
      (numChannels : nat) (buffer : AudioBuffer) :
  decodeAudioData array ctx rate numChannels = Ok buffer ->
  exists dataInt16,
    int16View (u8_buffer array) = Ok dataInt16
    /\ length dataInt16 = (length (u8_buffer array) / 2)%nat
    /\ Forall (fun v => (-32768 <= v <= 32767)%Z) dataInt16
    /\ uint8View dataInt16 = u8_buffer array
    /\ (0 < numChannels)%nat
    /\ (0 < length dataInt16 / numChannels)%nat
    /\ buffer = {| numberOfChannels := numChannels;
                   frameLength := (length dataInt16 / numChannels)%nat;
                   sampleRate := rate;
                   channels := map (getChannelData dataInt16 numChannels
                                      (length dataInt16 / numChannels))
                                   (seq 0 numChannels) |}.
Proof.
  intros H. destruct (int16View_outcome (u8_buffer array)) as (Heven & Hodd).
  unfold decodeAudioData in H.
  destruct (Nat.even (length (u8_buffer array))) eqn:E.
  - destruct (Heven eq_refl) as (ints & Hv & Hl & Hr & Hb). rewrite Hv in H.
    exists ints. cbv zeta in H.
    destruct (createBuffer ctx numChannels (length ints / numChannels) rate)
      as [made | e] eqn:Emade; [|discriminate].
    destruct (createBuffer_inv _ _ _ _ _ Emade) as (H0 & H1 & H2 & H3 & H4).
    rewrite H2, H3, H4 in H.
    repeat split; try assumption. now inversion H.
  - rewrite (Hodd eq_refl) in H. discriminate.
Qed.

(** X4. The buffer [decodeAudioData] returns has the number of channels
    asked for, each of as many frames as there are whole groups of
    [numChannels] 16-bit elements in the buffer behind the array (all of it,
    whatever the window of the array); frame [i] of channel [c] is element
    [i * numChannels + c] divided by 32768; its duration is the number of
    frames over the rate. *)
Theorem decodeAudioData_deinterleaves (array : Uint8Array) (ctx : Engine) (rate : Q)
        (numChannels : nat) (buffer : AudioBuffer) :
  decodeAudioData array ctx rate numChannels = Ok buffer ->
  exists dataInt16,
    int16View (u8_buffer array) = Ok dataInt16
    /\ numberOfChannels buffer = numChannels
    /\ length (channels buffer) = numChannels
    /\ frameLength buffer = (length (u8_buffer array) / 2 / numChannels)%nat
    /\ duration buffer
       = inject_Z (Z.of_nat (length (u8_buffer array) / 2 / numChannels)) / rate
    /\ forall c, (c < numChannels)%nat ->
         length (nth c (channels buffer) []) = frameLength buffer
         /\ forall i, (i < frameLength buffer)%nat ->
              nth i (nth c (channels buffer) []) 0
              = inject_Z (nth (i * numChannels + c) dataInt16 0%Z) / 32768.
Proof.
  intros H.
  destruct (decodeAudioData_inv _ _ _ _ _ H) as (ints & Hv & Hl & _ & _ & Hn & Hf & ->).
  exists ints. unfold duration. cbn [numberOfChannels channels frameLength sampleRate].
  rewrite length_map, length_seq, Hl.
  set (frames := (length (u8_buffer array) / 2 / numChannels)%nat).
  repeat split; try reflexivity; try assumption.
  - rewrite (nth_indep _ [] (getChannelData ints numChannels frames 0))
      by now rewrite length_map, length_seq.
    rewrite map_nth, seq_nth by assumption.
    unfold getChannelData. now rewrite length_map, length_seq.
  - intros i Hi.
    rewrite (nth_indep _ [] (getChannelData ints numChannels frames 0))
      by now rewrite length_map, length_seq.
    rewrite map_nth, seq_nth by assumption. cbn [Nat.add].
    unfold getChannelData.
    set (f := fun k => inject_Z (nth (k * numChannels + c) ints 0%Z) / 32768).
    rewrite (nth_indep _ 0 (f 0%nat)) by now rewrite length_map, length_seq.
    rewrite map_nth, seq_nth by assumption. reflexivity.
Qed.

(** A window of two bytes, two bytes into a buffer of six: all three
    elements of the buffer are decoded. *)
Lemma decodeAudioData_deinterleaves_witness :
  exists buffer dataInt16,
    decodeAudioData
      {| u8_buffer := [x00; x40; x00; x80; xff; x7f]%byte;
         u8_byteOffset := 2; u8_length := 2 |} leastEngine 24000 1 = Ok buffer
    /\ int16View [x00; x40; x00; x80; xff; x7f]%byte = Ok dataInt16
    /\ frameLength buffer = 3%nat
    /\ forall c, (c < 1)%nat ->
         length (nth c (channels buffer) []) = frameLength buffer
         /\ forall i, (i < frameLength buffer)%nat ->
              nth i (nth c (channels buffer) []) 0
              = inject_Z (nth (i * 1 + c) dataInt16 0%Z) / 32768.
Proof.
  destruct (decodeAudioData
              {| u8_buffer := [x00; x40; x00; x80; xff; x7f]%byte;
                 u8_byteOffset := 2; u8_length := 2 |} leastEngine 24000 1)
    as [buffer | e] eqn:E; [|vm_compute in E; discriminate].
  exists buffer.
  destruct (decodeAudioData_deinterleaves _ _ _ _ _ E)
    as (ints & Hv & _ & _ & Hf & _ & Hc).
  exists ints. repeat split; try assumption; apply (Hc c H).
Defined.

Example stereo_fragment :
  option_map channels
    (match decodeAudioData
             (freshArray [x00; x40; x00; x80; xff; x7f; x00; x00]%byte)
             leastEngine 24000 2 with
     | Ok buffer => Some buffer
     | Raise _ => None
     end)
  = Some [[inject_Z 16384 / 32768; inject_Z 32767 / 32768];
          [inject_Z (-32768) / 32768; inject_Z 0 / 32768]].
Proof. vm_compute. reflexivity. Qed.

(** X5. Every sample of a decoded buffer lies in [[-1, 1)]. *)
Theorem decoded_samples_bounded (array : Uint8Array) (ctx : Engine) (rate : Q)
        (numChannels : nat) (buffer : AudioBuffer) :
  decodeAudioData array ctx rate numChannels = Ok buffer ->
  forall channel x, In channel (channels buffer) -> In x channel -> -1 <= x /\ x < 1.
Proof.
  intros H channel x Hch Hx.
  destruct (decodeAudioData_inv _ _ _ _ _ H) as (ints & _ & _ & Hr & _ & _ & _ & ->).
  cbn [channels] in Hch. apply in_map_iff in Hch. destruct Hch as (c & <- & _).
  unfold getChannelData in Hx. apply in_map_iff in Hx. destruct Hx as (i & <- & _).
  assert (Hv : (-32768 <= nth (i * numChannels + c) ints 0 <= 32767)%Z).
  { destruct (Nat.lt_ge_cases (i * numChannels + c) (length ints)) as [Hlt | Hge].
    - rewrite Forall_forall in Hr. apply Hr. now apply nth_In.
    - rewrite nth_overflow by exact Hge. lia. }
  unfold Qle, Qlt, Qdiv, Qmult, Qinv, inject_Z. cbn. lia.
Qed.

Lemma decoded_samples_bounded_witness :
  -1 <= inject_Z (-32768) / 32768 /\ inject_Z (-32768) / 32768 < 1.
Proof.
  apply (decoded_samples_bounded (freshArray [x00; x40; x00; x80]%byte) leastEngine 24000 1
           {| numberOfChannels := 1; frameLength := 2; sampleRate := 24000;
              channels := [[inject_Z 16384 / 32768; inject_Z (-32768) / 32768]] |}
           ltac:(vm_compute; reflexivity)
           [inject_Z 16384 / 32768; inject_Z (-32768) / 32768]).
  - left. reflexivity.
  - right. left. reflexivity.
Defined.

Lemma truncate_normalised (v : Z) : truncate (inject_Z v / 32768 * 32768) = v.
Proof.
  unfold truncate, Qdiv, Qmult, Qinv, inject_Z. cbn [Qnum Qden].
  cbn [Qnum Qden Z.mul Pos.mul].
  replace (v * 1 * 32768)%Z with (v * 32768)%Z by lia.
  apply Z.quot_mul. discriminate.
Qed.

(** X6. When [decodeAudioData] returns a buffer of one channel, [createBlob]
    of its samples carries the transport text of the bytes that were
    decoded, those of the whole buffer behind the array, and [decode] gives
    these bytes back: encoding after decoding loses nothing.  For an array
    that is the whole of its buffer, as [decode] returns it, these are the
    bytes of the array. *)
Theorem pcm_decode_then_encode (array : Uint8Array) (ctx : Engine) (rate : Q)
        (buffer : AudioBuffer) :
  decodeAudioData array ctx rate 1 = Ok buffer ->
  data (createBlob (nth 0 (channels buffer) [])) = Some (encode (u8_buffer array))
  /\ decode (encode (u8_buffer array)) = Ok (u8_buffer array)
  /\ (forall bytes, array = freshArray bytes ->
        data (createBlob (nth 0 (channels buffer) [])) = Some (encode (elements array))).
Proof.
  intros H.
  assert (Hblob : data (createBlob (nth 0 (channels buffer) []))
                  = Some (encode (u8_buffer array))).
  { destruct (decodeAudioData_inv _ _ _ _ _ H) as (ints & _ & _ & Hr & Hb & _ & _ & ->).
    cbn [channels map seq nth]. rewrite Nat.div_1_r, getChannelData_mono.
    unfold createBlob. cbn [data]. rewrite map_map, <- Hb. do 3 f_equal.
    rewrite <- (map_id ints) at 2. apply map_ext_in.
    intros v Hv. rewrite truncate_normalised. apply toInt16_id.
    rewrite Forall_forall in Hr. now apply Hr. }
  split; [exact Hblob|]. split; [apply decode_encode_bytes|].
  intros bytes ->. rewrite Hblob, elements_freshArray. reflexivity.
Qed.

Lemma pcm_decode_then_encode_witness :
  data (createBlob [inject_Z 16384 / 32768; inject_Z (-32768) / 32768])
  = Some (encode [x00; x40; x00; x80]%byte)
  /\ decode (encode [x00; x40; x00; x80]%byte) = Ok [x00; x40; x00; x80]%byte.
Proof.
  destruct (pcm_decode_then_encode (freshArray [x00; x40; x00; x80]%byte) leastEngine 24000
              {| numberOfChannels := 1; frameLength := 2; sampleRate := 24000;
                 channels := [[inject_Z 16384 / 32768; inject_Z (-32768) / 32768]] |}
              ltac:(vm_compute; reflexivity)) as (H1 & H2 & _).
  split; [exact H1 | exact H2].
Defined.

Lemma uint8View_length (int16 : list Z) : length (uint8View int16) = (2 * length int16)%nat.
Proof.
  induction int16 as [|v l IH]; [reflexivity|].
  change (uint8View (v :: l)) with (byte_of_Z v :: byte_of_Z (v / 256) :: uint8View l).
  cbn [length]. rewrite IH. lia.
Qed.

(** What [createBlob] puts in the blob. *)
Lemma createBlob_payload_core (samples : list Q) :
  exists base64 bytes,
    createBlob samples
    = {| data := Some base64; mimeType := Some "audio/pcm;rate=16000" |}
    /\ decode base64 = Ok bytes
    /\ length bytes = (2 * length samples)%nat
    /\ String.length base64 = (4 * ((2 * length samples + 2) / 3))%nat
    /\ exists dataInt16,
         int16View bytes = Ok dataInt16 /\ length dataInt16 = length samples.
Proof.
  destruct (createBlob_read samples) as (_ & Hdecode & Hview).
  cbv zeta in Hdecode, Hview.
  set (int16 := map (fun x => toInt16 (truncate (x * 32768))) samples) in *.
  exists (encode (uint8View int16)), (uint8View int16).
  split; [reflexivity|]. split; [exact Hdecode|].
  assert (Hl : length (uint8View int16) = (2 * length samples)%nat).
  { rewrite uint8View_length. unfold int16. now rewrite length_map. }
  split; [exact Hl|]. split; [now rewrite encode_length_core, Hl|].
  exists int16. split; [exact Hview|]. unfold int16. apply length_map.
Qed.

(** X7. Whatever the samples (inside [[-1, 1]] or not), the payload of
    [createBlob] is a transport text that decodes, to two bytes for every
    sample, and the blob is labelled as 16 kHz PCM. *)
Theorem createBlob_payload (samples : list Q) :
  exists base64 bytes,
    createBlob samples
    = {| data := Some base64; mimeType := Some "audio/pcm;rate=16000" |}
    /\ decode base64 = Ok bytes
    /\ length bytes = (2 * length samples)%nat
    /\ String.length base64 = (4 * ((2 * length samples + 2) / 3))%nat
    /\ exists dataInt16,
         int16View bytes = Ok dataInt16 /\ length dataInt16 = length samples.
Proof. exact (createBlob_payload_core samples). Qed.

(** * Further properties of the sound service *)

Lemma isPreloaded_add (n a : string) (s : State) :
  isPreloaded n (setAudioBuffers (audioBuffers s ++ [a]) s)
  = isPreloaded n s || String.eqb n a.
Proof.
  unfold isPreloaded. cbn [audioBuffers setAudioBuffers].
  rewrite existsb_app. cbn [existsb]. now rewrite orb_false_r.
Qed.

(** The loop of [preloadSounds] over any list of names. *)
Lemma preload_loop (names library : list string) (n : string) (s : State) :
  let s' := fold_left
              (fun s soundName =>
                 if isPreloaded soundName s then s
                 else if existsb (String.eqb soundName) names
                      then setAudioBuffers (audioBuffers s ++ [soundName]) s
                      else s)
              library s in
  isPreloaded n s'
  = isPreloaded n s
    || (existsb (String.eqb n) library && existsb (String.eqb n) names)
  /\ exists added, s' = setAudioBuffers (audioBuffers s ++ added) s.
Proof.
  cbv zeta. revert s. induction library as [|a library IH]; intro s; cbn [fold_left existsb].
  - split; [now rewrite orb_false_r|].
    exists []. rewrite app_nil_r. now destruct s.
  - destruct (isPreloaded a s) eqn:Ea.
    + destruct (IH s) as (H1 & added & H2). split; [|now exists added].
      rewrite H1. destruct (String.eqb_spec n a) as [-> | _]; [|reflexivity].
      rewrite Ea. reflexivity.
    + destruct (existsb (String.eqb a) names) eqn:Ed.
      * destruct (IH (setAudioBuffers (audioBuffers s ++ [a]) s)) as (H1 & added & H2).
        split.
        -- rewrite H1, isPreloaded_add.
           destruct (String.eqb_spec n a) as [-> | _].
           ++ rewrite Ed. cbn. now rewrite !orb_true_r.
           ++ now rewrite orb_false_r.
        -- exists (a :: added). rewrite H2. destruct s. cbn.
           now rewrite <- app_assoc.
      * destruct (IH s) as (H1 & added & H2). split; [|now exists added].
        rewrite H1. destruct (String.eqb_spec n a) as [-> | _]; [|reflexivity].
        rewrite Ed. cbn. now rewrite andb_false_r.
Qed.

(** The cache after [preloadSounds]. *)
Lemma preloadSounds_cache_core (names : list string) (n : string) (s : State) :
  isPreloaded n (preloadSounds names s)
  = isPreloaded n s
    || (existsb (String.eqb n) soundLibrary && existsb (String.eqb n) names)
  /\ exists added,
       preloadSounds names s = setAudioBuffers (audioBuffers s ++ added) s.
Proof. exact (preload_loop names soundLibrary n s). Qed.

(** X8. After [preloadSounds], a sound is in the cache exactly when it was
    there before or it is a declared sound whose asset decodes: a failed
    decode keeps neither the others nor earlier entries out.  Nothing but
    the cache changes, and the cache only grows. *)
Theorem preloadSounds_cache (names : list string) (n : string) (s : State) :
  isPreloaded n (preloadSounds names s)
  = isPreloaded n s
    || (existsb (String.eqb n) soundLibrary && existsb (String.eqb n) names)
  /\ exists added,
       preloadSounds names s = setAudioBuffers (audioBuffers s ++ added) s.
Proof. exact (preloadSounds_cache_core names n s). Qed.

Lemma preload_loop_done (names library : list string) (s : State) :
  (forall a, In a library ->
     isPreloaded a s = true \/ existsb (String.eqb a) names = false) ->
  fold_left
    (fun s soundName =>
       if isPreloaded soundName s then s
       else if existsb (String.eqb soundName) names
            then setAudioBuffers (audioBuffers s ++ [soundName]) s
            else s)
    library s = s.
Proof.
  induction library as [|a library IH]; intro H; cbn [fold_left]; [reflexivity|].
  destruct (H a (or_introl eq_refl)) as [-> | E].
  - apply IH. intros b Hb. apply H. now right.
  - destruct (isPreloaded a s); rewrite ?E; apply IH; intros b Hb; apply H; now right.
Qed.

(** X9. Preloading twice is preloading once: the second pass finds every
    decodable declared sound in the cache and skips it. *)
Theorem preloadSounds_idempotent (names : list string) (s : State) :
  preloadSounds names (preloadSounds names s) = preloadSounds names s.
Proof.
  unfold preloadSounds at 1. apply preload_loop_done.
  intros a Ha. destruct (preloadSounds_cache_core names a s) as (H & _).
  rewrite H.
  assert (Hlib : existsb (String.eqb a) soundLibrary = true).
  { apply existsb_exists. exists a. split; [exact Ha | apply String.eqb_refl]. }
  rewrite Hlib. cbn [andb].
  destruct (existsb (String.eqb a) names); [left; apply orb_true_r | now right].
Qed.

(** X10. After [preloadSounds], playing a declared sound whose asset
    decoded, on a running sink, starts exactly one one-shot source and does
    not throw; on a sink that does not run no sound is ever played and
    nothing is thrown, whatever the name. *)
Theorem preloaded_sound_plays (names : list string) (soundName : string)
        (ctx : AudioContext) (s : State) :
  (In soundName soundLibrary -> In soundName names -> isRunning ctx = true ->
   playSound soundName ctx (preloadSounds names s)
   = (emit (PlaySound soundName) (preloadSounds names s), Normal tt))
  /\ (isRunning ctx = false ->
      playSound soundName ctx s = (s, Normal tt)).
Proof.
  split.
  - intros Hlib Hnames Hrun. unfold playSound, bind, get.
    destruct (preloadSounds_cache_core names soundName s) as (H & _).
    assert (H1 : existsb (String.eqb soundName) soundLibrary = true).
    { apply existsb_exists. exists soundName. split; [exact Hlib | apply String.eqb_refl]. }
    assert (H2 : existsb (String.eqb soundName) names = true).
    { apply existsb_exists. exists soundName. split; [exact Hnames | apply String.eqb_refl]. }
    rewrite H, H1, H2, orb_true_r, Hrun. reflexivity.
  - intros Hrun. unfold playSound, bind, get. rewrite Hrun.
    destruct (isPreloaded soundName s); [reflexivity|].
    destruct (isInherited soundName); reflexivity.
Qed.

Lemma preloaded_sound_plays_witness :
  playSound "thump" {| ctx_state := running; ctx_rate := 24000 |}
            (preloadSounds ["thump"] initialState)
  = (emit (PlaySound "thump") (preloadSounds ["thump"] initialState), Normal tt)
  /\ playSound "thump" {| ctx_state := suspended; ctx_rate := 24000 |} initialState
     = (initialState, Normal tt).
Proof.
  destruct (preloaded_sound_plays ["thump"] "thump"
              {| ctx_state := running; ctx_rate := 24000 |} initialState) as (H & _).
  destruct (preloaded_sound_plays ["thump"] "thump"
              {| ctx_state := suspended; ctx_rate := 24000 |} initialState) as (_ & H').
  split; [apply H | apply H']; try reflexivity; cbn; auto.
Defined.

(** * Further properties of the hook *)

(** ** Starting *)

Lemma preloadSounds_only_cache (names : list string) (s : State) :
  preloadSounds names s = setAudioBuffers (audioBuffers (preloadSounds names s)) s.
Proof.
  destruct (preloadSounds_cache_core names "" s) as (_ & added & H).
  rewrite H. now destruct s.
Qed.

Lemma startFailed_spec (name : string) (s : State) :
  startFailed name s = setStatus ERROR (setError (Some (startErrorMessage name)) s).
Proof.
  unfold startFailed, startErrorMessage. cbv zeta.
  now destruct (String.eqb name "NotAllowedError" || String.eqb name "NotFoundError").
Qed.

(** X11. A start that fails at some stage (for the resume of the output
    sink, a stage reached only when that sink comes up suspended) ends in
    [ERROR], with the microphone message when the error is named
    [NotAllowedError] or [NotFoundError] and the set-up message otherwise.
    It tears nothing down: no call is made on what was acquired before the
    failure, the microphone stream is still held when the failure came after
    it, and the session handle is what it was. *)
Theorem failed_start (env : StartEnv) (stage : StartStage) (name : string) (s : State) :
  status s = IDLE \/ status s = ERROR ->
  failsAt env = Some (stage, name) ->
  (stage = Resume -> outputInitially env = suspended) ->
  let s' := startSession env s in
  status s' = ERROR
  /\ error s' = Some (startErrorMessage name)
  /\ trace s' = trace s
  /\ sessionPromiseRef s' = sessionPromiseRef s
  /\ (stage <> GetUserMedia -> microphoneStreamRef s' = Some Microphone)
  /\ (stage = GetUserMedia -> microphoneStreamRef s' = microphoneStreamRef s).
Proof.
  intros Hst Hfail Hresume. cbv zeta. unfold startSession, failure. cbv zeta.
  rewrite Hfail.
  destruct s as [st conv err session inCtx outCtx mic proc inAcc outAcc cursor
                   sources buffers fresh tr].
  cbn [status] in Hst.
  change (status (setError None _)) with st.
  assert (Hidle : st = IDLE \/ st = ERROR) by exact Hst.
  destruct stage; cbn [stage_eqb];
    try (rewrite (Hresume eq_refl));
    destruct Hidle as [-> | ->];
    try (destruct (outputInitially env));
    rewrite ?startFailed_spec;
    try (rewrite (preloadSounds_only_cache (decodable env)));
    repeat split; try reflexivity; try congruence.
Qed.

Lemma failed_start_witness :
  status (startSession microphoneDenied initialState) = ERROR
  /\ error (startSession microphoneDenied initialState)
     = Some (startErrorMessage "NotAllowedError")
  /\ trace (startSession microphoneDenied initialState) = trace initialState
  /\ sessionPromiseRef (startSession microphoneDenied initialState)
     = sessionPromiseRef initialState
  /\ (GetUserMedia <> GetUserMedia ->
      microphoneStreamRef (startSession microphoneDenied initialState) = Some Microphone)
  /\ (GetUserMedia = GetUserMedia ->
      microphoneStreamRef (startSession microphoneDenied initialState)
      = microphoneStreamRef initialState).
Proof.
  apply (failed_start microphoneDenied GetUserMedia "NotAllowedError" initialState).
  - left. reflexivity.
  - reflexivity.
  - discriminate.
Defined.

(** X12. A start from [IDLE] or [ERROR] in which nothing fails leaves the
    status as it was and the message null, empties the log, holds the
    microphone, an input sink at 16 kHz, an output sink at 24 kHz (running,
    resumed if it came up suspended) and the new session handle, keeps the
    transcript accumulators, and makes no call on anything held before (a
    handle it replaces is not closed).  The open signal then attaches the
    processing node and sets [LISTENING]. *)
Theorem successful_start (env : StartEnv) (s : State) :
  status s = IDLE \/ status s = ERROR ->
  failsAt env = None ->
  let s' := startSession env s in
  status s' = status s
  /\ error s' = None
  /\ conversation s' = []
  /\ sessionPromiseRef s' = Some (newSession env)
  /\ microphoneStreamRef s' = Some Microphone
  /\ (exists ctx, inputAudioContextRef s' = Some ctx /\ ctx_rate ctx = 16000)
  /\ (outputInitially env <> closed ->
      outputAudioContextRef s' = Some {| ctx_state := running; ctx_rate := 24000 |})
  /\ currentInputTranscriptionRef s' = currentInputTranscriptionRef s
  /\ currentOutputTranscriptionRef s' = currentOutputTranscriptionRef s
  /\ trace s' = trace s
  /\ status (onOpen s') = LISTENING
  /\ scriptProcessorRef (onOpen s') = Some ScriptProcessor.
Proof.
  intros Hst Hfail. cbv zeta. unfold startSession, failure, onOpen. cbv zeta.
  rewrite Hfail.
  destruct s as [st conv err session inCtx outCtx mic proc inAcc outAcc cursor
                   sources buffers fresh tr].
  cbn [status] in Hst.
  change (status (setError None _)) with st.
  destruct Hst as [-> | ->];
    destruct (outputInitially env);
    rewrite (preloadSounds_only_cache (decodable env));
    repeat (split; [reflexivity|]);
    (split; [eexists; split; reflexivity|]);
    (split; [intro H; try reflexivity; now elim H|]);
    repeat split; reflexivity.
Qed.

Lemma successful_start_witness :
  status (onOpen (startSession allGood initialState)) = LISTENING
  /\ sessionPromiseRef (startSession allGood initialState) = Some 1%nat
  /\ outputAudioContextRef (startSession allGood initialState)
     = Some {| ctx_state := running; ctx_rate := 24000 |}
  /\ trace (startSession allGood initialState) = [].
Proof.
  destruct (successful_start allGood initialState (or_introl eq_refl) eq_refl)
    as (_ & _ & _ & Hsession & _ & _ & Hout & _ & _ & Htrace & Hopen & _).
  split; [exact Hopen|]. split; [exact Hsession|].
  split; [apply Hout; discriminate | exact Htrace].
Defined.

(** X13. An open signal that arrives after teardown is ignored: with the
    microphone released, [onOpen] changes nothing, and the status stays
    [IDLE]. *)
Theorem open_after_stop_is_ignored (s : State) :
  onOpen (stopSession s) = stopSession s
  /\ status (onOpen (stopSession s)) = IDLE.
Proof.
  unfold stopSession, onOpen. rewrite cleanup_spec.
  cbn [inputAudioContextRef microphoneStreamRef].
  destruct (afterClose (inputAudioContextRef s)); split; reflexivity.
Qed.

(** ** The error callbacks *)

Lemma cleanup_forgets_status (st : StorytellerStatus) (message : option string)
      (s : State) :
  cleanup (setStatus st (setError message s)) = cleanup s.
Proof. rewrite !cleanup_spec. destruct s. reflexivity. Qed.

(** X14. The session-error callback, the connection-failure callback, the
    close callback and the [catch] of the message handler all have exactly
    the effect of [stop]: the message and the [ERROR] status they set are
    overwritten by the teardown that follows. *)
Theorem error_callbacks_are_stop (s : State) :
  onError s = stopSession s
  /\ onConnectionError s = stopSession s
  /\ onClose s = stopSession s
  /\ catchBlock s = stopSession s.
Proof.
  unfold onError, onConnectionError, onClose, catchBlock, stopSession. cbv zeta.
  rewrite !cleanup_forgets_status. repeat split.
Qed.

(** ** Captured frames *)

(** X15. A captured frame handled while a session handle is held is handed
    to the session once, as a blob labelled 16 kHz PCM whose payload decodes
    to two bytes for every sample; nothing else changes.  Without a handle
    the frame is dropped. *)
Theorem captured_frame (inputData : list Q) (s : State) :
  (forall session, sessionPromiseRef s = Some session ->
     exists base64 bytes,
       onAudioProcess inputData s
       = emit (SessionThen session
                 (SendRealtimeInput
                    {| data := Some base64; mimeType := Some "audio/pcm;rate=16000" |})) s
       /\ decode base64 = Ok bytes
       /\ length bytes = (2 * length inputData)%nat)
  /\ (sessionPromiseRef s = None -> onAudioProcess inputData s = s).
Proof.
  unfold onAudioProcess. cbv zeta. split.
  - intros session ->.
    destruct (createBlob_payload_core inputData) as (base64 & bytes & Hblob & Hd & Hl & _).
    exists base64, bytes. rewrite Hblob. auto.
  - now intros ->.
Qed.

Lemma captured_frame_witness :
  (exists base64 bytes,
     onAudioProcess [1 # 2; -1] liveState
     = emit (SessionThen 1
               (SendRealtimeInput
                  {| data := Some base64; mimeType := Some "audio/pcm;rate=16000" |}))
            liveState
     /\ decode base64 = Ok bytes
     /\ length bytes = (2 * length [1 # 2; -1]%Q)%nat)
  /\ onAudioProcess [1 # 2; -1] initialState = initialState.
Proof.
  destruct (captured_frame [1 # 2; -1] liveState) as (H & _).
  destruct (captured_frame [1 # 2; -1] initialState) as (_ & H').
  split; [apply (H 1%nat); reflexivity | apply H'; reflexivity].
Defined.

(** ** The end of a source *)

Lemma sourceEnded_spec (source : nat) (s : State) :
  sourceEnded source s
  = match setDelete source (audioSourcesRef s) with
    | [] => setStatus LISTENING (setAudioSourcesRef [] s)
    | rest => setAudioSourcesRef rest s
    end.
Proof.
  destruct s. unfold sourceEnded. cbv zeta. cbn [audioSourcesRef setAudioSourcesRef].
  now destruct (setDelete source audioSourcesRef0).
Qed.

(** X16. When a source ends, it leaves the playback set; the status becomes
    [LISTENING] if the set is then empty and is unchanged otherwise.  The
    [ended] events that follow a teardown or an interruption find the set
    empty, so that each of them sets [LISTENING], also after [stop]. *)
Theorem ended_source (source : nat) (s : State) (now : Q) :
  audioSourcesRef (sourceEnded source s) = setDelete source (audioSourcesRef s)
  /\ (setDelete source (audioSourcesRef s) = [] ->
      status (sourceEnded source s) = LISTENING)
  /\ (setDelete source (audioSourcesRef s) <> [] ->
      status (sourceEnded source s) = status s)
  /\ status (sourceEnded source (stopSession s)) = LISTENING
  /\ status (sourceEnded source (handleMessage now interruptedSignal s)) = LISTENING.
Proof.
  rewrite !sourceEnded_spec. split; [|split; [|split; [|split]]].
  - now destruct (setDelete source (audioSourcesRef s)).
  - now intros ->.
  - intros H. destruct (setDelete source (audioSourcesRef s)); [contradiction | reflexivity].
  - unfold stopSession. rewrite cleanup_spec. reflexivity.
  - change (handleMessage now interruptedSignal s) with (interrupt s).
    rewrite interrupt_spec. reflexivity.
Qed.

Lemma ended_source_witness :
  status (sourceEnded 0 (scheduleAll [(0, bufferOf 10)] initialState)) = LISTENING
  /\ status (sourceEnded 0 (scheduleAll [(0, bufferOf 10); (0, bufferOf 10)] initialState))
     = IDLE.
Proof.
  destruct (ended_source 0 (scheduleAll [(0, bufferOf 10)] initialState) 0)
    as (_ & H & _).
  destruct (ended_source 0 (scheduleAll [(0, bufferOf 10); (0, bufferOf 10)] initialState) 0)
    as (_ & _ & H' & _).
  split; [apply H; reflexivity | rewrite H'; [reflexivity | discriminate]].
Defined.

(** ** Playback running out *)

Lemma setDelete_filter (source : nat) (sources : list nat) :
  setDelete source sources = filter (notAmong [source]) sources.
Proof.
  unfold setDelete, notAmong. apply filter_ext. intro x. cbn [existsb].
  now rewrite orb_false_r, Nat.eqb_sym.
Qed.

Lemma filter_filter {A} (f g : A -> bool) (l : list A) :
  filter f (filter g l) = filter (fun x => g x && f x) l.
Proof.
  induction l as [|a l IH]; cbn [filter]; [reflexivity|].
  destruct (g a); cbn [filter andb]; [destruct (f a)|]; now rewrite IH.
Qed.

Lemma ended_run (ended : list nat) (s : State) :
  let s' := run (endedEvents ended) s in
  audioSourcesRef s' = filter (notAmong ended) (audioSourcesRef s)
  /\ (audioSourcesRef s' <> [] -> status s' = status s).
Proof.
  cbv zeta. revert s. induction ended as [|source ended IH]; intro s.
  - cbn. split; [|reflexivity]. symmetry. apply Base64Facts.filter_all. reflexivity.
  - unfold endedEvents, run in *. cbn [map fold_left step].
    destruct (IH (sourceEnded source s)) as (Hset & Hst).
    assert (H1 : audioSourcesRef (sourceEnded source s)
                 = setDelete source (audioSourcesRef s)).
    { rewrite sourceEnded_spec. now destruct (setDelete source (audioSourcesRef s)). }
    rewrite H1, setDelete_filter, filter_filter in Hset.
    split.
    + rewrite Hset. apply filter_ext. intro x. unfold notAmong. cbn [existsb].
      rewrite orb_false_r. now rewrite negb_orb.
    + intros Hne. rewrite (Hst Hne).
      rewrite sourceEnded_spec.
      destruct (setDelete source (audioSourcesRef s)) eqn:E; [|reflexivity].
      exfalso. apply Hne. rewrite Hset.
      rewrite <- filter_filter, <- setDelete_filter, E. reflexivity.
Qed.

(** X17. As the sources of the playback set end, in whatever order, the set
    loses exactly those that ended; the status does not move as long as some
    source is left, and it is [LISTENING] once an [ended] event leaves the
    set empty. *)
Theorem playback_runs_out (ended : list nat) (s : State) :
  let s' := run (endedEvents ended) s in
  audioSourcesRef s' = filter (notAmong ended) (audioSourcesRef s)
  /\ (audioSourcesRef s' <> [] -> status s' = status s)
  /\ (ended <> [] -> audioSourcesRef s' = [] -> status s' = LISTENING).
Proof.
  cbv zeta. destruct (ended_run ended s) as (Hset & Hst).
  split; [exact Hset|]. split; [exact Hst|].
  intros Hne Hempty.
  destruct (exists_last Hne) as (before & lastSource & ->).
  unfold endedEvents, run in *. rewrite map_app, fold_left_app in *.
  cbn [map fold_left step] in *.
  rewrite sourceEnded_spec in *.
  destruct (setDelete lastSource _) eqn:E; [reflexivity|].
  cbn in Hempty. discriminate.
Qed.

Lemma playback_runs_out_witness :
  status (run (endedEvents [1%nat; 0%nat])
              (scheduleAll [(0, bufferOf 10); (0, bufferOf 10)] liveState))
  = LISTENING
  /\ status (run (endedEvents [1%nat])
                 (setStatus SPEAKING
                    (scheduleAll [(0, bufferOf 10); (0, bufferOf 10)] liveState)))
     = SPEAKING.
Proof.
  destruct (playback_runs_out [1%nat; 0%nat]
              (scheduleAll [(0, bufferOf 10); (0, bufferOf 10)] liveState))
    as (_ & _ & H).
  destruct (playback_runs_out [1%nat]
              (setStatus SPEAKING
                 (scheduleAll [(0, bufferOf 10); (0, bufferOf 10)] liveState)))
    as (_ & H' & _).
  split.
  - apply H; [discriminate | vm_compute; reflexivity].
  - rewrite H'; [reflexivity|]. vm_compute. discriminate.
Defined.

(** ** The playback set *)

Lemma preserves_refl (P : State -> Prop) (s : State) : preserves P s s.
Proof. intro H. exact H. Qed.

Lemma preserves_trans (P : State -> Prop) (a b c : State) :
  preserves P a b -> preserves P b c -> preserves P a c.
Proof. unfold preserves. auto. Qed.

Lemma playbackSetFresh_same (s s' : State) :
  audioSourcesRef s' = audioSourcesRef s -> nextSource s' = nextSource s ->
  preserves playbackSetFresh s s'.
Proof. unfold preserves, playbackSetFresh. intros -> ->. auto. Qed.

Lemma playbackSetFresh_empty (s : State) : audioSourcesRef s = [] -> playbackSetFresh s.
Proof. unfold playbackSetFresh. intros ->. split; constructor. Qed.

Lemma setAdd_fresh (source : nat) (sources : list nat) :
  Forall (fun x => (x < source)%nat) sources ->
  setAdd source sources = sources ++ [source].
Proof.
  intros H. unfold setAdd.
  destruct (existsb (Nat.eqb source) sources) eqn:E; [|reflexivity].
  apply existsb_exists in E. destruct E as (x & Hx & Heq).
  apply Nat.eqb_eq in Heq. subst x.
  rewrite Forall_forall in H. specialize (H _ Hx). lia.
Qed.

Lemma scheduleNext_fresh (now : Q) (buffer : AudioBuffer) :
  keeps (preserves playbackSetFresh) (scheduleNext now buffer).
Proof.
  intros s (Hnodup & Hlt). rewrite scheduleNext_spec. cbn [fst].
  unfold playbackSetFresh. cbn [audioSourcesRef nextSource setAudioSourcesRef
    setNextStartTimeRef setTrace setNextSource].
  rewrite (setAdd_fresh _ _ Hlt). split.
  - apply NoDup_app; [exact Hnodup | repeat constructor; intros [] |].
    intros x Hx [<- | []]. rewrite Forall_forall in Hlt. specialize (Hlt _ Hx). lia.
  - apply Forall_app. split; [|repeat constructor].
    eapply Forall_impl; [|exact Hlt]. cbn. intros; lia.
Qed.

Lemma interrupt_fresh (s : State) : preserves playbackSetFresh s (interrupt s).
Proof. intros _. apply playbackSetFresh_empty. now rewrite interrupt_spec. Qed.

Lemma cleanup_fresh (s : State) : playbackSetFresh (cleanup s).
Proof. apply playbackSetFresh_empty. now rewrite cleanup_spec. Qed.

Lemma tryBlock_fresh (now : Q) (message : LiveServerMessage) :
  keeps (preserves playbackSetFresh) (tryBlock now message).
Proof.
  unfold tryBlock.
  apply (keeps_bind _ (preserves_trans _)).
  { intro s. destruct (handleToolCall_onlyTrace message s) as (calls & ->).
    now apply playbackSetFresh_same. }
  intros _.
  unfold handleTranscription, handleTurnComplete, handleAudio, base64AudioOf,
    handleInterrupted.
  confine (preserves_refl playbackSetFresh) (preserves_trans playbackSetFresh)
    ltac:(first [apply interrupt_fresh | now apply playbackSetFresh_same]).
  apply scheduleNext_fresh.
Qed.

Lemma startSession_sources (env : StartEnv) (s : State) :
  audioSourcesRef (startSession env s) = audioSourcesRef s
  /\ nextSource (startSession env s) = nextSource s.
Proof.
  unfold startSession. cbv zeta.
  destruct s as [st conv err session inCtx outCtx mic proc inAcc outAcc cursor
                   sources buffers fresh tr].
  change (status (setError None _)) with st.
  destruct st; try (split; reflexivity).
  all: destruct (failure env GetUserMedia); [rewrite startFailed_spec; split; reflexivity|].
  all: destruct (failure env NewInputContext); [rewrite startFailed_spec; split; reflexivity|].
  all: destruct (failure env NewOutputContext); [rewrite startFailed_spec; split; reflexivity|].
  all: destruct (match outputInitially env with
                 | suspended => failure env Resume
                 | _ => None
                 end); [rewrite startFailed_spec; split; reflexivity|].
  all: rewrite (preloadSounds_only_cache (decodable env)).
  all: destruct (failure env CreateSession); rewrite ?startFailed_spec;
    destruct (outputInitially env); split; reflexivity.
Qed.

Lemma step_fresh (e : Event) (s : State) : playbackSetFresh s -> playbackSetFresh (step e s).
Proof.
  intros H.
  destruct e as [env | | | now message | inputData | | | | source]; cbn [step].
  - destruct (startSession_sources env s) as (H1 & H2).
    now apply (playbackSetFresh_same s).
  - apply cleanup_fresh.
  - unfold onOpen.
    destruct (inputAudioContextRef s), (microphoneStreamRef s); exact H.
  - unfold handleMessage.
    pose proof (tryBlock_fresh now message s H) as Htry.
    destruct (tryBlock now message s) as [s' [[] | | e]]; cbn [fst] in Htry;
      try exact Htry.
    unfold catchBlock. cbv zeta. apply cleanup_fresh.
  - unfold onAudioProcess. destruct (sessionPromiseRef s); exact H.
  - unfold onError. cbv zeta. apply cleanup_fresh.
  - apply cleanup_fresh.
  - unfold onConnectionError. cbv zeta. apply cleanup_fresh.
  - rewrite sourceEnded_spec. destruct H as (Hnodup & Hlt).
    assert (Hrest : NoDup (setDelete source (audioSourcesRef s))
                    /\ Forall (fun x => (x < nextSource s)%nat)
                              (setDelete source (audioSourcesRef s))).
    { unfold setDelete. split.
      - now apply NoDup_filter.
      - apply Forall_forall. intros x Hx. apply filter_In in Hx.
        rewrite Forall_forall in Hlt. now apply Hlt. }
    destruct (setDelete source (audioSourcesRef s)) eqn:E.
    + apply playbackSetFresh_empty. reflexivity.
    + exact Hrest.
Qed.

(** In every state reached by any run of handlers from the initial
    state, the sources in the playback set are pairwise distinct and each
    was created before the next source to come: adding a scheduled source
    always adds a new member. *)
Theorem playback_set_is_fresh (s : State) : atRest s -> playbackSetFresh s.
Proof.
  intros (events & ->).
  assert (H : forall s0, playbackSetFresh s0 -> playbackSetFresh (run events s0)).
  { unfold run. induction events as [|e events IH]; intros s0 H0; cbn [fold_left].
    - exact H0.
    - apply IH. now apply step_fresh. }
  apply H. apply playbackSetFresh_empty. reflexivity.
Qed.

Lemma playback_set_is_fresh_witness :
  playbackSetFresh
    (run [Start allGood; Open; Message 0 (audioFragment "AEAAgA==");
          Message 0 (audioFragment "AEAAgA==")] initialState).
Proof.
  apply playback_set_is_fresh. eexists. reflexivity.
Defined.

(** ** The conversation log *)

Lemma extendsLog_refl (s : State) : extendsLog s s.
Proof.
  unfold extendsLog. destruct (conversation s) as [|t l] eqn:E.
  - exists []. split; [reflexivity | congruence].
  - destruct (exists_last (l := t :: l) ltac:(discriminate)) as (pre & lastTurn & ->).
    exists [lastTurn]. rewrite removelast_last. split; [reflexivity | discriminate].
Qed.

Lemma removelast_app_nonempty {A} (l tail : list A) :
  tail <> [] -> removelast (l ++ tail) = l ++ removelast tail.
Proof. intro H. now apply removelast_app. Qed.

Lemma extendsLog_trans (a b c : State) : extendsLog a b -> extendsLog b c -> extendsLog a c.
Proof.
  intros (t1 & H1 & N1) (t2 & H2 & N2). unfold extendsLog.
  destruct t1 as [|x t1].
  - rewrite app_nil_r in H1.
    assert (Ha : conversation a = []).
    { destruct (conversation a); [reflexivity|]. exfalso. now apply N1. }
    rewrite Ha in *. cbn in H1. rewrite H1 in *. cbn in H2.
    exists t2. split; [exact H2 | congruence].
  - rewrite H1, removelast_app_nonempty in H2 by discriminate.
    exists (removelast (x :: t1) ++ t2). split.
    + now rewrite H2, app_assoc.
    + intros _ E. apply app_eq_nil in E. destruct E as (_ & E).
      revert E. apply N2. rewrite H1. intro E. apply app_eq_nil in E.
      destruct E as (_ & E). discriminate.
Qed.

Lemma extendsLog_same (s s' : State) : conversation s' = conversation s -> extendsLog s s'.
Proof.
  intros H. destruct (extendsLog_refl s) as (tail & Ht & Hn).
  exists tail. now rewrite H.
Qed.

Lemma showUserSpeech_extends (transcript : string) (prev : list Turn) :
  exists tail, showUserSpeech transcript prev = removelast prev ++ tail /\ tail <> [].
Proof.
  unfold showUserSpeech.
  destruct prev as [|t l].
  - exists [userTurn transcript]. split; [reflexivity | discriminate].
  - destruct (exists_last (l := t :: l) ltac:(discriminate)) as (pre & lastTurn & ->).
    rewrite nth_error_last, removelast_last.
    destruct (is_user (speaker lastTurn)).
    + exists [userTurn transcript]. split; [reflexivity | discriminate].
    + exists [lastTurn; userTurn transcript]. split; [|discriminate].
      now rewrite <- app_assoc.
Qed.

Lemma finishTurn_extends (userInput aiResponse : string) (prev : list Turn) :
  exists tail,
    finishTurn userInput aiResponse prev = removelast prev ++ tail
    /\ (prev <> [] -> tail <> []).
Proof.
  destruct prev as [|t l].
  - rewrite finishTurn_other by auto. eexists. split; [reflexivity | congruence].
  - destruct (exists_last (l := t :: l) ltac:(discriminate)) as (pre & lastTurn & ->).
    rewrite removelast_last.
    destruct (speaker lastTurn) eqn:Esp.
    + destruct userInput as [|c u] eqn:Eu.
      * rewrite finishTurn_other by auto. rewrite <- app_assoc.
        eexists. split; [reflexivity | discriminate].
      * rewrite finishTurn_user by (auto; discriminate).
        eexists. split; [reflexivity | discriminate].
    + rewrite finishTurn_other by (right; right; eauto). rewrite <- app_assoc.
      eexists. split; [reflexivity | discriminate].
Qed.

Lemma tryBlock_extends (now : Q) (message : LiveServerMessage) :
  keeps extendsLog (tryBlock now message).
Proof.
  unfold tryBlock.
  apply (keeps_bind _ extendsLog_trans).
  { intro s. destruct (handleToolCall_onlyTrace message s) as (calls & ->).
    now apply extendsLog_same. }
  intros _.
  apply (keeps_bind _ extendsLog_trans).
  { unfold handleTranscription.
    confine extendsLog_refl extendsLog_trans
      ltac:(first [ now apply extendsLog_same
                  | match goal with
                    | |- extendsLog ?s (setConversation (showUserSpeech ?t) ?s) =>
                        destruct (showUserSpeech_extends t (conversation s))
                          as (tail & Ht & Hn);
                        exists tail; split; [exact Ht | intros _; exact Hn]
                    end ]). }
  intros _.
  apply (keeps_bind _ extendsLog_trans).
  { unfold handleTurnComplete.
    confine extendsLog_refl extendsLog_trans
      ltac:(first [ now apply extendsLog_same
                  | match goal with
                    | |- extendsLog ?s (setConversation (finishTurn ?u ?a) ?s) =>
                        destruct (finishTurn_extends u a (conversation s))
                          as (tail & Ht & Hn);
                        exists tail; split; [exact Ht | exact Hn]
                    end ]). }
  intros _.
  intro s. apply extendsLog_same.
  now destruct (audio_then_interrupted now message s) as (_ & _ & H).
Qed.

(** X18. Whatever the message and the state, handling a message removes no
    entry of the conversation log and changes none but the last: the log
    after it is the log before it without its last entry, followed by some
    entries, and it is not shorter. *)
Theorem log_is_append_only (now : Q) (message : LiveServerMessage) (s : State) :
  exists tail,
    conversation (handleMessage now message s) = removelast (conversation s) ++ tail
    /\ (conversation s <> [] -> tail <> [])
    /\ (length (conversation s) <= length (conversation (handleMessage now message s)))%nat.
Proof.
  assert (H : extendsLog s (handleMessage now message s)).
  { unfold handleMessage.
    apply (try_keeps extendsLog (tryBlock now message) s extendsLog_trans).
    - intro s0. apply extendsLog_same.
      now destruct (catchBlock_transcripts s0) as (_ & _ & H).
    - apply tryBlock_extends. }
  destruct H as (tail & Ht & Hn). exists tail. split; [exact Ht|]. split; [exact Hn|].
  rewrite Ht, length_app.
  destruct (conversation s) as [|t l] eqn:E; [cbn; lia|].
  destruct (exists_last (l := t :: l) ltac:(discriminate)) as (pre & lastTurn & Epre).
  rewrite Epre, removelast_last, length_app. cbn [length].
  destruct tail; [exfalso; apply Hn; congruence | cbn; lia].
Qed.

Lemma log_is_append_only_witness :
  exists tail,
    conversation (handleMessage 0 turnCompleteSignal (run dragonEvents initialState))
    = removelast (conversation (run dragonEvents initialState)) ++ tail
    /\ tail <> [].
Proof.
  destruct (log_is_append_only 0 turnCompleteSignal (run dragonEvents initialState))
    as (tail & Ht & Hn & _).
  exists tail. split; [exact Ht|]. apply Hn.
  intro H. vm_compute in H. discriminate.
Defined.

(** ** Live transcription *)

Lemma handleMessage_inputDelta (now : Q) (delta : string) (s : State) :
  handleMessage now (inputDelta delta) s
  = setConversation
      (showUserSpeech (currentInputTranscriptionRef s ++ delta)%string)
      (setCurrentInputTranscriptionRef
         (currentInputTranscriptionRef s ++ delta)%string s).
Proof. reflexivity. Qed.

Lemma append_assoc (a b c : string) : ((a ++ b) ++ c = a ++ (b ++ c))%string.
Proof. induction a as [|x a IH]; cbn; [reflexivity | now rewrite IH]. Qed.

Lemma append_empty (a : string) : (a ++ "")%string = a.
Proof. induction a as [|x a IH]; cbn; [reflexivity | now rewrite IH]. Qed.

Lemma showUserSpeech_open (transcript : string) (pre : list Turn) (lastTurn : Turn) :
  speaker lastTurn = user ->
  showUserSpeech transcript (pre ++ [lastTurn]) = pre ++ [userTurn transcript].
Proof.
  intros Hsp. unfold showUserSpeech.
  now rewrite nth_error_last, Hsp, removelast_last.
Qed.

Lemma showUserSpeech_new (transcript : string) (log : list Turn) :
  noOpenUserTurn log ->
  showUserSpeech transcript log = log ++ [userTurn transcript].
Proof.
  intros [-> | (pre & lastTurn & -> & Hsp)]; unfold showUserSpeech.
  - reflexivity.
  - now rewrite nth_error_last, Hsp.
Qed.

(** While a user turn is open, deltas amend it. *)
Lemma inputDeltas_open (deltas : list (Q * string)) (s : State)
      (pre : list Turn) (lastTurn : Turn) :
  conversation s = pre ++ [lastTurn] -> speaker lastTurn = user ->
  deltas <> [] ->
  conversation (run (inputDeltas deltas) s)
  = pre ++ [userTurn (currentInputTranscriptionRef s ++ joined deltas)%string]
  /\ currentInputTranscriptionRef (run (inputDeltas deltas) s)
     = (currentInputTranscriptionRef s ++ joined deltas)%string.
Proof.
  revert s lastTurn. induction deltas as [|[now d] deltas IH];
    intros s lastTurn Hlog Hsp Hne; [contradiction|].
  unfold inputDeltas, run in *. cbn [map fold_left step fst snd joined fold_right].
  rewrite handleMessage_inputDelta.
  set (s1 := setConversation _ _).
  assert (Hlog1 : conversation s1
                  = pre ++ [userTurn (currentInputTranscriptionRef s ++ d)%string]).
  { unfold s1, setConversation, putConversation. cbn [conversation setCurrentInputTranscriptionRef].
    rewrite Hlog. now apply showUserSpeech_open. }
  assert (Hacc1 : currentInputTranscriptionRef s1
                  = (currentInputTranscriptionRef s ++ d)%string) by reflexivity.
  destruct deltas as [|d' deltas].
  - cbn [map fold_left fold_right]. rewrite append_empty. now split.
  - destruct (IH s1 _ Hlog1 eq_refl ltac:(discriminate)) as (H1 & H2).
    rewrite H1, H2, Hacc1, append_assoc. now split.
Qed.

(** X19. A run of user deltas that starts with an empty accumulator, on a
    log whose last entry is not a user turn, adds one user entry to the log,
    and after every delta that entry carries all the deltas so far, put end
    to end: the entry is created by the first delta and amended by the
    others. *)
Theorem user_deltas_make_one_entry (deltas : list (Q * string)) (s : State) :
  deltas <> [] ->
  currentInputTranscriptionRef s = "" ->
  noOpenUserTurn (conversation s) ->
  conversation (run (inputDeltas deltas) s) = conversation s ++ [userTurn (joined deltas)]
  /\ currentInputTranscriptionRef (run (inputDeltas deltas) s) = joined deltas.
Proof.
  intros Hne Hacc Hlog. destruct deltas as [|[now d] deltas]; [contradiction|].
  unfold inputDeltas, run. cbn [map fold_left step fst snd joined fold_right].
  rewrite handleMessage_inputDelta. rewrite Hacc. cbn [String.append].
  set (s1 := setConversation _ _).
  assert (Hlog1 : conversation s1 = conversation s ++ [userTurn d]).
  { unfold s1, setConversation, putConversation. cbn [conversation setCurrentInputTranscriptionRef].
    now apply showUserSpeech_new. }
  destruct deltas as [|d' deltas].
  - cbn [map fold_left fold_right]. rewrite append_empty. now split.
  - destruct (inputDeltas_open (d' :: deltas) s1 _ _ Hlog1 eq_refl ltac:(discriminate))
      as (H1 & H2).
    unfold inputDeltas, run in H1, H2. rewrite H1, H2. now split.
Qed.

Lemma user_deltas_make_one_entry_witness :
  conversation
    (run (inputDeltas [(0, "Once "); (0, "upon "); (0, "a time")]) initialState)
  = conversation initialState ++ [userTurn (joined [(0, "Once "); (0, "upon "); (0, "a time")])]
  /\ currentInputTranscriptionRef
       (run (inputDeltas [(0, "Once "); (0, "upon "); (0, "a time")]) initialState)
     = joined [(0, "Once "); (0, "upon "); (0, "a time")].
Proof.
  apply user_deltas_make_one_entry.
  - discriminate.
  - reflexivity.
  - left. reflexivity.
Defined.

(** X20. When a turn completes without any AI text while the last log entry
    is a user turn, no AI entry separates it from what comes next: the next
    user delta replaces the text of that finished user turn instead of
    opening a new one. *)
Theorem next_delta_overwrites_finished_turn (now now' : Q) (delta : string)
        (pre : list Turn) (lastTurn : Turn) (s : State) :
  conversation s = pre ++ [lastTurn] ->
  speaker lastTurn = user ->
  trim (currentOutputTranscriptionRef s) = "" ->
  conversation (run [Message now turnCompleteSignal; Message now' (inputDelta delta)] s)
  = pre ++ [userTurn delta].
Proof.
  intros Hlog Hsp Hai. unfold run. cbn [fold_left step].
  rewrite handleMessage_inputDelta, handleMessage_turnComplete.
  cbn [currentInputTranscriptionRef setStatus setCurrentOutputTranscriptionRef
       setCurrentInputTranscriptionRef String.append].
  unfold setConversation, putConversation.
  cbn [conversation setStatus setCurrentOutputTranscriptionRef
       setCurrentInputTranscriptionRef].
  rewrite Hlog, Hai.
  destruct (trim (currentInputTranscriptionRef s)) as [|c u] eqn:Eu.
  - rewrite finishTurn_other by auto. cbn [truthy]. rewrite app_nil_r.
    now apply showUserSpeech_open.
  - rewrite finishTurn_user by (auto; discriminate). cbn [truthy]. rewrite app_nil_r.
    now apply showUserSpeech_open.
Qed.

Lemma next_delta_overwrites_finished_turn_witness :
  conversation
    (run [Message 0 turnCompleteSignal; Message 0 (inputDelta "Hello")]
         (run (inputDeltas [(0, "Once upon a time")]) initialState))
  = [] ++ [userTurn "Hello"].
Proof.
  apply (next_delta_overwrites_finished_turn 0 0 "Hello" [] (userTurn "Once upon a time"));
    reflexivity.
Defined.

(** ** Across sessions *)

(** X21. Neither [stop] nor a start resets the transcript accumulators: what
    was left in the user accumulator when a session was stopped is the
    beginning of the first user entry of the next session. *)
Theorem transcript_survives_restart (env : StartEnv) (now : Q) (delta : string)
        (s : State) :
  failsAt env = None ->
  conversation (run [Stop; Start env; Open; Message now (inputDelta delta)] s)
  = [userTurn (currentInputTranscriptionRef s ++ delta)%string].
Proof.
  intros Hfail. unfold run. cbn [fold_left step].
  rewrite handleMessage_inputDelta.
  unfold stopSession. rewrite cleanup_spec.
  unfold startSession, failure, onOpen. cbv zeta. rewrite Hfail.
  destruct s as [st conv err session inCtx outCtx mic proc inAcc outAcc cursor
                   sources buffers fresh tr].
  cbn [status setError].
  destruct (outputInitially env);
    rewrite (preloadSounds_only_cache (decodable env)); reflexivity.
Qed.

Lemma transcript_survives_restart_witness :
  conversation
    (run [Stop; Start allGood; Open; Message 0 (inputDelta "again")]
         (run (inputDeltas [(0, "Once ")]) liveState))
  = [userTurn "Once again"].
Proof.
  apply (transcript_survives_restart allGood 0 "again"
           (run (inputDeltas [(0, "Once ")]) liveState)).
  reflexivity.
Defined.

(** ** Interruption and scheduling *)

(** X22. After an interruption the next fragment is started at the clock
    reading of its handling, whatever was queued before: the cursor gives no
    delay, the fragment is the only member of the playback set, and the
    cursor ends one duration after that reading. *)
Theorem fragment_after_interruption (now now' : Q) (buffer : AudioBuffer) (s : State) :
  0 <= now' ->
  let s1 := handleMessage now interruptedSignal s in
  let s2 := fst (scheduleNext now' buffer s1) in
  exists start,
    trace s2 = trace s1 ++ [SourceStart (nextSource s) start buffer]
    /\ start == now'
    /\ audioSourcesRef s2 = [nextSource s]
    /\ nextStartTimeRef s2 == now' + duration buffer.
Proof.
  intros Hnow. cbv zeta.
  change (handleMessage now interruptedSignal s) with (interrupt s).
  rewrite scheduleNext_spec, interrupt_spec. cbn [fst].
  exists (Qmax 0 now').
  assert (Hmax : Qmax 0 now' == now') by now apply Q.max_r.
  repeat split.
  - exact Hmax.
  - cbn [nextStartTimeRef setAudioSourcesRef setNextStartTimeRef setTrace setNextSource].
    now rewrite Hmax.
Qed.

Lemma fragment_after_interruption_witness :
  exists start,
    trace (fst (scheduleNext (1 # 2) (bufferOf 2400)
                  (handleMessage 0 interruptedSignal
                     (scheduleAll [(0, bufferOf 4800)] initialState))))
    = trace (handleMessage 0 interruptedSignal
               (scheduleAll [(0, bufferOf 4800)] initialState))
      ++ [SourceStart (nextSource (scheduleAll [(0, bufferOf 4800)] initialState))
            start (bufferOf 2400)]
    /\ start == 1 # 2
    /\ audioSourcesRef
         (fst (scheduleNext (1 # 2) (bufferOf 2400)
                 (handleMessage 0 interruptedSignal
                    (scheduleAll [(0, bufferOf 4800)] initialState))))
       = [nextSource (scheduleAll [(0, bufferOf 4800)] initialState)]
    /\ nextStartTimeRef
         (fst (scheduleNext (1 # 2) (bufferOf 2400)
                 (handleMessage 0 interruptedSignal
                    (scheduleAll [(0, bufferOf 4800)] initialState))))
       == (1 # 2) + duration (bufferOf 2400).
Proof.
  apply (fragment_after_interruption 0 (1 # 2) (bufferOf 2400)
           (scheduleAll [(0, bufferOf 4800)] initialState)).
  discriminate.
Defined.

(** X23. An audio fragment that arrives while no output sink is referenced
    sets the status to [SPEAKING] and returns: nothing is decoded or
    scheduled, and an interruption flag carried by the same message is not
    acted upon.  A fragment whose data is the empty string is not a
    fragment at all: it changes nothing. *)
Theorem fragment_without_sink (now : Q) (base64 : string) (flag : option bool)
        (s : State) :
  (outputAudioContextRef s = None ->
   truthy base64 = true ->
   handleMessage now
     (contentMessage
        {| outputTranscription := None; inputTranscription := None;
           turnComplete := None;
           modelTurn := Some {| parts := Some [ {| inlineData :=
                           Some {| data := Some base64; mimeType := None |} |} ] |};
           interrupted := flag |}) s
   = setStatus SPEAKING s)
  /\ handleMessage now (audioFragment "") s = s.
Proof.
  split.
  - intros Hctx Htruthy.
    unfold handleMessage, tryBlock, handleToolCall, handleTranscription,
      handleTurnComplete, handleAudio, base64AudioOf, handleInterrupted,
      contentMessage.
    running. rewrite Htruthy. running. rewrite Hctx. reflexivity.
  - reflexivity.
Qed.

Lemma fragment_without_sink_witness :
  handleMessage 0
    (contentMessage
       {| outputTranscription := None; inputTranscription := None;
          turnComplete := None;
          modelTurn := Some {| parts := Some [ {| inlineData :=
                          Some {| data := Some "AEAAgA=="; mimeType := None |} |} ] |};
          interrupted := Some true |}) initialState
  = setStatus SPEAKING initialState.
Proof.
  destruct (fragment_without_sink 0 "AEAAgA==" (Some true) initialState) as (H & _).
  apply H; reflexivity.
Defined.

(** ** What a message can do to the status *)

(** X24. No inbound message puts the hook in [ERROR] or sets an error
    message: after the handler the message is the one before or null, the
    status is the one before, [LISTENING], [SPEAKING] or [IDLE], and if it is
    [ERROR] it was [ERROR] before, with the same message. *)
Theorem message_never_sets_error (now : Q) (message : LiveServerMessage) (s : State) :
  let s' := handleMessage now message s in
  (error s' = error s \/ error s' = None)
  /\ (status s' = status s \/ status s' = LISTENING
      \/ status s' = SPEAKING \/ status s' = IDLE)
  /\ (status s' = ERROR -> status s = ERROR /\ error s' = error s).
Proof.
  cbv zeta. unfold handleMessage.
  assert (Hquiet : forall s', sameError s s' ->
            (error s' = error s \/ error s' = None)
            /\ (status s' = status s \/ status s' = LISTENING
                \/ status s' = SPEAKING \/ status s' = IDLE)
            /\ (status s' = ERROR -> status s = ERROR /\ error s' = error s)).
  { intros s' (He & Hs). split; [now left|]. split; [tauto|].
    intro H. split; [|exact He].
    destruct Hs as [Hs | [Hs | Hs]]; congruence. }
  pose proof (tryBlock_error now message s) as Htry.
  destruct (tryBlock now message s) as [s' [[] | | e]]; cbn [fst] in Htry.
  - now apply Hquiet.
  - now apply Hquiet.
  - destruct (catchBlock_outcome s') as (H1 & H2 & _).
    split; [now right|]. split; [tauto|]. intro H. congruence.
Qed.

Lemma message_never_sets_error_witness :
  status (startSession microphoneDenied initialState) = ERROR
  /\ error (handleMessage 0 interruptedSignal (startSession microphoneDenied initialState))
     = error (startSession microphoneDenied initialState).
Proof.
  destruct (message_never_sets_error 0 interruptedSignal
              (startSession microphoneDenied initialState)) as (_ & _ & H).
  apply H. reflexivity.
Defined.

(** ** Several tool calls in one message *)

Lemma handleFunctionCall_sound (id soundName : string) (s : State)
      (ctx : AudioContext) (session : nat) :
  outputAudioContextRef s = Some ctx ->
  sessionPromiseRef s = Some session ->
  isInherited soundName = false ->
  handleFunctionCall (soundCall id soundName) s
  = (setTrace (trace s ++ soundCallEffects id soundName ctx session s) s, Normal tt).
Proof.
  intros Hctx Hsession Hname.
  destruct s as [st conv err sess inCtx outCtx mic proc inAcc outAcc cursor
                   sources buffers fresh tr].
  cbn in Hctx, Hsession. subst outCtx sess.
  unfold soundCallEffects, handleFunctionCall, playSound, isPreloaded, soundCall.
  running.
  change (eqOptString (Some "playSoundEffect") "playSoundEffect") with true.
  running. rewrite Hname.
  destruct (truthy soundName); cbn [andb]; running;
    [destruct (existsb (String.eqb soundName) buffers); cbn [andb]; running;
     destruct (isRunning ctx); running|];
    rewrite <- ?app_assoc; reflexivity.
Qed.

Lemma soundCallEffects_acknowledgment (id soundName : string) (ctx : AudioContext)
      (session : nat) (s : State) :
  acknowledgments (soundCallEffects id soundName ctx session s)
  = [(session, SendToolResponse (Some id) (Some "playSoundEffect") "ok")]
  /\ (playbacks (soundCallEffects id soundName ctx session s) = []
      \/ playbacks (soundCallEffects id soundName ctx session s) = [soundName]).
Proof.
  unfold soundCallEffects.
  destruct (truthy soundName && (isPreloaded soundName s && isRunning ctx));
    cbn; auto.
Qed.

Lemma acknowledgments_app (a b : list Effect) :
  acknowledgments (a ++ b) = acknowledgments a ++ acknowledgments b.
Proof. unfold acknowledgments. apply flat_map_app. Qed.

Lemma playbacks_app (a b : list Effect) : playbacks (a ++ b) = playbacks a ++ playbacks b.
Proof. unfold playbacks. apply flat_map_app. Qed.

Lemma forOf_soundCalls (calls : list (string * string)) (s : State)
      (ctx : AudioContext) (session : nat) :
  outputAudioContextRef s = Some ctx ->
  sessionPromiseRef s = Some session ->
  Forall (fun call => isInherited (snd call) = false) calls ->
  exists effects,
    forOf (map (fun call => soundCall (fst call) (snd call)) calls) handleFunctionCall s
    = (setTrace (trace s ++ effects) s, Normal tt)
    /\ acknowledgments effects
       = map (fun call => (session, SendToolResponse (Some (fst call))
                                      (Some "playSoundEffect") "ok")) calls
    /\ (length (playbacks effects) <= length calls)%nat
    /\ (forall soundName, In soundName (playbacks effects) ->
          In soundName (map snd calls)).
Proof.
  intros Hctx Hsession Hall. revert s Hctx Hsession.
  induction Hall as [|[id soundName] calls Hname _ IH]; intros s Hctx Hsession.
  - exists []. cbn [map forOf]. split.
    + unfold ret. now rewrite app_nil_r, setTrace_same.
    + repeat split; auto.
  - cbn [map forOf fst snd] in *.
    pose proof (handleFunctionCall_sound id soundName s ctx session Hctx Hsession Hname)
      as Hcall.
    rewrite (bind_normal _ _ _ _ _ Hcall).
    set (s1 := setTrace (trace s ++ soundCallEffects id soundName ctx session s) s).
    destruct (IH s1) as (effects & Hrun & Hack & Hlen & Hin);
      [destruct s; exact Hctx | destruct s; exact Hsession |].
    destruct (soundCallEffects_acknowledgment id soundName ctx session s) as (Ha & Hp).
    exists (soundCallEffects id soundName ctx session s ++ effects).
    split; [|split; [|split]].
    + rewrite Hrun. unfold s1. destruct s. cbn. now rewrite <- app_assoc.
    + now rewrite acknowledgments_app, Ha, Hack.
    + rewrite playbacks_app, length_app. cbn [length].
      destruct Hp as [-> | ->]; cbn [length]; lia.
    + intros n Hn. rewrite playbacks_app in Hn. apply in_app_or in Hn.
      destruct Hn as [Hn | Hn].
      * destruct Hp as [Hp | Hp]; rewrite Hp in Hn; cbn in Hn; [tauto|].
        left. tauto.
      * right. now apply Hin.
Qed.

(** X25. A tool-call message with several sound calls (none naming an
    inherited property of the cache), handled while a sink is referenced and
    a session handle is held, hands one acknowledgment per call to the
    session, in the order of the calls and each with the id of its call;
    there are at most as many playbacks as calls, each of a sound some call
    names; nothing but the trace of calls changes. *)
Theorem tool_calls_are_acknowledged_in_order (now : Q) (calls : list (string * string))
        (s : State) (ctx : AudioContext) (session : nat) :
  outputAudioContextRef s = Some ctx ->
  sessionPromiseRef s = Some session ->
  Forall (fun call => isInherited (snd call) = false) calls ->
  exists effects,
    handleMessage now
      (toolCallMessage (map (fun call => soundCall (fst call) (snd call)) calls)) s
    = setTrace (trace s ++ effects) s
    /\ acknowledgments effects
       = map (fun call => (session, SendToolResponse (Some (fst call))
                                      (Some "playSoundEffect") "ok")) calls
    /\ (length (playbacks effects) <= length calls)%nat
    /\ (forall soundName, In soundName (playbacks effects) ->
          In soundName (map snd calls)).
Proof.
  intros Hctx Hsession Hall.
  destruct (forOf_soundCalls calls s ctx session Hctx Hsession Hall)
    as (effects & Hrun & Hrest).
  exists effects. split; [|exact Hrest].
  unfold handleMessage, tryBlock.
  change (handleToolCall (toolCallMessage ?l)) with (forOf l handleFunctionCall).
  rewrite (bind_normal _ _ _ _ _ Hrun). reflexivity.
Qed.

Lemma tool_calls_are_acknowledged_in_order_witness :
  exists effects,
    handleMessage 0
      (toolCallMessage
         (map (fun call => soundCall (fst call) (snd call))
              [("call-1", "sparkle"); ("call-2", "whoosh")])) liveState
    = setTrace (trace liveState ++ effects) liveState
    /\ acknowledgments effects
       = map (fun call => (1%nat, SendToolResponse (Some (fst call))
                                    (Some "playSoundEffect") "ok"))
             [("call-1", "sparkle"); ("call-2", "whoosh")]
    /\ (length (playbacks effects) <= length [("call-1", "sparkle"); ("call-2", "whoosh")])%nat
    /\ (forall soundName, In soundName (playbacks effects) ->
          In soundName (map snd [("call-1", "sparkle"); ("call-2", "whoosh")])).
Proof.
  apply (tool_calls_are_acknowledged_in_order 0
           [("call-1", "sparkle"); ("call-2", "whoosh")] liveState
           {| ctx_state := running; ctx_rate := 24000 |} 1%nat).
  - reflexivity.
  - reflexivity.
  - repeat constructor.
Defined.

(** ** The interface *)

Lemma startErrorMessage_truthy (name : string) : truthy (startErrorMessage name) = true.
Proof.
  unfold startErrorMessage.
  now destruct (String.eqb name "NotAllowedError" || String.eqb name "NotFoundError").
Qed.

Lemma errorIsShown_not_error (s : State) : status s <> ERROR -> errorIsShown s.
Proof. intros H E. contradiction. Qed.

Lemma errorIsShown_quiet (s s' : State) : sameError s s' -> errorIsShown s -> errorIsShown s'.
Proof.
  intros (He & Hs) H E. rewrite He. apply H.
  destruct Hs as [Hs | [Hs | Hs]]; congruence.
Qed.

Lemma startSession_shown (env : StartEnv) (s : State) :
  status s <> ERROR -> errorIsShown (startSession env s).
Proof.
  intros Hst.
  assert (Hfail : forall name s0, errorIsShown (startFailed name s0)).
  { intros name s0 _. rewrite startFailed_spec.
    exists (startErrorMessage name). split; [reflexivity | apply startErrorMessage_truthy]. }
  unfold startSession. cbv zeta.
  destruct s as [st conv err session inCtx outCtx mic proc inAcc outAcc cursor
                   sources buffers fresh tr].
  cbn [status] in Hst.
  change (status (setError None _)) with st.
  destruct st; try contradiction;
    try (apply errorIsShown_not_error; intro E; assignments; discriminate).
  destruct (failure env GetUserMedia); [apply Hfail|].
  destruct (failure env NewInputContext); [apply Hfail|].
  destruct (failure env NewOutputContext); [apply Hfail|].
  destruct (match outputInitially env with
            | suspended => failure env Resume
            | _ => None
            end); [apply Hfail|].
  destruct (failure env CreateSession); [apply Hfail|].
  apply errorIsShown_not_error.
  rewrite (preloadSounds_only_cache (decodable env)).
  destruct (outputInitially env); intro E; assignments; discriminate.
Qed.

Lemma cleanup_shown (s : State) : errorIsShown (cleanup s).
Proof. apply errorIsShown_not_error. rewrite cleanup_spec. discriminate. Qed.

Lemma handleMessage_shown (now : Q) (message : LiveServerMessage) (s : State) :
  errorIsShown s -> errorIsShown (handleMessage now message s).
Proof.
  intros H. unfold handleMessage.
  pose proof (tryBlock_error now message s) as Htry.
  destruct (tryBlock now message s) as [s' [[] | | e]]; cbn [fst] in Htry.
  - now apply (errorIsShown_quiet s).
  - now apply (errorIsShown_quiet s).
  - unfold catchBlock. cbv zeta. apply cleanup_shown.
Qed.

Lemma happen_shown (h : Happening) (s : State) : errorIsShown s -> errorIsShown (happen h s).
Proof.
  intros H. destruct h as [env | | e]; cbn [happen].
  - unfold buttonDisabled, handleClick.
    destruct (status s) eqn:Est; cbn [isIdle]; try apply cleanup_shown; try exact H.
    apply startSession_shown. congruence.
  - destruct (errorModalShown s); [apply cleanup_shown | exact H].
  - destruct e as [env | | | now message | inputData | | | | source];
      cbn [isCallback step]; try exact H.
    + unfold onOpen.
      destruct (inputAudioContextRef s), (microphoneStreamRef s); try exact H.
      apply errorIsShown_not_error. discriminate.
    + now apply handleMessage_shown.
    + unfold onAudioProcess. destruct (sessionPromiseRef s); exact H.
    + unfold onError. cbv zeta. apply cleanup_shown.
    + apply cleanup_shown.
    + unfold onConnectionError. cbv zeta. apply cleanup_shown.
    + now apply (errorIsShown_quiet s); [apply sourceEnded_error|].
Qed.

(** X26. Whatever the user presses and whatever the session and the audio
    graph call back, from the initial state on: whenever the control button
    is disabled, the error dialog is shown, so that its reset, which stops
    and returns to [IDLE], is there to leave [ERROR]. *)
Theorem interface_is_never_stuck (happenings : list Happening) :
  let s := appRun happenings initialState in
  buttonDisabled s = true ->
  errorModalShown s = true /\ status (happen PressReset s) = IDLE.
Proof.
  cbv zeta.
  assert (H : forall s0, errorIsShown s0 -> errorIsShown (appRun happenings s0)).
  { unfold appRun. induction happenings as [|h happenings IH]; intros s0 H0;
      cbn [fold_left]; [exact H0|].
    apply IH. now apply happen_shown. }
  assert (H0 : errorIsShown initialState).
  { apply errorIsShown_not_error. cbn. discriminate. }
  specialize (H initialState H0).
  set (s := appRun happenings initialState) in *.
  unfold buttonDisabled, errorModalShown. cbn [happen]. unfold errorModalShown.
  destruct (status s) eqn:Est; try discriminate.
  intros _. destruct (H Est) as (message & He & Ht).
  rewrite He. cbn [truthyOpt]. rewrite Ht. split; [reflexivity|].
  unfold stopSession. now rewrite cleanup_spec.
Qed.

Lemma interface_is_never_stuck_witness :
  errorModalShown (appRun [PressButton microphoneDenied] initialState) = true
  /\ status (happen PressReset (appRun [PressButton microphoneDenied] initialState)) = IDLE.
Proof.
  apply (interface_is_never_stuck [PressButton microphoneDenied]).
  reflexivity.
Defined.
